(** * Version-resolution engine: semver, conventional commits, aggregation

    A shallow embedding of [src/semver.ts], [src/conventional_commits.ts] and the
    pure parts of [src/main.ts], with the properties the specification states
    about them.

    Conventions of the embedding.
    - A JavaScript string is a sequence of UTF-16 code units.  It is modelled
      by [string]; a character of the model stands for one code unit in the
      range 0..255, which covers every character the regular expressions of
      the sources name explicitly.
    - A JavaScript [number] is an IEEE double.  The numbers of these sources
      are integers, infinities and NaN; they are modelled by [Js.number], whose
      operations round as the doubles do and print as [String] prints them.
    - [undefined] is [None]; a thrown [Error] is the [Throw] result.
    - Logging through [@actions/core] has no effect on results and is left
      out. *)

From Stdlib Require Import ZArith NArith List Bool Ascii String Lia.
Import ListNotations.

Local Open Scope string_scope.
Local Open Scope Z_scope.

(** ** JavaScript strings, character classes and numbers *)

Module Js.

(** Code unit of a character. *)
Definition code (c : ascii) : N := N_of_ascii c.

Definition in_range (lo hi : N) (c : ascii) : bool :=
  ((lo <=? code c) && (code c <=? hi))%N.

(** [\d], i.e. [[0-9]]. *)
Definition is_digit (c : ascii) : bool := in_range 48 57 c.

(** [[1-9]]. *)
Definition is_nonzero_digit (c : ascii) : bool := in_range 49 57 c.

(** [[a-zA-Z]]. *)
Definition is_alpha (c : ascii) : bool := in_range 97 122 c || in_range 65 90 c.

(** [[a-zA-Z-]]. *)
Definition is_alpha_hyphen (c : ascii) : bool := is_alpha c || (c =? "-")%char.

(** [[0-9a-zA-Z-]]. *)
Definition is_alnum_hyphen (c : ascii) : bool := is_digit c || is_alpha_hyphen c.

(** [\w], i.e. [[A-Za-z0-9_]]. *)
Definition is_word (c : ascii) : bool := is_alpha c || is_digit c || (c =? "_")%char.

(** [\s] on code units below 256: TAB, LF, VT, FF, CR, SPACE and NBSP. *)
Definition is_space (c : ascii) : bool :=
  in_range 9 13 c || (code c =? 32)%N || (code c =? 160)%N.

(** Line terminators below 256: LF and CR.  [.] matches every other code unit. *)
Definition is_line_terminator (c : ascii) : bool :=
  (code c =? 10)%N || (code c =? 13)%N.

Definition is_dot (c : ascii) : bool := negb (is_line_terminator c).

(** [(?:.|\n)]: everything but CR. *)
Definition is_dot_or_lf (c : ascii) : bool := is_dot c || (code c =? 10)%N.

Fixpoint all (p : ascii -> bool) (s : string) : bool :=
  match s with
  | EmptyString => true
  | String c s' => p c && all p s'
  end.

(** The longest prefix of [s] whose characters satisfy [p], and what follows
    it: how a greedy [p*] reads [s] when the pattern after it cannot start
    with a character of [p]. *)
Fixpoint span (p : ascii -> bool) (s : string) : string * string :=
  match s with
  | EmptyString => (EmptyString, EmptyString)
  | String c s' =>
      if p c then let (a, b) := span p s' in (String c a, b)
      else (EmptyString, s)
  end.

(** [s.split(sep)] for a separator given as a character class: never the empty
    list, [""] splits into [[""]]. *)
Fixpoint split (sep : ascii -> bool) (s : string) : list string :=
  match s with
  | EmptyString => [EmptyString]
  | String c s' =>
      if sep c then EmptyString :: split sep s'
      else match split sep s' with
           | [] => [String c EmptyString]
           | x :: xs => String c x :: xs
           end
  end.

(** [s.startsWith(p)] together with the rest of [s] after [p]. *)
Fixpoint strip_prefix (p s : string) : option string :=
  match p, s with
  | EmptyString, _ => Some s
  | String a p', String b s' => if (a =? b)%char then strip_prefix p' s' else None
  | String _ _, EmptyString => None
  end.

(** [s.includes(needle)]. *)
Fixpoint includes (needle s : string) : bool :=
  match strip_prefix needle s with
  | Some _ => true
  | None => match s with
            | EmptyString => false
            | String _ s' => includes needle s'
            end
  end.

(** Truthiness of a string value: [""] is falsy. *)
Definition truthy (s : string) : bool :=
  match s with EmptyString => false | String _ _ => true end.

(** Truthiness of [string | undefined]. *)
Definition truthy_opt (o : option string) : bool :=
  match o with Some s => truthy s | None => false end.

(** The string that a value of type [string | undefined] holds where a
    truthiness guard has narrowed its type to [string]. *)
Definition narrowed (o : option string) : string :=
  match o with Some s => s | None => EmptyString end.

(** [/^[0-9]+$/.test(s)]. *)
Definition is_numeric (s : string) : bool := truthy s && all is_digit s.

Definition digit_value (c : ascii) : Z := Z.of_N (code c) - 48.

(** Value read from a string of decimal digits, most significant first, on top
    of the value [acc] of the digits already read. *)
Fixpoint digits_value (acc : Z) (s : string) : Z :=
  match s with
  | EmptyString => acc
  | String c s' => digits_value (10 * acc + digit_value c) s'
  end.

Definition digit_char (d : Z) : ascii := ascii_of_N (Z.to_N (48 + d)).

(** Decimal digits of [n >= 0] prepended to [acc]; [fuel] bounds the number of
    digits. *)
Fixpoint digits_of (fuel : nat) (n : Z) (acc : string) : string :=
  match fuel with
  | O => acc
  | S fuel' =>
      let acc' := String (digit_char (n mod 10)) acc in
      if n <? 10 then acc' else digits_of fuel' (n / 10) acc'
  end.

(** The decimal digits of an integer [n >= 0], without leading zeros.  A
    number below [2^k] has at most [k] digits. *)
Definition decimal (n : Z) : string :=
  digits_of (S (Z.to_nat (Z.log2 n))) n EmptyString.

(** *** Numbers *)

(** A number of the program.  The numbers that the sources compute with are
    integers (version components, rc indices, the values of digit strings,
    signs), the infinities that a long digit string gives, and NaN.  A number
    is an IEEE double: [Finite z] stands for the double of value [z], and
    every operation rounds its result to a double. *)
Inductive number : Set :=
  | Finite (z : Z)
  | PosInfinity
  | NegInfinity
  | NaN.

Coercion Finite : Z >-> number.

(** The double nearest to the integer [a >= 0], as an integer.  Below [2^53]
    every integer is a double; from there on a double has 53 significant
    bits, [q], over a power of two, and a tie goes to the even [q]. *)
Definition round_even (a : Z) : Z :=
  if a <? 2 ^ 53 then a
  else
    let e := Z.log2 a - 52 in
    let q := a / 2 ^ e in
    let r := a mod 2 ^ e in
    let up := (2 ^ e <? 2 * r) || ((2 * r =? 2 ^ e) && Z.odd q) in
    (if up then q + 1 else q) * 2 ^ e.

(** The Number value for the integer [z]: the nearest double, and an infinity
    when that is [2^1024] or more. *)
Definition to_double (z : Z) : number :=
  let r := round_even (Z.abs z) in
  if 2 ^ 1024 <=? r then (if z <? 0 then NegInfinity else PosInfinity)
  else Finite (Z.sgn z * r).

(** [Number(s)] on a string of decimal digits: the Number value for the
    integer that the digits write. *)
Definition Number (s : string) : number := to_double (digits_value 0 s).

(** [parseInt(s, 10)] on a string of decimal digits.  (The language lets a
    host read a literal of more than 20 digits from its first 20 digits; Node
    rounds the integer that all the digits write.) *)
Definition parseInt (s : string) : number := to_double (digits_value 0 s).

(** [-x]. *)
Definition opp (x : number) : number :=
  match x with
  | Finite z => Finite (- z)
  | PosInfinity => NegInfinity
  | NegInfinity => PosInfinity
  | NaN => NaN
  end.

(** [x + y]: the exact sum, rounded. *)
Definition add (x y : number) : number :=
  match x, y with
  | NaN, _ | _, NaN => NaN
  | Finite a, Finite b => to_double (a + b)
  | PosInfinity, NegInfinity | NegInfinity, PosInfinity => NaN
  | PosInfinity, _ | _, PosInfinity => PosInfinity
  | NegInfinity, _ | _, NegInfinity => NegInfinity
  end.

(** [x - y]. *)
Definition sub (x y : number) : number := add x (opp y).

(** [Math.sign(x)]. *)
Definition Math_sign (x : number) : number :=
  match x with
  | Finite z => Finite (Z.sgn z)
  | PosInfinity => Finite 1
  | NegInfinity => Finite (-1)
  | NaN => NaN
  end.

(** [isNaN(x)]. *)
Definition isNaN (x : number) : bool :=
  match x with NaN => true | _ => false end.

(** [x === y]: NaN is equal to nothing. *)
Definition strict_equal (x y : number) : bool :=
  match x, y with
  | Finite a, Finite b => a =? b
  | PosInfinity, PosInfinity | NegInfinity, NegInfinity => true
  | _, _ => false
  end.

(** [x > y]: false when one of the two is NaN. *)
Definition gt (x y : number) : bool :=
  match x, y with
  | NaN, _ | _, NaN => false
  | Finite a, Finite b => b <? a
  | PosInfinity, PosInfinity => false
  | PosInfinity, _ => true
  | _, PosInfinity => false
  | NegInfinity, _ => false
  | Finite _, NegInfinity => true
  end.

(** [x <= y]: false when one of the two is NaN. *)
Definition le (x y : number) : bool :=
  match x, y with
  | NaN, _ | _, NaN => false
  | _, _ => negb (gt x y)
  end.

(** [lo] is an integer whose Number value is the double [z]. *)
Definition rounds_to (lo z : Z) : bool :=
  match to_double lo with
  | Finite r => r =? z
  | _ => false
  end.

(** The search for the shortest digits of the double [z >= 2^53], which has
    [nd] decimal digits: the integers with [k] significant digits next to
    [z], below and above, for [k] = 1, 2, ...; the first whose Number value is
    [z] is taken, and of two the one nearer to [z] (the even one when they
    are as near).  Seventeen digits tell every double from the others, so
    the search ends by then; with all its digits [z] writes itself. *)
Fixpoint shortest_from (fuel : nat) (k nd z : Z) : Z :=
  match fuel with
  | O => z
  | S fuel' =>
      if nd <=? k then z
      else
        let p := 10 ^ (nd - k) in
        let lo := z / p * p in
        let hi := lo + p in
        if rounds_to lo z && rounds_to hi z then
          if (z - lo <? hi - z) || ((z - lo =? hi - z) && Z.even (lo / p)) then lo else hi
        else if rounds_to lo z then lo
        else if rounds_to hi z then hi
        else shortest_from fuel' (k + 1) nd z
  end.

(** The integer that the digits printed for the double [z >= 0] write: the
    one with the fewest significant digits whose Number value is [z].  Below
    [2^53] that is [z] itself. *)
Definition shortest (z : Z) : Z :=
  if z <? 2 ^ 53 then z
  else shortest_from 17 1 (Z.of_nat (String.length (decimal z))) z.

(** [s] without the zeros at its end. *)
Fixpoint strip_zeros (s : string) : string :=
  match s with
  | EmptyString => EmptyString
  | String c r =>
      let r' := strip_zeros r in
      if (c =? "0")%char && negb (truthy r') then EmptyString else String c r'
  end.

(** The exponent form of the integer [m > 0]: its first significant digit, a
    point and the further significant digits if there are any, and [e+]
    with the number of digits after the first. *)
Definition exponent_form (m : Z) : string :=
  let ds := decimal m in
  match strip_zeros ds with
  | EmptyString => ds
  | String c rest =>
      String c (if truthy rest then String "." rest else EmptyString)
      ++ "e+" ++ decimal (Z.of_nat (String.length ds) - 1)
  end.

(** [String(z)] for a double [z >= 0]: the shortest digits, in plain decimal
    below [10^21] and in exponent form from there on. *)
Definition positive_toString (z : Z) : string :=
  if z <? 10 ^ 21 then decimal (shortest z) else exponent_form (shortest z).

(** [String(x)], as a template literal and [toString()] give it. *)
Definition number_toString (x : number) : string :=
  match x with
  | Finite z =>
      if z <? 0 then String "-" (positive_toString (- z)) else positive_toString z
  | PosInfinity => "Infinity"
  | NegInfinity => "-Infinity"
  | NaN => "NaN"
  end.

(** [s.toLowerCase()] on code units below 256: A-Z and the Latin-1 capitals
    (U+00C0..U+00DE except the multiplication sign U+00D7) move up by 32. *)
Definition lower_char (c : ascii) : ascii :=
  if in_range 65 90 c || (in_range 192 222 c && negb (code c =? 215)%N)
  then ascii_of_N (code c + 32) else c.

Fixpoint toLowerCase (s : string) : string :=
  match s with
  | EmptyString => EmptyString
  | String c s' => String (lower_char c) (toLowerCase s')
  end.

End Js.

(** ** [src/semver.ts] *)

(** [enum Impact]: its members are the numbers 0 to 3. *)
Inductive Impact : Set := NOIMPACT | PATCH | MINOR | MAJOR.

Definition Impact_value (i : Impact) : Z :=
  match i with NOIMPACT => 0 | PATCH => 1 | MINOR => 2 | MAJOR => 3 end.

(** The reverse mapping [Impact[n]] of the enum. *)
Definition Impact_name (i : Impact) : string :=
  match i with
  | NOIMPACT => "NOIMPACT" | PATCH => "PATCH" | MINOR => "MINOR" | MAJOR => "MAJOR"
  end.

(** Result of code that may throw. *)
Inductive Result (A : Type) : Type :=
  | Ok (a : A)
  | Throw (message : string).
Arguments Ok {A} a.
Arguments Throw {A} message.

Record SemanticVersion : Set := mkSemanticVersion {
  major : Js.number;
  minor : Js.number;
  patch : Js.number;
  prerelease : option string;
  buildmetadata : option string
}.

Module Semver.

Import Js.

Definition is_period (c : ascii) : bool := (c =? ".")%char.

(** One identifier of a prerelease,
    [0|[1-9]\d*|\d*[a-zA-Z-][0-9a-zA-Z-]*], matched against the whole of
    [id]. *)
Definition prerelease_identifier (id : string) : bool :=
  match id with
  | EmptyString => false
  | String c rest =>
      ((c =? "0")%char && negb (truthy rest))
      || (is_nonzero_digit c && all is_digit rest)
      || (let (_, r) := span is_digit id in
          match r with
          | String x r' => is_alpha_hyphen x && all is_alnum_hyphen r'
          | EmptyString => false
          end)
  end.

(** [prerelease_re] of the constructor: [^ID(?:\.ID)*$] where [ID] is the
    identifier pattern above.  No identifier contains a period, so the string
    matches when each of the pieces between its periods is an identifier. *)
Definition prerelease_re (s : string) : bool :=
  forallb prerelease_identifier (split is_period s).

(** One identifier of buildmetadata, [[0-9a-zA-Z-]+]. *)
Definition buildmetadata_identifier (id : string) : bool :=
  truthy id && all is_alnum_hyphen id.

(** [buildmetadata_re]: [^ID(?:\.ID)*$] where [ID] is [[0-9a-zA-Z-]+]. *)
Definition buildmetadata_re (s : string) : bool :=
  forallb buildmetadata_identifier (split is_period s).

(** [new SemanticVersion(major, minor, patch, prerelease, buildmetadata)]:
    each of the two checks is guarded by the truthiness of its argument. *)
Definition new_SemanticVersion (major minor patch : number)
    (prerelease buildmetadata : option string) : Result SemanticVersion :=
  if truthy_opt prerelease && negb (prerelease_re (narrowed prerelease))
  then Throw ("Invalid prerelease format: " ++ narrowed prerelease)
  else if truthy_opt buildmetadata && negb (buildmetadata_re (narrowed buildmetadata))
  then Throw ("Invalid build metadata format: " ++ narrowed buildmetadata)
  else Ok (mkSemanticVersion major minor patch prerelease buildmetadata).

(** [toString()]. *)
Definition toString (v : SemanticVersion) : string :=
  let s := number_toString (major v) ++ "." ++ number_toString (minor v)
           ++ "." ++ number_toString (patch v) in
  let s := if truthy_opt (prerelease v) then s ++ "-" ++ narrowed (prerelease v) else s in
  let s := if truthy_opt (buildmetadata v) then s ++ "+" ++ narrowed (buildmetadata v) else s in
  s.

(** [as_tag()]. *)
Definition as_tag (v : SemanticVersion) : string := "v" ++ toString v.

(** [bump(impact, prerelease, buildmetadata)]: a new instance, built by the
    constructor. *)
Definition bump (v : SemanticVersion) (impact : Impact)
    (prerelease buildmetadata : option string) : Result SemanticVersion :=
  match impact with
  | MAJOR => new_SemanticVersion (add (major v) 1) 0 0 prerelease buildmetadata
  | MINOR => new_SemanticVersion (major v) (add (minor v) 1) 0 prerelease buildmetadata
  | PATCH => new_SemanticVersion (major v) (minor v) (add (patch v) 1) prerelease buildmetadata
  | NOIMPACT => new_SemanticVersion (major v) (minor v) (patch v) prerelease buildmetadata
  end.

Section Ordering.

(** [String.prototype.localeCompare] belongs to the host: a negative number, zero
    or a positive number. *)
Variable localeCompare : string -> string -> Z.

(** One turn of the loop of [comparePrerelease] on the identifiers [ap] and
    [bp]: the value returned from inside the loop, or [None] when the loop goes
    on to the next pair. *)
Definition compare_identifiers (ap bp : string) : option number :=
  let isANumeric := is_numeric ap in
  let isBNumeric := is_numeric bp in
  if isANumeric && isBNumeric then
    let diff := sub (Number ap) (Number bp) in
    if negb (strict_equal diff 0) then Some (Math_sign diff) else None
  else if negb (Bool.eqb isANumeric isBNumeric) then
    Some (if isANumeric then Finite (-1) else Finite 1)
  else
    let diff := Finite (localeCompare ap bp) in
    if negb (strict_equal diff 0) then Some (Math_sign diff) else None.

(** The loop [for (i = 0; i < maxLen; i++)] over [aParts[i]] and [bParts[i]],
    on the parts from index [i] on: a list that has run out gives [undefined]
    at index [i], and both have run out when [i] reaches [maxLen]. *)
Fixpoint compare_parts (aParts bParts : list string) : number :=
  match aParts, bParts with
  | [], [] => 0
  | [], _ :: _ => -1
  | _ :: _, [] => 1
  | ap :: aParts', bp :: bParts' =>
      match compare_identifiers ap bp with
      | Some r => r
      | None => compare_parts aParts' bParts'
      end
  end.

(** [SemanticVersion.comparePrerelease(a, b)]. *)
Definition comparePrerelease (a b : option string) : number :=
  if negb (truthy_opt a) && negb (truthy_opt b) then 0
  else if negb (truthy_opt a) then 1
  else if negb (truthy_opt b) then -1
  else compare_parts (split is_period (narrowed a)) (split is_period (narrowed b)).

(** [SemanticVersion.compare(a, b)]. *)
Definition compare (a b : SemanticVersion) : number :=
  let majorDiff := sub (major a) (major b) in
  if negb (strict_equal majorDiff 0) then Math_sign majorDiff else
  let minorDiff := sub (minor a) (minor b) in
  if negb (strict_equal minorDiff 0) then Math_sign minorDiff else
  let patchDiff := sub (patch a) (patch b) in
  if negb (strict_equal patchDiff 0) then Math_sign patchDiff else
  comparePrerelease (prerelease a) (prerelease b).

End Ordering.

(** A numeric field of the version pattern, [NUM] = [0|[1-9]\d*], read at the
    start of [s]: its digits and the rest of [s].  The pattern goes on with a
    character that is no digit (or with the end of the string), so the second
    alternative takes every digit there is, and a field that starts with [0] is
    that [0] alone. *)
Definition numeric_field (s : string) : option (string * string) :=
  match s with
  | EmptyString => None
  | String c rest =>
      if (c =? "0")%char then Some (String c EmptyString, rest)
      else if is_nonzero_digit c
      then let (ds, r) := span is_digit rest in Some (String c ds, r)
      else None
  end.

(** The literal [\.] of the version pattern. *)
Definition period (s : string) : option string :=
  match s with
  | String c rest => if is_period c then Some rest else None
  | EmptyString => None
  end.

(** The characters a prerelease is made of: [[0-9a-zA-Z-]] and the period. *)
Definition is_prerelease_char (c : ascii) : bool := is_alnum_hyphen c || is_period c.

(** What follows the patch field:
    [(?:-(?<prerelease>...))?(?:\+(?<buildmetadata>...))?$].
    After a prerelease comes [+] or the end, neither of which is one of its
    characters, so the group takes the longest run of such characters and that
    run has to be a prerelease as a whole. *)
Definition suffix (s : string) : option (option string * option string) :=
  let build (r : string) :=
    match r with
    | EmptyString => Some None
    | String c b =>
        if (c =? "+")%char && buildmetadata_re b then Some (Some b) else None
    end in
  let no_prerelease :=
    match build s with
    | Some b => Some (None, b)
    | None => None
    end in
  match s with
  | String c r =>
      if (c =? "-")%char then
        let (pre, r') := span is_prerelease_char r in
        if prerelease_re pre
        then match build r' with
             | Some b => Some (Some pre, b)
             | None => None
             end
        else None
      else no_prerelease
  | EmptyString => no_prerelease
  end.

(** [match.groups] of the pattern of [parse]. *)
Record SemverGroups : Set := mkGroups {
  g_major : string;
  g_minor : string;
  g_patch : string;
  g_prerelease : option string;
  g_buildmetadata : option string
}.

(** The groups of the pattern of [parse] on [version], when it matches:
    [^v?(?<major>NUM)\.(?<minor>NUM)\.(?<patch>NUM)] and the suffix. *)
Definition semver_match (version : string) : option SemverGroups :=
  let s := match version with
           | String c rest => if (c =? "v")%char then rest else version
           | EmptyString => version
           end in
  match numeric_field s with
  | None => None
  | Some (mj, s1) =>
  match period s1 with
  | None => None
  | Some s2 =>
  match numeric_field s2 with
  | None => None
  | Some (mn, s3) =>
  match period s3 with
  | None => None
  | Some s4 =>
  match numeric_field s4 with
  | None => None
  | Some (pt, s5) =>
  match suffix s5 with
  | None => None
  | Some (pre, build) => Some (mkGroups mj mn pt pre build)
  end end end end end end.

(** [SemanticVersion.parse(version)]: the instance is built without prerelease
    and buildmetadata, which are then assigned when the groups are truthy. *)
Definition parse (version : string) : option SemanticVersion :=
  match semver_match version with
  | None => None
  | Some groups =>
      match new_SemanticVersion (parseInt (g_major groups)) (parseInt (g_minor groups))
              (parseInt (g_patch groups)) None None with
      | Throw _ => None
      | Ok v =>
          let v := if truthy_opt (g_prerelease groups)
                   then mkSemanticVersion (major v) (minor v) (patch v)
                          (g_prerelease groups) (buildmetadata v)
                   else v in
          let v := if truthy_opt (g_buildmetadata groups)
                   then mkSemanticVersion (major v) (minor v) (patch v)
                          (prerelease v) (g_buildmetadata groups)
                   else v in
          Some v
      end
  end.

(** [/[.\-_]/], the separator of [parsed.prerelease.split]. *)
Definition is_rc_separator (c : ascii) : bool :=
  (c =? ".")%char || (c =? "-")%char || (c =? "_")%char.

(** [r] and [c] under the flag [i]. *)
Definition is_r (c : ascii) : bool := (c =? "r")%char || (c =? "R")%char.
Definition is_c (c : ascii) : bool := (c =? "c")%char || (c =? "C")%char.

(** [part.match(/^rc([0-9]+)$/i)]: the digits of group 1. *)
Definition match_rc_inline (part : string) : option string :=
  match part with
  | String r (String c ds) =>
      if is_r r && is_c c && is_numeric ds then Some ds else None
  | _ => None
  end.

(** [/^rc$/i.test(part)]. *)
Definition is_bare_rc (part : string) : bool :=
  match part with
  | String r (String c EmptyString) => is_r r && is_c c
  | _ => false
  end.

(** [if (!isNaN(n) && n > maxRc) maxRc = n]. *)
Definition raise (n maxRc : number) : number :=
  if negb (isNaN n) && gt n maxRc then n else maxRc.

(** The loop over [parts]: [parts] holds [parts[i]], [parts[i + 1]], ... *)
Fixpoint scan_parts (parts : list string) (maxRc : number) : number :=
  match parts with
  | [] => maxRc
  | part :: rest =>
      match match_rc_inline part with
      | Some ds => scan_parts rest (raise (Number ds) maxRc)
      | None =>
          if is_bare_rc part then
            match rest with
            | [] => scan_parts rest (if gt 0 maxRc then 0 else maxRc)
            | next :: _ =>
                if is_numeric next
                then scan_parts rest (raise (Number next) maxRc)
                else scan_parts rest maxRc
            end
          else scan_parts rest maxRc
      end
  end.

(** The body of the loop over [tagNames]. *)
Definition scan_tag (base : SemanticVersion) (maxRc : number) (name : string) : number :=
  match parse name with
  | None => maxRc
  | Some parsed =>
      if strict_equal (major parsed) (major base)
         && strict_equal (minor parsed) (minor base)
         && strict_equal (patch parsed) (patch base) && truthy_opt (prerelease parsed)
      then scan_parts (split is_rc_separator (narrowed (prerelease parsed))) maxRc
      else maxRc
  end.

(** [SemanticVersion.nextRcIndex(base, tagNames)]. *)
Definition nextRcIndex (base : SemanticVersion) (tagNames : list string) : number :=
  add (fold_left (scan_tag base) tagNames (Finite (-1))) 1.

End Semver.

(** ** [src/conventional_commits.ts] *)

(** What [TypeToImpactMapping[key]] evaluates to when [key in TypeToImpactMapping]
    holds: the impact stored under one of the ten keys of the object literal, or
    the member of [Object.prototype] that the object inherits under that name
    (a function, or the prototype object itself for [__proto__]). *)
Inductive MappingValue : Set :=
  | ImpactValue (i : Impact)
  | Inherited (key : string).

(** [interface ParsedCommitInfo]. *)
Record ParsedCommitInfo : Set := mkParsedCommitInfo {
  type : string;
  impact : MappingValue
}.

(** The fields of a [PullRequest] or a [Commit] that classification reads. *)
Record TitleBody : Set := mkTitleBody {
  title : string;
  body : option string
}.

Module ConventionalCommits.

Import Js.

(** The own properties of the object literal [TypeToImpactMapping]. *)
Definition TypeToImpactMapping : list (string * Impact) :=
  [ ("docs", NOIMPACT); ("style", NOIMPACT); ("test", NOIMPACT);
    ("chore", NOIMPACT); ("build", NOIMPACT); ("ci", NOIMPACT);
    ("refactor", PATCH); ("fix", PATCH); ("perf", PATCH);
    ("feat", MINOR) ].

(** The properties of [Object.prototype], the prototype of an object literal. *)
Definition Object_prototype : list string :=
  [ "constructor"; "hasOwnProperty"; "isPrototypeOf"; "propertyIsEnumerable";
    "toLocaleString"; "toString"; "valueOf"; "__proto__";
    "__defineGetter__"; "__defineSetter__"; "__lookupGetter__"; "__lookupSetter__" ].

Fixpoint own_property (key : string) (o : list (string * Impact)) : option Impact :=
  match o with
  | [] => None
  | (k, v) :: o' => if (k =? key)%string then Some v else own_property key o'
  end.

(** [key in TypeToImpactMapping] and [TypeToImpactMapping[key]] in one: the
    operator [in] and the property read both follow the prototype chain. *)
Definition lookup (key : string) : option MappingValue :=
  match own_property key TypeToImpactMapping with
  | Some i => Some (ImpactValue i)
  | None =>
      if existsb (String.eqb key) Object_prototype then Some (Inherited key) else None
  end.

(** [match.groups] of the title pattern. *)
Record TitleGroups : Set := mkTitleGroups {
  g_type : string;
  g_scope : option string;
  g_breaking : option string;
  g_description : string
}.

(** [title.match(re)] for
    [^(?<type>\w+)(?:\((?<scope>[^)]+)\))?(?<breaking>!)?:\s*(?<description>D)$]
    where [D] is [.*].  Each piece is followed by a character outside its own class, so the greedy
    reading is the only one: the type is the longest run of word characters;
    an opening parenthesis has to start a scope that runs to the first closing
    one (the character on which the run of [[^)]] stops); the description is what follows the white space after the colon and
    holds no line terminator. *)
Definition title_match (title : string) : option TitleGroups :=
  let (ty, s1) := span is_word title in
  if negb (truthy ty) then None else
  let after_scope :=
    match s1 with
    | String c r =>
        if (c =? "(")%char then
          let (scope, r') := span (fun c => negb (c =? ")")%char) r in
          match r' with
          | String _ s2 => if truthy scope then Some (Some scope, s2) else None
          | EmptyString => None
          end
        else Some (None, s1)
    | EmptyString => Some (None, s1)
    end in
  match after_scope with
  | None => None
  | Some (scope, s2) =>
      let (breaking, s3) :=
        match s2 with
        | String c r => if (c =? "!")%char then (Some "!", r) else (None, s2)
        | EmptyString => (None, s2)
        end in
      match s3 with
      | String c s4 =>
          if (c =? ":")%char then
            let (_, description) := span is_space s4 in
            if all is_dot description
            then Some (mkTitleGroups ty scope breaking description)
            else None
          else None
      | EmptyString => None
      end
  end.

(** [ParseConventionalTitle(title)]. *)
Definition ParseConventionalTitle (title : string) : option ParsedCommitInfo :=
  match title_match title with
  | None => None
  | Some groups =>
      let commit_type := g_type groups in
      if negb (truthy commit_type) then None else
      match lookup commit_type with
      | None => None
      | Some mapped =>
          let impact := if truthy_opt (g_breaking groups) then ImpactValue MAJOR else mapped in
          Some (mkParsedCommitInfo commit_type impact)
      end
  end.

Definition LF : string := String (ascii_of_N 10) EmptyString.

(** The literal head and tail of the pattern of [ParseConventionalBody],
    [---\n\n### Release Notes\n\n<details>] and [<\/details>\n\n---]. *)
Definition block_open : string :=
  "---" ++ LF ++ LF ++ "### Release Notes" ++ LF ++ LF ++ "<details>".
Definition block_close : string := "</details>" ++ LF ++ LF ++ "---".

(** [(?:.|\n)*] followed by the tail of the pattern, read at the start of [s]:
    the text after the match.  The star is greedy: it first takes one more
    character and tries the rest, and only when that fails does it try the
    tail where it stands. *)
Fixpoint block_rest (s : string) : option string :=
  match s with
  | EmptyString => None
  | String c s' =>
      match (if is_dot_or_lf c then block_rest s' else None) with
      | Some post => Some post
      | None => strip_prefix block_close s
      end
  end.

(** The whole pattern read at the start of [s]. *)
Definition block_here (s : string) : option string :=
  match strip_prefix block_open s with
  | Some r => block_rest r
  | None => None
  end.

(** [body.replace(re, '')] for a pattern without the flag [g]: the first
    position from the left at which the pattern matches loses the match. *)
Fixpoint strip_release_notes (s : string) : string :=
  match block_here s with
  | Some post => post
  | None =>
      match s with
      | EmptyString => EmptyString
      | String c s' => String c (strip_release_notes s')
      end
  end.

(** [ParseConventionalBody(body)]. *)
Definition ParseConventionalBody (body : string) : option Impact :=
  let clean_body := strip_release_notes body in
  if includes "BREAKING CHANGE" clean_body then Some MAJOR else None.

(** [body_impact > impact.impact]: a member of [Object.prototype] converts to
    [NaN], and a comparison with [NaN] is false. *)
Definition gt_mapped (body_impact : Impact) (v : MappingValue) : bool :=
  match v with
  | ImpactValue i => Impact_value body_impact >? Impact_value i
  | Inherited _ => false
  end.

(** [getConventionalImpact(object)]. *)
Definition getConventionalImpact (object : TitleBody) : option ParsedCommitInfo :=
  match ParseConventionalTitle (title object) with
  | None => None
  | Some info =>
      if truthy_opt (body object) then
        match ParseConventionalBody (narrowed (body object)) with
        | Some body_impact =>
            if gt_mapped body_impact (impact info)
            then Some (mkParsedCommitInfo (type info) (ImpactValue body_impact))
            else Some info
        | None => Some info
        end
      else Some info
  end.

End ConventionalCommits.

(** ** [src/main.ts] *)

(** The value of [Math.max(...commit_impacts.map((c) => c.impact))]: a number
    of the enum, or [NaN] as soon as one argument converts to [NaN]. *)
Inductive MaxImpact : Set :=
  | MaxOf (i : Impact)
  | MaxNaN.

(** [type ImpactResult]. *)
Record ImpactResult : Set := mkImpactResult {
  prImpact : option ParsedCommitInfo;
  commitImpacts : list ParsedCommitInfo;
  maxCommitImpact : option MaxImpact;
  finalImpact : option ParsedCommitInfo;
  warning : option string
}.

(** The fields of [PullRequest] that the engine reads; a label is given by its
    name. *)
Record PullRequest : Set := mkPullRequest {
  pr_title : string;
  pr_body : string;
  labels : list string;
  merged : bool
}.

(** [type Commit]. *)
Record Commit : Set := mkCommit {
  sha : string;
  commit_title : string;
  commit_body : option string
}.

Module Main.

Import Js.
Import ConventionalCommits.

Definition of_pr (pr : PullRequest) : TitleBody :=
  mkTitleBody (pr_title pr) (Some (pr_body pr)).

Definition of_commit (c : Commit) : TitleBody :=
  mkTitleBody (commit_title c) (commit_body c).

(** The loop that pushes every defined [getConventionalImpact(commit)]. *)
Fixpoint collect (commits : list Commit) : list ParsedCommitInfo :=
  match commits with
  | [] => []
  | commit :: rest =>
      match getConventionalImpact (of_commit commit) with
      | Some commit_impact => commit_impact :: collect rest
      | None => collect rest
      end
  end.

Definition Impact_max (i j : Impact) : Impact :=
  if Impact_value i <? Impact_value j then j else i.

(** [Math.max] of the value found so far and one more argument. *)
Definition max_step (acc : MaxImpact) (v : MappingValue) : MaxImpact :=
  match acc, v with
  | MaxOf i, ImpactValue j => MaxOf (Impact_max i j)
  | _, _ => MaxNaN
  end.

(** [Math.max(...values)] for a non-empty argument list [v :: values]. *)
Definition Math_max (v : MappingValue) (values : list MappingValue) : MaxImpact :=
  fold_left max_step values
    (match v with ImpactValue i => MaxOf i | Inherited _ => MaxNaN end).

(** [pr_impact.impact != max_commit_impact]: loose inequality of two numbers,
    true whenever one side is [NaN] or converts to it. *)
Definition differs (v : MappingValue) (m : MaxImpact) : bool :=
  match v, m with
  | ImpactValue i, MaxOf j => negb (Impact_value i =? Impact_value j)
  | _, _ => true
  end.

(** [c.impact === max_commit_impact]. *)
Definition strict_equal (v : MappingValue) (m : MaxImpact) : bool :=
  match v, m with
  | ImpactValue i, MaxOf j => Impact_value i =? Impact_value j
  | _, _ => false
  end.

(** [Impact[x]] inside a template literal: the name of the member, or
    ["undefined"] when [x] is no member of the enum. *)
Definition name_of_mapped (v : MappingValue) : string :=
  match v with ImpactValue i => Impact_name i | Inherited _ => "undefined" end.

Definition name_of_max (m : MaxImpact) : string :=
  match m with MaxOf i => Impact_name i | MaxNaN => "undefined" end.

(** The value of [max_commit_impact]: [undefined] when no commit classifies. *)
Definition max_commit_impact (commit_impacts : list ParsedCommitInfo) : option MaxImpact :=
  match map impact commit_impacts with
  | [] => None
  | v :: values => Some (Math_max v values)
  end.

(** The template literal assigned to [warning]. *)
Definition override_warning (v : MappingValue) (m : MaxImpact) : string :=
  "Impact from PR title (" ++ name_of_mapped v
  ++ ") differs from maximum commit impact (" ++ name_of_max m
  ++ "). Using PR title impact (" ++ name_of_mapped v ++ ") for version bump.".

(** [getImpactFromGithub(pr, commits)]. *)
Definition getImpactFromGithub (pr : PullRequest) (commits : list Commit) : ImpactResult :=
  let pr_impact := getConventionalImpact (of_pr pr) in
  let commit_impacts := collect commits in
  let max_commit_impact := max_commit_impact commit_impacts in
  let '(final_impact, warning) :=
    match pr_impact, max_commit_impact with
    | Some p, Some m =>
        if differs (impact p) m
        then (Some p, Some (override_warning (impact p) m))
        else (Some p, None)
    | Some p, None => (Some p, None)
    | None, Some m =>
        (find (fun c => strict_equal (impact c) m) commit_impacts, None)
    | None, None => (None, None)
    end in
  mkImpactResult pr_impact commit_impacts max_commit_impact final_impact warning.

Section ReleaseCandidates.

(** The two providers of tag names, [getReleaseCandidates] of [./git.js] and of
    [./github.js]: the names of the tags they resolve to, or a rejection. *)
Variable git_getReleaseCandidates : SemanticVersion -> Result (list string).
Variable gh_getReleaseCandidates : string -> SemanticVersion -> Result (list string).

(** [.map((result) => SemanticVersion.parse(result.name)).filter(defined)]. *)
Fixpoint parse_all (names : list string) : list SemanticVersion :=
  match names with
  | [] => []
  | name :: rest =>
      match Semver.parse name with
      | Some v => v :: parse_all rest
      | None => parse_all rest
      end
  end.

(** [getReleaseCandidatesSinceLatestRelease(token, baseline)]: every rejection
    is caught and gives the empty list. *)
Definition getReleaseCandidatesSinceLatestRelease (token : string)
    (baseline : SemanticVersion) : list SemanticVersion :=
  match git_getReleaseCandidates baseline with
  | Throw _ => []
  | Ok localResults =>
      if (0 <? Z.of_nat (List.length localResults)) then parse_all localResults
      else if negb (truthy token) then []
      else match gh_getReleaseCandidates token baseline with
           | Throw _ => []
           | Ok githubResults => parse_all githubResults
           end
  end.

(** [handle_release_candidates(token, pr, impact, last_release_version)]. *)
Definition handle_release_candidates (token : string) (pr : PullRequest)
    (impact : Impact) (last_release_version : SemanticVersion)
  : Result (option string) :=
  let is_prerelease :=
    existsb (fun label => (toLowerCase label =? "release-candidate")%string) (labels pr) in
  if merged pr then Ok None
  else if is_prerelease then
    match Semver.bump last_release_version impact None None with
    | Throw e => Throw e
    | Ok bumped_base =>
        let previous_release_candidates :=
          getReleaseCandidatesSinceLatestRelease token bumped_base in
        let rcNames := map Semver.toString previous_release_candidates in
        let nextRc := Semver.nextRcIndex bumped_base rcNames in
        Ok (Some ("rc" ++ number_toString nextRc))
    end
  else Ok None.

End ReleaseCandidates.

End Main.

(** ** [src/semver.ts]: the PEP 440 form *)

Module Pep440.

Import Js.

(** [s.replace(/-/g, '.')]. *)
Fixpoint replace_hyphens (s : string) : string :=
  match s with
  | EmptyString => EmptyString
  | String c s' => String (if (c =? "-")%char then "."%char else c) (replace_hyphens s')
  end.

(** [s.replace(re, (_, p1, p2) => f(p1, p2))] for the global pattern [re] of
    one or more letters [[a-zA-Z]] in group 1 and any number of digits in
    group 2.  A match starts
    at the first letter that no earlier match has taken; group 1 is the run of
    letters from there, group 2 the run of digits after it, both as long as
    they can be since nothing follows them in the pattern.  The search goes on
    after the match.  Every turn takes at least one character, so [fuel] turns
    are enough for a string of [fuel] characters. *)
Fixpoint replace_words (fuel : nat) (f : string -> string -> string) (s : string) : string :=
  match fuel with
  | O => s
  | S fuel' =>
      match s with
      | EmptyString => EmptyString
      | String c s' =>
          if is_alpha c then
            let (p1, r) := span is_alpha s in
            let (p2, r') := span is_digit r in
            f p1 p2 ++ replace_words fuel' f r'
          else String c (replace_words fuel' f s')
      end
  end.

(** The own properties of the object literal [mapping]. *)
Definition mapping : list (string * string) :=
  [ ("alpha", "a"); ("beta", "b"); ("rc", "rc") ].

Fixpoint own_property (key : string) (o : list (string * string)) : option string :=
  match o with
  | [] => None
  | (k, v) :: o' => if (k =? key)%string then Some v else own_property key o'
  end.

Section Host.

(** The text that the host gives for [String(x)] where [x] is the member of
    [Object.prototype] of the given name: the source text of a function, for
    instance. *)
Variable inherited_text : string -> string.

(** The callback: [mapping[p1] ? mapping[p1] + p2 : p1 + p2].  The property
    read follows the prototype chain of the object literal, and what it finds
    there is an object, which is truthy. *)
Definition replacement (p1 p2 : string) : string :=
  match own_property p1 mapping with
  | Some abbreviation => abbreviation ++ p2
  | None =>
      if existsb (String.eqb p1) ConventionalCommits.Object_prototype
      then inherited_text p1 ++ p2
      else p1 ++ p2
  end.

(** [as_pep_440()]. *)
Definition as_pep_440 (v : SemanticVersion) : string :=
  let s := number_toString (major v) ++ "." ++ number_toString (minor v)
           ++ "." ++ number_toString (patch v) in
  if truthy_opt (prerelease v) then
    let dotted := replace_hyphens (narrowed (prerelease v)) in
    let pep440_prerelease := replace_words (String.length dotted) replacement dotted in
    s ++ pep440_prerelease
  else s.

End Host.

End Pep440.

(** ** [src/utils.ts] *)

Module Utils.

Import Js.

Section Filter.

Variable localeCompare : string -> string -> Z.

(** The loop of [filterRCTagsByBaseline] over the tags that are left, with
    the array [results] and the set [seen] as they stand.  A tag is given by
    its name; [results.push] appends, [seen.add] adds. *)
Fixpoint filter_loop (baseline : SemanticVersion) (tags : list string)
    (results seen : list string) : list string :=
  match tags with
  | [] => results
  | name :: rest =>
      let skip := filter_loop baseline rest results seen in
      if negb (truthy name) then skip
      else if existsb (String.eqb name) seen then skip
      else
        match Semver.parse name with
        | None => skip
        | Some parsed =>
            if negb (truthy_opt (prerelease parsed)) then skip
            else if negb (includes "rc" (toLowerCase (narrowed (prerelease parsed))))
            then skip
            else
              let cmp := Semver.compare localeCompare parsed baseline in
              if le cmp 0
                 && negb (strict_equal (major parsed) (major baseline)
                          && strict_equal (minor parsed) (minor baseline)
                          && strict_equal (patch parsed) (patch baseline))
              then skip
              else filter_loop baseline rest (results ++ [name]) (name :: seen)
        end
  end.

(** [filterRCTagsByBaseline(tags, baseline)]. *)
Definition filterRCTagsByBaseline (tags : list string) (baseline : SemanticVersion)
  : list string :=
  filter_loop baseline tags [] [].

End Filter.

Section Cache.

(** The type of the values that are stored. *)
Variable V : Type.

(** A [Map<string, V>]: its entries in the order of insertion, one for each
    key.  The value of an entry may be [undefined]. *)
Definition JsMap : Type := list (string * option V).

(** [map.has(key)]. *)
Definition Map_has (key : string) (m : JsMap) : bool :=
  existsb (fun e => (fst e =? key)%string) m.

(** [map.get(key)]: [undefined] for a key that is not there. *)
Definition Map_get (key : string) (m : JsMap) : option V :=
  match find (fun e => (fst e =? key)%string) m with
  | Some e => snd e
  | None => None
  end.

(** [map.delete(key)]. *)
Definition Map_delete (key : string) (m : JsMap) : JsMap :=
  filter (fun e => negb (fst e =? key)%string) m.

(** [map.set(key, value)]: the entry of a key that is there keeps its place,
    a new key goes to the end. *)
Definition Map_set (key : string) (value : option V) (m : JsMap) : JsMap :=
  if Map_has key m
  then map (fun e => if (fst e =? key)%string then (key, value) else e) m
  else (m ++ [(key, value)])%list.

(** [new LRUCache()]. *)
Definition LRUCache_new : JsMap := [].

(** [cache.get(key)]: the value returned and the map afterwards. *)
Definition LRUCache_get (key : string) (m : JsMap) : option V * JsMap :=
  if negb (Map_has key m) then (None, m)
  else
    match Map_get key m with
    | None => (None, m)
    | Some v => (Some v, Map_set key (Some v) (Map_delete key m))
    end.

(** [cache.set(key, value)]. *)
Definition LRUCache_set (key : string) (value : option V) (m : JsMap) : JsMap :=
  let m := if Map_has key m then Map_delete key m else m in
  Map_set key value m.

(** [cache.delete(key)]. *)
Definition LRUCache_delete (key : string) (m : JsMap) : JsMap :=
  Map_delete key m.

End Cache.

End Utils.

(** ** More of JavaScript strings *)

Module Text.

Import Js.

(** [s.trimStart()]: white space and line terminators go. *)
Fixpoint trimStart (s : string) : string :=
  match s with
  | EmptyString => EmptyString
  | String c s' => if is_space c then trimStart s' else s
  end.

(** [s.trimEnd()]. *)
Fixpoint trimEnd (s : string) : string :=
  match s with
  | EmptyString => EmptyString
  | String c s' =>
      match trimEnd s' with
      | EmptyString => if is_space c then EmptyString else String c EmptyString
      | t => String c t
      end
  end.

(** [s.trim()]. *)
Definition trim (s : string) : string := trimEnd (trimStart s).

Definition is_LF (c : ascii) : bool := (code c =? 10)%N.

(** [s.split('\n')]. *)
Definition lines (s : string) : list string := split is_LF s.

Definition is_bar (c : ascii) : bool := (c =? "|")%char.

(** [s.split('|||')]: the separator is looked for from the left, and again
    after each place where it was found. *)
Fixpoint split_bars (s : string) : list string :=
  let push (c : ascii) (parts : list string) : list string :=
    match parts with
    | [] => [String c EmptyString]
    | x :: xs => String c x :: xs
    end in
  match s with
  | EmptyString => [EmptyString]
  | String a s' =>
      match s' with
      | String b (String c r) =>
          if is_bar a && is_bar b && is_bar c
          then EmptyString :: split_bars r
          else push a (split_bars s')
      | _ => push a (split_bars s')
      end
  end.

(** [parts.join(sep)]. *)
Definition join (sep : string) (parts : list string) : string := String.concat sep parts.

(** [s.slice(0, n)]. *)
Definition slice_to (n : nat) (s : string) : string := String.substring 0 n s.

End Text.

(** ** [src/git.ts] *)

(** [type Tag], with the fields that [getTags] fills. *)
Record Tag : Set := mkTag {
  tag_name : string;
  tag_sha : string
}.

Module Git.

Import Js Text.

Section Commands.

(** [execGitCommand(args)]: the trimmed output of the command, [undefined]
    when the command fails (or in a test environment), or a rejection when
    the process cannot be started. *)
Variable execGitCommand : list string -> Result (option string).

(** The lines of an output that hold more than white space:
    [result.split('\n').filter((line) => line.trim().length > 0)]. *)
Definition filled_lines (result : string) : list string :=
  filter (fun line => (0 <? Z.of_nat (String.length (trim line)))) (lines result).

(** The body of the loop of [getCommits] on one line: the commit it pushes,
    if any. *)
Definition commit_of_line (line : string) : option Commit :=
  let parts := split_bars line in
  if (2 <=? Z.of_nat (List.length parts)) then
    let sha := trim (nth 0 parts EmptyString) in
    let title := trim (nth 1 parts EmptyString) in
    let body := if (2 <? Z.of_nat (List.length parts))
                then Some (trim (nth 2 parts EmptyString)) else None in
    Some (mkCommit sha title
            (if truthy_opt body && (0 <? Z.of_nat (String.length (narrowed body)))
             then body else None))
  else None.

(** The loop over [commitLines]. *)
Fixpoint commits_of_lines (commitLines : list string) : list Commit :=
  match commitLines with
  | [] => []
  | line :: rest =>
      match commit_of_line line with
      | Some commit => commit :: commits_of_lines rest
      | None => commits_of_lines rest
      end
  end.

(** [getCommits(baseRef, headRef)]: a rejection is caught and gives the empty
    list. *)
Definition getCommits (baseRef headRef : string) : list Commit :=
  match execGitCommand ["log"; "--pretty=format:%H|||%s|||%b"; "--no-merges";
                        baseRef ++ ".." ++ headRef] with
  | Throw _ => []
  | Ok result =>
      if negb (truthy_opt result) then []
      else commits_of_lines (filled_lines (narrowed result))
  end.

(** The body of the loop of [getTags] on one line. *)
Definition tag_of_line (line : string) : option Tag :=
  let parts := split_bars line in
  if (2 <=? Z.of_nat (List.length parts)) then
    let name := trim (nth 0 parts EmptyString) in
    let sha := trim (nth 1 parts EmptyString) in
    Some (mkTag name sha)
  else None.

Fixpoint tags_of_lines (tagLines : list string) : list Tag :=
  match tagLines with
  | [] => []
  | line :: rest =>
      match tag_of_line line with
      | Some tag => tag :: tags_of_lines rest
      | None => tags_of_lines rest
      end
  end.

(** [getTags()]. *)
Definition getTags : list Tag :=
  match execGitCommand ["for-each-ref"; "--sort=-version:refname";
                        "--format=%(refname:short)|||%(objectname)"; "refs/tags"] with
  | Throw _ => []
  | Ok result =>
      if negb (truthy_opt result) then []
      else tags_of_lines (filled_lines (narrowed result))
  end.

(** [getLatestTagLocal()]: [null] is [None]. *)
Definition getLatestTagLocal : option string :=
  match execGitCommand ["describe"; "--tags"; "--abbrev=0"] with
  | Throw _ => None
  | Ok result =>
      if truthy_opt result then Some (narrowed result)
      else
        match execGitCommand ["tag"; "-l"; "--sort=-version:refname"] with
        | Throw _ => None
        | Ok allTags =>
            if truthy_opt allTags then
              match filled_lines (narrowed allTags) with
              | first :: _ => Some first
              | [] => None
              end
            else None
        end
  end.

Section Candidates.

Variable localeCompare : string -> string -> Z.

(** [getReleaseCandidates(baseline)] of [./git.js]: the names of the tags it
    resolves to. *)
Definition getReleaseCandidates (baseline : SemanticVersion) : list string :=
  let allTags := getTags in
  let localRCs := filter (fun tag => includes "rc" (toLowerCase (tag_name tag))) allTags in
  if (Z.of_nat (List.length localRCs) =? 0) then []
  else Utils.filterRCTagsByBaseline localeCompare (map tag_name localRCs) baseline.

End Candidates.

End Commands.

End Git.

(** ** [src/github.ts] *)

Module Github.

Import Js Text.

(** [parseCommit(c)] for an entry with the given [sha] and [commit.message]. *)
Definition parseCommit (sha : string) (message : option string) : Commit :=
  let msg := match message with Some m => m | None => EmptyString end in
  let title := if truthy msg then nth 0 (lines msg) EmptyString else EmptyString in
  let body := if truthy msg then Some (trim (join ConventionalCommits.LF (tl (lines msg)))) else None in
  mkCommit sha title body.

End Github.

(** ** [src/release_notes.ts] *)

(** The four arrays that [generateReleaseNotes] fills. *)
Record Sections : Set := mkSections {
  breaking : list Commit;
  features : list Commit;
  fixes : list Commit;
  others : list Commit
}.

Module ReleaseNotes.

Import Js Text ConventionalCommits.

(** The line of a commit in a section: [- ${commit.title} (${commit.sha.slice(0, 7)})]. *)
Definition commit_line (commit : Commit) : string :=
  "- " ++ commit_title commit ++ " (" ++ slice_to 7 (sha commit) ++ ")".

(** [getReleaseNoteSection(title, commits)]: the array [lines]. *)
Definition getReleaseNoteSection (title : string) (commits : list Commit) : list string :=
  let heading : string := "## " ++ title ++ " " ++ LF in
  (heading :: map commit_line commits ++ [EmptyString])%list.

(** The body of the loop of [generateReleaseNotes]: the two [switch]
    statements, on the impact and, for PATCH, on the type; [push] appends. *)
Definition file_commit (s : Sections) (commit : Commit) : Sections :=
  let to_breaking := mkSections (breaking s ++ [commit]) (features s) (fixes s) (others s) in
  let to_features := mkSections (breaking s) (features s ++ [commit]) (fixes s) (others s) in
  let to_fixes := mkSections (breaking s) (features s) (fixes s ++ [commit]) (others s) in
  let to_others := mkSections (breaking s) (features s) (fixes s) (others s ++ [commit]) in
  match getConventionalImpact (Main.of_commit commit) with
  | Some commit_impact =>
      match impact commit_impact with
      | ImpactValue MAJOR => to_breaking
      | ImpactValue MINOR => to_features
      | ImpactValue PATCH =>
          if (type commit_impact =? "fix")%string then to_fixes
          else if (type commit_impact =? "perf")%string then to_others
          else if (type commit_impact =? "refactor")%string then to_others
          else to_others
      | _ => to_others
      end
  | None => to_others
  end.

(** The four arrays after the loop over [commits]. *)
Definition file_commits (commits : list Commit) : Sections :=
  fold_left file_commit commits (mkSections [] [] [] []).

Section Headings.

(** The titles of the four sections.  Each starts with a character outside
    the code units of the model (U+1F6A8, U+1F9EA, U+1F41E, U+2795) before
    [ Breaking Changes], [ New Features], [ Bug Fixes] and [ Other Changes];
    the code does no more than concatenate them. *)
Variables Breaking_Changes New_Features Bug_Fixes Other_Changes : string.

(** [generateReleaseNotes(commits)]. *)
Definition generateReleaseNotes (commits : list Commit) : string :=
  let s := file_commits commits in
  let section (title : string) (l : list Commit) : list string :=
    if (0 <? Z.of_nat (List.length l)) then getReleaseNoteSection title l else [] in
  let heading : string := "# Release Notes" ++ LF in
  let lines : list string :=
    (heading
     :: section Breaking_Changes (breaking s)
     ++ section New_Features (features s)
     ++ section Bug_Fixes (fixes s)
     ++ section Other_Changes (others s)
     ++ [EmptyString])%list in
  join LF lines.

End Headings.

End ReleaseNotes.

(** ** [src/main.ts]: the action *)

(** The fields of a [Release] that [run] reads; [null] and [undefined] are
    [None]. *)
Record Release : Set := mkRelease {
  release_name : option string;
  release_tag_name : option string
}.

(** What [core.setFailed] is called with: one of the three messages of [run],
    or [String(err)] for an error that [run] catches. *)
Inductive Failure : Set :=
  | NoToken
  | UnparsedRelease
  | NoPullRequest
  | Caught (text : string).

(** The outputs that [run] sets.  [release-notes] is not set when the notes
    have 10000 characters or more. *)
Record Outputs : Set := mkOutputs {
  out_release : bool;
  out_release_notes : option string;
  out_release_notes_file : string;
  out_prerelease : bool;
  out_tag : string;
  out_version : string;
  out_version_pep_440 : string
}.

(** How [run] ends: failed, returned without a version because no impact was
    determined, or done, with the text written to the notes file and the
    outputs. *)
Inductive Outcome : Set :=
  | Failed (reason : Failure)
  | Skipped
  | Done (written : string) (outputs : Outputs).

(** What [run] finds around it: the environment and the inputs of the action,
    the answers of [github.ts] and of the tag providers, the file system, and
    the host.  [getFileContent], [getLatestRelease] and [getPrCommits] catch
    their errors and so always resolve.  A rejection of [writeFile] carries
    [String(err)]. *)
Record World : Type := mkWorld {
  env_GITHUB_TOKEN : option string;
  env_INPUT_GITHUB_TOKEN : option string;
  input_release_notes_format : string;
  input_build_metadata : string;
  gh_getFileContent : string -> string -> option string;
  gh_getLatestRelease : string -> option Release;
  gh_getPrFromContext : option PullRequest;
  gh_getPrCommits : string -> list Commit;
  git_getReleaseCandidates : SemanticVersion -> Result (list string);
  gh_getReleaseCandidates : string -> SemanticVersion -> Result (list string);
  fs_writeFile : string -> string -> Result unit;
  host_inherited_text : string -> string;
  heading_Breaking_Changes : string;
  heading_New_Features : string;
  heading_Bug_Fixes : string;
  heading_Other_Changes : string
}.

Module Run.

Import Js Text.

(** The first place where [pattern] occurs in [s]: the text before it and the
    text after it. *)
Fixpoint search (pattern s : string) : option (string * string) :=
  match strip_prefix pattern s with
  | Some after => Some (EmptyString, after)
  | None =>
      match s with
      | EmptyString => None
      | String c s' =>
          match search pattern s' with
          | Some (before, after) => Some (String c before, after)
          | None => None
          end
      end
  end.

(** The replacement text of [String.prototype.replace] for a pattern that is a
    string: [$$] is a dollar sign, [$&] the match, [$`] the text before the
    match and [$'] the text after it; there are no groups, so any other use of
    the dollar sign stands for itself. *)
Fixpoint substitution (replacement matched before after : string) : string :=
  match replacement with
  | EmptyString => EmptyString
  | String c r =>
      if (c =? "$")%char then
        match r with
        | String d r' =>
            if (d =? "$")%char then String "$" (substitution r' matched before after)
            else if (d =? "&")%char then matched ++ substitution r' matched before after
            else if (d =? "`")%char then before ++ substitution r' matched before after
            else if (d =? "'")%char then after ++ substitution r' matched before after
            else String c (substitution r matched before after)
        | EmptyString => String c EmptyString
        end
      else String c (substitution r matched before after)
  end.

(** [s.replace(pattern, replacement)] for two strings: the first occurrence
    is replaced. *)
Definition replace (s pattern replacement : string) : string :=
  match search pattern s with
  | Some (before, after) =>
      before ++ substitution replacement pattern before after ++ after
  | None => s
  end.

(** The branch that the [switch] of [bump] takes for a value that may be no
    member of the enum: such a value falls to [default], which shares its
    statements with [case Impact.NOIMPACT]. *)
Definition bump_case (impact : MappingValue) : Impact :=
  match impact with
  | ImpactValue i => i
  | Inherited _ => NOIMPACT
  end.

(** [impact !== Impact.NOIMPACT]. *)
Definition is_not_NOIMPACT (impact : MappingValue) : bool :=
  match impact with
  | ImpactValue i => negb (Impact_value i =? Impact_value NOIMPACT)
  | Inherited _ => true
  end.

(** [String(err)] for an [Error] with the given message. *)
Definition String_of_Error (message : string) : string := "Error: " ++ message.

(** [run()].  Logging is left out, and so is [write_job_summary], which is
    called last, catches its own errors and sets no output. *)
Definition run (w : World) : Outcome :=
  let token := if truthy_opt (env_GITHUB_TOKEN w)
               then env_GITHUB_TOKEN w else env_INPUT_GITHUB_TOKEN w in
  if negb (truthy_opt token) then Failed NoToken else
  let token := narrowed token in
  let release_notes_format_input := input_release_notes_format w in
  let release_notes_format :=
    if truthy release_notes_format_input
       && negb (trim release_notes_format_input =? EmptyString)%string
    then match gh_getFileContent w token release_notes_format_input with
         | Some formatContent => formatContent
         | None => "%S"
         end
    else "%S" in
  let last_release_version : Result (option SemanticVersion) :=
    match gh_getLatestRelease w token with
    | Some release =>
        let releaseName :=
          match release_name release with
          | Some name => name
          | None => match release_tag_name release with
                    | Some tag_name => tag_name
                    | None => EmptyString
                    end
          end in
        Ok (Semver.parse releaseName)
    | None =>
        match Semver.new_SemanticVersion 0 0 0 None None with
        | Ok v => Ok (Some v)
        | Throw message => Throw message
        end
    end in
  match last_release_version with
  | Throw message => Failed (Caught (String_of_Error message))
  | Ok None => Failed UnparsedRelease
  | Ok (Some last_release_version) =>
  match gh_getPrFromContext w with
  | None => Failed NoPullRequest
  | Some pr =>
  let commits := gh_getPrCommits w token in
  let impactRes := Main.getImpactFromGithub pr commits in
  match finalImpact impactRes with
  | None => Skipped
  | Some finalImpact =>
  let impact := impact finalImpact in
  match Semver.bump last_release_version (bump_case impact) None None with
  | Throw message => Failed (Caught (String_of_Error message))
  | Ok bumped_base_version =>
  match Main.handle_release_candidates (git_getReleaseCandidates w)
          (gh_getReleaseCandidates w) token pr (bump_case impact) last_release_version with
  | Throw message => Failed (Caught (String_of_Error message))
  | Ok prerelease =>
  let build_metadata := input_build_metadata w in
  match Semver.new_SemanticVersion (major bumped_base_version) (minor bumped_base_version)
          (patch bumped_base_version) prerelease (Some build_metadata) with
  | Throw message => Failed (Caught (String_of_Error message))
  | Ok new_version =>
  let generated_release_notes :=
    ReleaseNotes.generateReleaseNotes (heading_Breaking_Changes w) (heading_New_Features w)
      (heading_Bug_Fixes w) (heading_Other_Changes w) commits in
  let release_notes :=
    replace release_notes_format "<INSERT_RELEASE_NOTES_HERE>" generated_release_notes in
  let filePath := "./release-notes.md" in
  match fs_writeFile w filePath release_notes with
  | Throw text => Failed (Caught text)
  | Ok _ =>
      Done release_notes
        (mkOutputs
           ((merged pr && is_not_NOIMPACT impact)
            || match prerelease with Some _ => true | None => false end)
           (if (Z.of_nat (String.length release_notes) <? 10000)
            then Some release_notes else None)
           filePath
           match prerelease with Some _ => true | None => false end
           (Semver.as_tag new_version)
           (Semver.toString new_version)
           (Pep440.as_pep_440 (host_inherited_text w) new_version))
  end end end end end end end.

End Run.

(** ** Definitions used to state the properties *)

Module Props.

Import Js.

(** *** Strings *)

(** [s] is empty or starts with a character outside the class [p]. *)
Definition stops (p : ascii -> bool) (s : string) : bool :=
  match s with
  | EmptyString => true
  | String c _ => negb (p c)
  end.

(** [s] starts with [p]. *)
Definition starts_with (p s : string) : Prop := exists r, s = p ++ r.

(** *** Numbers *)

(** The integer that a finite number holds. *)
Definition value (x : number) : Z :=
  match x with Finite z => z | _ => 0 end.

Definition is_finite (x : number) : bool :=
  match x with Finite _ => true | _ => false end.

(** The Number value of an integer that is not negative: what [parseInt] and
    [Number] give for a string of digits. *)
Definition counted (x : number) : Prop := exists n, 0 <= n /\ x = to_double n.

(** A double that is an integer below [10^21] and not negative: the numbers
    that print in plain decimal. *)
Definition is_plain (x : number) : bool :=
  match x with
  | Finite z => (0 <=? z) && (z <? 10 ^ 21) && rounds_to z z
  | _ => false
  end.

(** An integer below [2^53] that is not negative: the safe integers, among
    which the arithmetic of doubles is exact. *)
Definition is_safe (x : number) : bool :=
  match x with
  | Finite z => (0 <=? z) && (z <? 2 ^ 53)
  | _ => false
  end.

(** The greater of two numbers, as [if (y > x) x = y] leaves it in [x]. *)
Definition number_max (x y : number) : number := if gt y x then y else x.

(** *** Versions *)

(** An optional string argument that is absent or matches its grammar. *)
Definition absent_or (re : string -> bool) (o : option string) : Prop :=
  match o with
  | None => True
  | Some s => re s = true
  end.

(** An optional string argument that the constructor rejects: present, not
    empty, and outside its grammar. *)
Definition rejected (re : string -> bool) (o : option string) : Prop :=
  exists s, o = Some s /\ s <> EmptyString /\ re s = false.

(** A version as [parse] gives it: numbers read from digits, prerelease and
    buildmetadata absent or of their grammar. *)
Definition well_formed (v : SemanticVersion) : Prop :=
  counted (major v) /\ counted (minor v) /\ counted (patch v)
  /\ absent_or Semver.prerelease_re (prerelease v)
  /\ absent_or Semver.buildmetadata_re (buildmetadata v).

(** A version whose three numbers print in plain decimal. *)
Definition plain_version (v : SemanticVersion) : bool :=
  is_plain (major v) && is_plain (minor v) && is_plain (patch v).

(** A version whose three numbers are safe integers. *)
Definition safe_version (v : SemanticVersion) : bool :=
  is_safe (major v) && is_safe (minor v) && is_safe (patch v).

(** Two versions with the same three numbers, under [===]. *)
Definition same_numbers (v w : SemanticVersion) : bool :=
  strict_equal (major v) (major w) && strict_equal (minor v) (minor w)
  && strict_equal (patch v) (patch w).

(** A version with the same fields and another prerelease. *)
Definition with_prerelease (v : SemanticVersion) (p : option string) : SemanticVersion :=
  mkSemanticVersion (major v) (minor v) (patch v) p (buildmetadata v).




(** A string of [n] zeros. *)
Fixpoint zeros (n : nat) : string :=
  match n with
  | O => EmptyString
  | S n' => String "0" (zeros n')
  end.

(** The digits of [10^309], an integer above every double. *)
Definition huge_digits : string := String "1" (zeros 309).

(** The version that [parse] reads from [huge_digits ++ ".0.0"]. *)
Definition huge_version : SemanticVersion := mkSemanticVersion PosInfinity 0 0 None None.

(** What [toString] appends after the three numbers. *)
Definition toString_suffix (pre build : option string) : string :=
  match pre with Some p => "-" ++ p | None => EmptyString end
  ++ match build with Some b => "+" ++ b | None => EmptyString end.

(** *** The order of identifiers *)

(** An identifier that is not numeric, or whose number is finite. *)
Definition finite_identifier (id : string) : bool :=
  negb (is_numeric id) || is_finite (Number id).


(** A prerelease whose numeric identifiers have finite numbers; an absent or
    empty prerelease is one. *)
Definition finite_prerelease (p : option string) : bool :=
  negb (truthy_opt p) || forallb finite_identifier (split Semver.is_period (narrowed p)).


(** A version whose numbers are finite, in its three fields and in the
    numeric identifiers of its prerelease. *)
Definition comparable (v : SemanticVersion) : bool :=
  is_finite (major v) && is_finite (minor v) && is_finite (patch v)
  && finite_prerelease (prerelease v).

(** The order of two identifiers: by their numbers when both are numeric, a
    numeric one before any other, else as the collation has it. *)
Definition identifier_order (lc : string -> string -> Z) (a b : string) : Z :=
  match is_numeric a, is_numeric b with
  | true, true => Z.sgn (value (Number a) - value (Number b))
  | true, false => -1
  | false, true => 1
  | false, false => Z.sgn (lc a b)
  end.

(** The order of two lists of identifiers: that of the first pair that does
    not tie, and the shorter list first when one runs out. *)
Fixpoint parts_order (lc : string -> string -> Z) (la lb : list string) : Z :=
  match la, lb with
  | [], [] => 0
  | [], _ :: _ => -1
  | _ :: _, [] => 1
  | a :: la', b :: lb' =>
      if identifier_order lc a b =? 0 then parts_order lc la' lb'
      else identifier_order lc a b
  end.

(** The order of two prereleases: a version without prerelease comes after
    one with a prerelease. *)
Definition prerelease_order (lc : string -> string -> Z) (a b : option string) : Z :=
  match truthy_opt a, truthy_opt b with
  | false, false => 0
  | false, true => 1
  | true, false => -1
  | true, true =>
      parts_order lc (split Semver.is_period (narrowed a)) (split Semver.is_period (narrowed b))
  end.

(** The order of two versions with finite numbers: by major, then minor, then
    patch, then by prerelease. *)
Definition version_order (lc : string -> string -> Z) (a b : SemanticVersion) : Z :=
  if negb (value (major a) =? value (major b))
  then Z.sgn (value (major a) - value (major b))
  else if negb (value (minor a) =? value (minor b))
  then Z.sgn (value (minor a) - value (minor b))
  else if negb (value (patch a) =? value (patch b))
  then Z.sgn (value (patch a) - value (patch b))
  else prerelease_order lc (prerelease a) (prerelease b).

(** A collation to instantiate [localeCompare] with: the order of code units,
    as a host whose collation is the binary one would give it. *)
Fixpoint ordinalCompare (a b : string) : Z :=
  match a, b with
  | EmptyString, EmptyString => 0
  | EmptyString, String _ _ => -1
  | String _ _, EmptyString => 1
  | String x a', String y b' =>
      if (code x <? code y)%N then -1
      else if (code y <? code x)%N then 1
      else ordinalCompare a' b'
  end.

(** *** The next rc index, as the specification words it *)

(** The characters that part the tokens of a prerelease: the period, the
    hyphen and the underscore. *)
Definition is_token_separator (c : ascii) : bool :=
  (c =? ".")%char || (c =? "-")%char || (c =? "_")%char.

(** The tokens of a prerelease. *)
Definition tokens (p : string) : list string := split is_token_separator p.

(** A token that reads [rc<digits>], in any case, has the number of its digits
    as value. *)
Definition rc_number (token : string) : option number :=
  match strip_prefix "rc" (toLowerCase token) with
  | Some digits => if is_numeric digits then Some (Number digits) else None
  | None => None
  end.

(** The value a token contributes, given the token after it, if any: its rc
    number; for a bare [rc], [0] when it is the last token and the value of the
    next token when that one is purely numeric; nothing otherwise. *)
Definition token_value (token : string) (next : option string) : option number :=
  match rc_number token with
  | Some n => Some n
  | None =>
      if (toLowerCase token =? "rc")%string then
        match next with
        | None => Some (Finite 0)
        | Some n => if is_numeric n then Some (Number n) else None
        end
      else None
  end.

(** The values the tokens of one prerelease contribute, in order. *)
Fixpoint token_values (tokens : list string) : list number :=
  match tokens with
  | [] => []
  | token :: rest =>
      match token_value token (hd_error rest) with
      | Some n => n :: token_values rest
      | None => token_values rest
      end
  end.

(** The prerelease of a tag name that is considered for [base]: the name
    parses, has a prerelease, and agrees with [base] on major, minor and
    patch. *)
Definition considered (base : SemanticVersion) (name : string) : option string :=
  match Semver.parse name with
  | Some v =>
      match prerelease v with
      | Some p =>
          if truthy p && same_numbers v base then Some p else None
      | None => None
      end
  | None => None
  end.

(** All accepted rc values of a list of tag names. *)
Definition accepted_values (base : SemanticVersion) (tagNames : list string)
  : list number :=
  flat_map (fun name =>
              match considered base name with
              | Some p => token_values (tokens p)
              | None => []
              end) tagNames.



(** A value that the search for the greatest rc number can hold: [-1], an
    integer that is not negative, or the infinity. *)
Definition rc_value (x : number) : Prop :=
  match x with
  | Finite z => -1 <= z
  | PosInfinity => True
  | _ => False
  end.

(** [x <= y] among such values. *)
Definition at_most (x y : number) : Prop := gt x y = false.

(** *** Release notes in a body *)

(** The head of the block pattern occurs nowhere in [pre ++ rest] at a position
    inside [pre]. *)
Definition no_block_inside (pre rest : string) : Prop :=
  forall p1 p2, pre = p1 ++ p2 -> p2 <> EmptyString ->
                ~ starts_with ConventionalCommits.block_open (p2 ++ rest).

(** A check of [no_block_inside] by evaluation. *)
Fixpoint no_block_inside_b (pre rest : string) : bool :=
  match pre with
  | EmptyString => true
  | String c pre' =>
      match strip_prefix ConventionalCommits.block_open (pre ++ rest) with
      | Some _ => false
      | None => no_block_inside_b pre' rest
      end
  end.

(** [s] is [inner], the tail of the block pattern, and [post], where [inner] is
    text that [(?:.|\n)*] can cross: it holds no carriage return. *)
Definition closes (s inner post : string) : Prop :=
  s = inner ++ ConventionalCommits.block_close ++ post
  /\ all is_dot_or_lf inner = true.

(** No tail of the block pattern further to the right can be reached. *)
Definition last_close (s inner : string) : Prop :=
  forall inner' post', closes s inner' post' ->
                       (String.length inner' <= String.length inner)%nat.

(** The reading of the specification, a block that ends at the next tail of
    the pattern: the text after the first occurrence of [needle] in [s]. *)
Fixpoint after_first (needle s : string) : option string :=
  match strip_prefix needle s with
  | Some r => Some r
  | None =>
      match s with
      | EmptyString => None
      | String _ s' => after_first needle s'
      end
  end.

(** Stripping as the specification words it: the block starts at the head of
    the pattern and ends at the next tail. *)
Fixpoint strip_to_next_close (s : string) : string :=
  match match strip_prefix ConventionalCommits.block_open s with
        | Some r => after_first ConventionalCommits.block_close r
        | None => None
        end with
  | Some post => post
  | None =>
      match s with
      | EmptyString => EmptyString
      | String c s' => String c (strip_to_next_close s')
      end
  end.

(** A block of quoted release notes with a heading that mentions breaking
    changes of the dependency. *)
Definition renovate_block : string :=
  ConventionalCommits.block_open ++ ConventionalCommits.LF
  ++ "<summary>eslint/rewrite (@eslint/compat)</summary>"
  ++ ConventionalCommits.LF ++ ConventionalCommits.LF
  ++ "##### BREAKING CHANGES" ++ ConventionalCommits.LF ++ ConventionalCommits.LF
  ++ "- Require Node.js ^20.19.0 || ^22.13.0 || >=24"
  ++ ConventionalCommits.LF ++ ConventionalCommits.LF ++ ConventionalCommits.LF
  ++ ConventionalCommits.block_close.

(** The bodies of the two tests of the repository on release notes, in the
    characters of the model. *)
Definition body_with_release_notes : string :=
  "This PR updates a dependency." ++ ConventionalCommits.LF ++ ConventionalCommits.LF
  ++ renovate_block.

Definition body_with_real_major : string :=
  "This PR updates a dependency." ++ ConventionalCommits.LF
  ++ "BREAKING CHANGE: changed API behavior." ++ ConventionalCommits.LF
  ++ renovate_block.

(** A body with a breaking-change line after a first block and a second tail
    of the pattern further down. *)
Definition body_with_two_closes : string :=
  ConventionalCommits.block_open ++ "x" ++ ConventionalCommits.block_close
  ++ ConventionalCommits.LF ++ "BREAKING CHANGE: real" ++ ConventionalCommits.LF
  ++ "<details>y" ++ ConventionalCommits.block_close.

(** *** Aggregation *)


(** The commits [docs: x] and [fix: y], without bodies. *)
Definition docs_and_fix : list Commit :=
  [mkCommit "a" "docs: x" None; mkCommit "b" "fix: y" None].

(** Pull requests that carry nothing but a title. *)
Definition titled (t : string) : PullRequest := mkPullRequest t "" [] false.

(** *** Release candidates *)

(** The tag names the two providers give for [baseline], before they are
    parsed: those of the local repository when there are any, else those of the
    host when there is a token; none after a rejection. *)
Definition release_candidate_names
    (git_getReleaseCandidates : SemanticVersion -> Result (list string))
    (gh_getReleaseCandidates : string -> SemanticVersion -> Result (list string))
    (token : string) (baseline : SemanticVersion) : list string :=
  match git_getReleaseCandidates baseline with
  | Throw _ => []
  | Ok localResults =>
      match localResults with
      | _ :: _ => localResults
      | [] =>
          if truthy token then
            match gh_getReleaseCandidates token baseline with
            | Throw _ => []
            | Ok githubResults => githubResults
            end
          else []
      end
  end.

(** A pull request with the given labels and merge state. *)
Definition labelled (names : list string) (is_merged : bool) : PullRequest :=
  mkPullRequest "feat: new" "" names is_merged.

(** *** Printed versions *)

(** Digits without a leading zero: [0] alone, or a digit from 1 to 9 followed by
    any digits. *)
Definition canonical (ds : string) : bool :=
  match ds with
  | EmptyString => false
  | String c r => ((c =? "0")%char && negb (truthy r)) || (is_nonzero_digit c && all is_digit r)
  end.

(** An optional field as [toString] and [parse] see it: a falsy value, the
    empty string, counts as absent. *)
Definition present (o : option string) : option string :=
  if truthy_opt o then o else None.

(** *** Release-candidate tags *)

(** A tag name that [filterRCTagsByBaseline] lets through: it parses, its
    prerelease mentions [rc] in some case, and its version does not compare
    as [<= 0] to the baseline or has the numbers of the baseline. *)
Definition rc_candidate (lc : string -> string -> Z) (baseline : SemanticVersion)
    (name : string) : bool :=
  match Semver.parse name with
  | Some v =>
      truthy_opt (prerelease v)
      && includes "rc" (toLowerCase (narrowed (prerelease v)))
      && (negb (le (Semver.compare lc v baseline) 0) || same_numbers v baseline)
  | None => false
  end.

(** The first occurrence of each name, in the order of the list. *)
Fixpoint first_occurrences (l : list string) : list string :=
  match l with
  | [] => []
  | x :: l' => x :: filter (fun y => negb (y =? x)%string) (first_occurrences l')
  end.

(** *** Caches *)

(** The keys of a map, in the order of its entries. *)
Definition keys {V : Type} (m : Utils.JsMap V) : list string := map fst m.

(** A list of keys without [key]. *)
Definition without (key : string) (l : list string) : list string :=
  filter (fun k => negb (k =? key)%string) l.

(** *** The PEP 440 form *)

(** The replacement of the labels in a string, with as many turns as the
    string has characters. *)
Definition replaced (f : string -> string -> string) (s : string) : string :=
  Pep440.replace_words (String.length s) f s.

(** *** The output of git *)

(** The separator that the formats of [src/git.ts] put between two fields. *)
Definition bars : string := "|||".

(** A field that comes back from a line as it is: it holds no bar and no line
    feed, and [trim] leaves it as it is. *)
Definition clean (s : string) : bool :=
  all (fun c => negb (Text.is_bar c || Text.is_LF c)) s && (Text.trim s =? s)%string.

(** The line that [git for-each-ref] prints for a tag under the format
    [%(refname:short)|||%(objectname)]. *)
Definition tag_line (t : Tag) : string := tag_name t ++ bars ++ tag_sha t.

(** A tag with clean fields. *)
Definition clean_tag (t : Tag) : bool := clean (tag_name t) && clean (tag_sha t).

(** What [git log] prints for a commit under the format [%H|||%s|||%b]: the
    hash, the subject and the first line of the body, then the further lines of
    the body, if any. *)
Definition log_entry (e : Commit * option string) : string :=
  sha (fst e) ++ bars ++ commit_title (fst e) ++ bars
  ++ match commit_body (fst e) with Some b => b | None => EmptyString end
  ++ match snd e with Some more => ConventionalCommits.LF ++ more | None => EmptyString end.

(** A commit with clean fields, a body that is not empty when there is one,
    and further lines that hold no separator. *)
Definition clean_entry (e : Commit * option string) : bool :=
  clean (sha (fst e)) && clean (commit_title (fst e))
  && match commit_body (fst e) with Some b => clean b && truthy b | None => true end
  && match snd e with Some more => negb (includes bars more) | None => true end.

(** *** Release notes *)

(** A commit that classifies with the impact [i]. *)
Definition classified_as (i : Impact) (commit : Commit) : bool :=
  match ConventionalCommits.getConventionalImpact (Main.of_commit commit) with
  | Some info =>
      match impact info with
      | ImpactValue j => Impact_value j =? Impact_value i
      | Inherited _ => false
      end
  | None => false
  end.

(** A commit that classifies with the type [fix]. *)
Definition is_fix (commit : Commit) : bool :=
  match ConventionalCommits.getConventionalImpact (Main.of_commit commit) with
  | Some info => (type info =? "fix")%string
  | None => false
  end.

(** A commit that goes to none of the first three sections. *)
Definition is_other (commit : Commit) : bool :=
  negb (classified_as MAJOR commit || classified_as MINOR commit
        || (classified_as PATCH commit && is_fix commit)).

(** *** The action *)

(** The token that [run] works with. *)
Definition run_token (w : World) : string :=
  narrowed (if truthy_opt (env_GITHUB_TOKEN w)
            then env_GITHUB_TOKEN w else env_INPUT_GITHUB_TOKEN w).

(** The string that [run] parses as the version of a release: its name, or
    its tag name when it has no name. *)
Definition release_version_name (r : Release) : string :=
  match release_name r with
  | Some name => name
  | None => match release_tag_name r with Some t => t | None => EmptyString end
  end.

(** The version of the latest release: 0.0.0 when there is no release. *)
Definition last_release (w : World) : option SemanticVersion :=
  match gh_getLatestRelease w (run_token w) with
  | Some r => Semver.parse (release_version_name r)
  | None => Some (mkSemanticVersion 0 0 0 None None)
  end.

(** A pull request that carries the label of release candidates, in any
    case. *)
Definition has_rc_label (pr : PullRequest) : bool :=
  existsb (fun label => (toLowerCase label =? "release-candidate")%string) (labels pr).

(** The result of [getImpactFromGithub] in a run. *)
Definition run_impacts (w : World) (pr : PullRequest) : ImpactResult :=
  Main.getImpactFromGithub pr (gh_getPrCommits w (run_token w)).

(** A world to run the action in: a token, no format file, the latest release
    [v1.2.0], a pull request with the given title, labels and merge state and
    the one commit [fix: a], the local tags [v1.2.1-rc.0] and [v1.2.1-rc.1],
    and a file system that takes the notes. *)
Definition sample_world (title : string) (names : list string) (is_merged : bool) : World :=
  mkWorld (Some "token") None EmptyString EmptyString
    (fun _ _ => None)
    (fun _ => Some (mkRelease (Some "v1.2.0") (Some "v1.2.0")))
    (Some (mkPullRequest title EmptyString names is_merged))
    (fun _ => [mkCommit "1f3a9bc" "fix: a" None])
    (fun _ => Ok ["v1.2.1-rc.0"; "v1.2.1-rc.1"])
    (fun _ _ => Ok [])
    (fun _ _ => Ok tt)
    (fun _ => EmptyString)
    "Breaking Changes" "New Features" "Bug Fixes" "Other Changes".

(** The names that [handle_release_candidates] computes the next rc index
    over: the versions parsed from the names of the providers, printed
    again. *)
Definition reprinted (names : list string) : list string :=
  map Semver.toString (Main.parse_all names).

(** The numbers of the latest release are safe integers. *)
Definition safe_release (w : World) : bool :=
  match last_release w with
  | Some last => safe_version last
  | None => false
  end.

(** A world without a release, with an open pull request [fix: a] labelled
    as a release candidate, where the providers give a tag of 0.0.1 whose rc
    number is [10^21]. *)
Definition large_index_world : World :=
  mkWorld (Some "token") None EmptyString EmptyString
    (fun _ _ => None)
    (fun _ => None)
    (Some (mkPullRequest "fix: a" EmptyString ["release-candidate"] false))
    (fun _ => [])
    (fun _ => Ok ["v0.0.1-rc1000000000000000000000"])
    (fun _ _ => Ok [])
    (fun _ _ => Ok tt)
    (fun _ => EmptyString)
    "Breaking Changes" "New Features" "Bug Fixes" "Other Changes".

(** The place of the notes in a format. *)
Definition placeholder : string := "<INSERT_RELEASE_NOTES_HERE>".

(** The format of the notes in a run: the content of the file that the input
    [release-notes-format] names, when that input is not blank and the file
    can be read. *)
Definition notes_format (w : World) : string :=
  if truthy (input_release_notes_format w)
     && negb (Text.trim (input_release_notes_format w) =? EmptyString)%string
  then match gh_getFileContent w (run_token w) (input_release_notes_format w) with
       | Some content => content
       | None => "%S"
       end
  else "%S".

(** The notes that a run generates from the commits of the pull request. *)
Definition generated_notes (w : World) : string :=
  ReleaseNotes.generateReleaseNotes (heading_Breaking_Changes w) (heading_New_Features w)
    (heading_Bug_Fixes w) (heading_Other_Changes w) (gh_getPrCommits w (run_token w)).

(** A world with a format file, no release yet, and a merged pull request
    [fix: a] without commits. *)
Definition format_world : World :=
  mkWorld (Some "token") None "notes.md" EmptyString
    (fun _ _ => Some ("Changes:" ++ ConventionalCommits.LF ++ placeholder ++ "Thanks."))
    (fun _ => None)
    (Some (mkPullRequest "fix: a" EmptyString [] true))
    (fun _ => [])
    (fun _ => Ok []) (fun _ _ => Ok []) (fun _ _ => Ok tt) (fun _ => EmptyString)
    "Breaking Changes" "New Features" "Bug Fixes" "Other Changes".

(** A repository where [git describe] finds nothing and every other command
    prints [output]. *)
Definition tags_only (output : string) (args : list string) : Result (option string) :=
  if (nth 0 args EmptyString =? "describe")%string then Ok None else Ok (Some output).

(** A repository where [git describe] prints [tag] and every other command
    prints [output]. *)
Definition described (tag output : string) (args : list string) : Result (option string) :=
  if (nth 0 args EmptyString =? "describe")%string then Ok (Some tag) else Ok (Some output).

(** *** Numbers that parse does not read back *)

(** A string that [parse] cannot go on from after a numeric field: it starts
    with a character that is no period, hyphen or plus sign. *)
Definition stuck (r : string) : Prop :=
  Semver.period r = None /\ Semver.suffix r = None.

(** The exponent form and [Infinity], as [parse] meets them: a first
    character, and a rest that starts with [e], or with a point, digits and
    [e]. *)
Definition unreadable (s : string) : Prop :=
  s = "Infinity"
  \/ exists c t,
       s = String c t /\ is_nonzero_digit c = true
       /\ ((exists u, t = String "e" u)
           \/ exists ds u, t = String "." (ds ++ String "e" u) /\ all is_digit ds = true).

End Props.

(** ** Properties *)

Import Js Props.

(** *** Strings *)

(** Case analysis on the eight bits of a character, for facts about character
    classes. *)
Ltac by_char c :=
  destruct c as [[] [] [] [] [] [] [] []]; try reflexivity; try discriminate.

Lemma truthy_nonempty (s : string) : s <> EmptyString -> truthy s = true.
Proof. destruct s; [congruence | reflexivity]. Qed.

Lemma append_assoc (a b c : string) : (a ++ b) ++ c = a ++ (b ++ c).
Proof. induction a as [|x a IH]; simpl; [reflexivity | now rewrite IH]. Qed.

Lemma append_empty_r (a : string) : a ++ EmptyString = a.
Proof. induction a as [|x a IH]; simpl; [reflexivity | now rewrite IH]. Qed.

Lemma append_length (a b : string) :
  String.length (a ++ b) = (String.length a + String.length b)%nat.
Proof. induction a as [|c a IH]; cbn; [reflexivity | now rewrite IH]. Qed.

Lemma append_same_length (a a' b b' : string) :
  a ++ b = a' ++ b' -> String.length a = String.length a' -> a = a' /\ b = b'.
Proof.
  revert a'. induction a as [|c a IH]; intros [|c' a'] H Hlen; cbn in *;
    try discriminate; [now split|].
  injection H as <- H. injection Hlen as Hlen.
  destruct (IH a' H Hlen) as [-> ->]. now split.
Qed.

Lemma all_app (p : ascii -> bool) (a b : string) :
  all p (a ++ b) = all p a && all p b.
Proof. induction a as [|x a IH]; simpl; [reflexivity | now rewrite IH, andb_assoc]. Qed.

Lemma all_impl (p q : ascii -> bool) (s : string) :
  (forall c, p c = true -> q c = true) -> all p s = true -> all q s = true.
Proof.
  intros Hpq. induction s as [|c s IH]; simpl; [reflexivity|].
  intros H. apply andb_true_iff in H as [Hc Hs]. now rewrite (Hpq c Hc), IH.
Qed.

Lemma forallb_impl {A : Type} (p q : A -> bool) (l : list A) :
  (forall x, p x = true -> q x = true) -> forallb p l = true -> forallb q l = true.
Proof.
  intros Hpq. induction l as [|x l IH]; simpl; [reflexivity|].
  intros H. apply andb_true_iff in H as [Hx Hl]. now rewrite (Hpq x Hx), IH.
Qed.

Lemma span_app (p : ascii -> bool) (a rest : string) :
  all p a = true -> stops p rest = true -> span p (a ++ rest) = (a, rest).
Proof.
  intros Ha Hrest. induction a as [|c a IH]; simpl in *.
  - destruct rest as [|c rest]; simpl in *; [reflexivity|].
    apply negb_true_iff in Hrest. now rewrite Hrest.
  - apply andb_true_iff in Ha as [Hc Ha]. now rewrite Hc, (IH Ha).
Qed.

Lemma span_spec (p : ascii -> bool) (s : string) :
  forall a b, span p s = (a, b) -> s = a ++ b /\ all p a = true /\ stops p b = true.
Proof.
  induction s as [|c s IH]; simpl; intros a b H.
  - injection H as <- <-. repeat split.
  - destruct (p c) eqn:Hc.
    + destruct (span p s) as [a' b']. injection H as <- <-.
      destruct (IH a' b' eq_refl) as (-> & Ha & Hb). simpl. rewrite Hc. repeat split; auto.
    + injection H as <- <-. simpl. rewrite Hc. repeat split.
Qed.

Lemma split_all (q sep : ascii -> bool) (s : string) :
  forallb (all q) (split sep s) = true -> all (fun c => q c || sep c) s = true.
Proof.
  induction s as [|c s IH]; [reflexivity|].
  cbn [split all]. destruct (sep c) eqn:Hc.
  - cbn [forallb all andb]. intros H. rewrite orb_true_r. exact (IH H).
  - destruct (split sep s) as [|x xs]; cbn [forallb all] in *.
    + rewrite andb_true_r. intros H. apply andb_true_iff in H as [H _].
      rewrite H. now rewrite IH.
    + intros H. apply andb_true_iff in H as [H Hxs].
      apply andb_true_iff in H as [Hq Hx]. rewrite Hq. cbn [orb andb].
      apply IH. now rewrite Hx, Hxs.
Qed.

Lemma strip_prefix_spec (p : string) :
  forall s r, strip_prefix p s = Some r <-> s = p ++ r.
Proof.
  induction p as [|a p IH]; intros s r; cbn [strip_prefix append].
  - split; [intros H; now injection H | intros ->; reflexivity].
  - destruct s as [|b s]; [split; discriminate|].
    destruct (Ascii.eqb_spec a b) as [-> | Hne].
    + rewrite IH. split; [intros ->; reflexivity | intros H; now injection H].
    + split; [discriminate | intros H; injection H as H _; congruence].
Qed.

Lemma strip_prefix_none (p s : string) :
  strip_prefix p s = None <-> ~ starts_with p s.
Proof.
  unfold starts_with. split.
  - intros H [r Hr]. apply strip_prefix_spec in Hr. congruence.
  - intros H. destruct (strip_prefix p s) as [r|] eqn:E; [|reflexivity].
    exfalso. apply H. exists r. now apply strip_prefix_spec.
Qed.

Lemma strip_prefix_app (p a r b : string) :
  strip_prefix p a = Some r -> strip_prefix p (a ++ b) = Some (r ++ b).
Proof.
  intros H. apply strip_prefix_spec in H. subst a.
  apply strip_prefix_spec. apply append_assoc.
Qed.

Lemma includes_unfold (needle s : string) :
  includes needle s
  = match strip_prefix needle s with
    | Some _ => true
    | None => match s with
              | EmptyString => false
              | String _ s' => includes needle s'
              end
    end.
Proof. destruct s; reflexivity. Qed.

Lemma includes_app_l (needle a b : string) :
  includes needle a = true -> includes needle (a ++ b) = true.
Proof.
  induction a as [|c a IH]; rewrite (includes_unfold needle (_ ++ b)), includes_unfold.
  - destruct (strip_prefix needle EmptyString) as [r|] eqn:E; [|discriminate].
    intros _. now rewrite (strip_prefix_app needle EmptyString r b E).
  - destruct (strip_prefix needle (String c a)) as [r|] eqn:E.
    + intros _. now rewrite (strip_prefix_app needle _ r b E).
    + intros H. cbn [append].
      destruct (strip_prefix needle (String c (a ++ b))); [reflexivity | auto].
Qed.

Lemma includes_app_r (needle a b : string) :
  includes needle b = true -> includes needle (a ++ b) = true.
Proof.
  intros H. induction a as [|c a IH]; [exact H|].
  cbn [append includes]. destruct (strip_prefix needle (String c (a ++ b))); auto.
Qed.

(** *** Digits and numbers *)

Lemma digit_alnum (c : ascii) : is_digit c = true -> is_alnum_hyphen c = true.
Proof. unfold is_alnum_hyphen. now intros ->. Qed.

Lemma nonzero_digit_digit (c : ascii) : is_nonzero_digit c = true -> is_digit c = true.
Proof.
  unfold is_nonzero_digit, is_digit, in_range. intros H.
  apply andb_true_iff in H as [H1 H2]. apply N.leb_le in H1. rewrite H2, andb_true_r.
  apply N.leb_le. lia.
Qed.

Lemma digit_not_v (c : ascii) : is_digit c = true -> (c =? "v")%char = false.
Proof. by_char c. Qed.

Lemma nonzero_digit_not_zero (c : ascii) :
  is_nonzero_digit c = true -> (c =? "0")%char = false.
Proof. by_char c. Qed.

Lemma digits_value_app (a b : string) (acc : Z) :
  digits_value acc (a ++ b) = digits_value (digits_value acc a) b.
Proof. revert acc. induction a as [|c a IH]; intros acc; simpl; [reflexivity | apply IH]. Qed.

Lemma digits_value_nonneg (s : string) :
  forall acc, 0 <= acc -> all is_digit s = true -> 0 <= digits_value acc s.
Proof.
  induction s as [|c s IH]; intros acc Hacc H; cbn [digits_value all] in *; [exact Hacc|].
  apply andb_true_iff in H as [Hc Hs]. apply IH; [|exact Hs].
  unfold is_digit, in_range in Hc. apply andb_true_iff in Hc as [H1 H2].
  apply N.leb_le in H1. unfold digit_value. lia.
Qed.

Lemma digits_nonneg (s : string) : is_numeric s = true -> 0 <= digits_value 0 s.
Proof.
  unfold is_numeric. intros H. apply andb_true_iff in H as [_ H].
  now apply digits_value_nonneg.
Qed.

Lemma Number_counted (s : string) : is_numeric s = true -> counted (Number s).
Proof. intros H. exists (digits_value 0 s). split; [now apply digits_nonneg | reflexivity]. Qed.

Lemma digit_char_spec (d : Z) :
  0 <= d <= 9 ->
  is_digit (digit_char d) = true
  /\ digit_value (digit_char d) = d
  /\ (d = 0 -> digit_char d = "0"%char)
  /\ (0 < d -> is_nonzero_digit (digit_char d) = true).
Proof.
  intros H.
  assert (E : d = 0 \/ d = 1 \/ d = 2 \/ d = 3 \/ d = 4 \/ d = 5 \/ d = 6 \/ d = 7
              \/ d = 8 \/ d = 9) by lia.
  repeat (destruct E as [-> | E]); try subst d;
    (split; [reflexivity|]; split; [reflexivity|]; split;
     [intros; (reflexivity || lia) | intros; (reflexivity || lia)]).
Qed.

Lemma digits_of_S (fuel : nat) (n : Z) (acc : string) :
  digits_of (S fuel) n acc
  = if n <? 10 then String (digit_char (n mod 10)) acc
    else digits_of fuel (n / 10) (String (digit_char (n mod 10)) acc).
Proof. reflexivity. Qed.

(** The digits produced for [0 <= n < 10 ^ (fuel + 1)]: a first digit [c] and
    further digits [r] that read back as [n], without a leading zero. *)
Lemma digits_of_spec (fuel : nat) :
  forall (n : Z) (acc : string),
    0 <= n < 10 ^ Z.of_nat (S fuel) ->
    exists c r,
      digits_of (S fuel) n acc = String c (r ++ acc)
      /\ all is_digit (String c r) = true
      /\ digits_value 0 (String c r) = n
      /\ (n = 0 -> c = "0"%char /\ r = EmptyString)
      /\ (0 < n -> is_nonzero_digit c = true).
Proof.
  induction fuel as [|fuel IH]; intros n acc Hn.
  - change (10 ^ Z.of_nat 1) with 10 in Hn.
    rewrite digits_of_S. destruct (Z.ltb_spec n 10) as [_|]; [|lia].
    rewrite Z.mod_small by lia.
    destruct (digit_char_spec n ltac:(lia)) as (Hd & Hv & H0 & Hnz).
    exists (digit_char n), EmptyString. cbn [append all digits_value].
    rewrite Hd, Hv. repeat split; auto; lia.
  - rewrite digits_of_S. destruct (Z.ltb_spec n 10) as [Hlt|Hge].
    + rewrite Z.mod_small by lia.
      destruct (digit_char_spec n ltac:(lia)) as (Hd & Hv & H0 & Hnz).
      exists (digit_char n), EmptyString. cbn [append all digits_value].
      rewrite Hd, Hv. repeat split; auto; lia.
    + assert (Hq : 0 <= n / 10 < 10 ^ Z.of_nat (S fuel)).
      { split; [apply Z.div_pos; lia|].
        apply Z.div_lt_upper_bound; [lia|].
        replace (Z.of_nat (S (S fuel))) with (Z.succ (Z.of_nat (S fuel))) in Hn by lia.
        rewrite Z.pow_succ_r in Hn by lia. lia. }
      destruct (IH (n / 10) (String (digit_char (n mod 10)) acc) Hq)
        as (c & r & E & Hall & Hval & _ & Hnz).
      assert (Hm : 0 <= n mod 10 <= 9) by (pose proof (Z.mod_pos_bound n 10); lia).
      destruct (digit_char_spec (n mod 10) Hm) as (Hd & Hv & _ & _).
      exists c, (r ++ String (digit_char (n mod 10)) EmptyString).
      rewrite E. split; [now rewrite append_assoc|].
      split.
      { change (String c (r ++ String (digit_char (n mod 10)) EmptyString))
          with (String c r ++ String (digit_char (n mod 10)) EmptyString).
        rewrite all_app, Hall. cbn [all]. now rewrite Hd. }
      split.
      { change (String c (r ++ String (digit_char (n mod 10)) EmptyString))
          with (String c r ++ String (digit_char (n mod 10)) EmptyString).
        rewrite digits_value_app, Hval. cbn [digits_value].
        rewrite Hv. pose proof (Z.div_mod n 10). lia. }
      split; [lia|].
      intros _. apply Hnz.
      assert (1 <= n / 10) by (apply Z.div_le_lower_bound; lia). lia.
Qed.

Lemma log2_fuel (n : Z) : 0 <= n -> n < 10 ^ Z.of_nat (S (Z.to_nat (Z.log2 n))).
Proof.
  intros Hn. destruct (Z.eq_dec n 0) as [-> | Hne]; [reflexivity|].
  pose proof (Z.log2_nonneg n) as Hl.
  replace (Z.of_nat (S (Z.to_nat (Z.log2 n)))) with (Z.succ (Z.log2 n)) by lia.
  pose proof (Z.log2_spec n ltac:(lia)) as [_ Hup].
  eapply Z.lt_le_trans; [exact Hup|].
  apply Z.pow_le_mono_l. lia.
Qed.

(** The decimal digits of [n >= 0]: digits without a leading zero that
    write [n]. *)
Lemma decimal_spec (n : Z) :
  0 <= n ->
  exists c r,
    decimal n = String c r
    /\ all is_digit (String c r) = true
    /\ digits_value 0 (String c r) = n
    /\ (n = 0 -> c = "0"%char /\ r = EmptyString)
    /\ (0 < n -> is_nonzero_digit c = true).
Proof.
  intros Hn. unfold decimal.
  destruct (digits_of_spec (Z.to_nat (Z.log2 n)) n EmptyString
              (conj Hn (log2_fuel n Hn))) as (c & r & E & H).
  exists c, r. now rewrite E, append_empty_r.
Qed.

Lemma lower_char_digit (c : ascii) :
  is_digit (lower_char c) = is_digit c /\ (is_digit c = true -> lower_char c = c).
Proof. split; by_char c. Qed.

Lemma lower_char_r (c : ascii) : (lower_char c =? "r")%char = Semver.is_r c.
Proof. by_char c. Qed.

Lemma lower_char_c (c : ascii) : (lower_char c =? "c")%char = Semver.is_c c.
Proof. by_char c. Qed.

Lemma toLowerCase_truthy (s : string) : truthy (toLowerCase s) = truthy s.
Proof. destruct s; reflexivity. Qed.

Lemma toLowerCase_digits (s : string) :
  all is_digit (toLowerCase s) = all is_digit s
  /\ (all is_digit s = true -> toLowerCase s = s).
Proof.
  induction s as [|c s [IH1 IH2]]; simpl; [split; reflexivity|].
  destruct (lower_char_digit c) as [E1 E2]. rewrite E1, IH1. split; [reflexivity|].
  intros H. apply andb_true_iff in H as [Hc Hs]. now rewrite E2, IH2.
Qed.

Lemma toLowerCase_numeric (s : string) :
  is_numeric (toLowerCase s) = is_numeric s
  /\ (is_numeric s = true -> toLowerCase s = s).
Proof.
  unfold is_numeric. rewrite toLowerCase_truthy.
  destruct (toLowerCase_digits s) as [E1 E2]. rewrite E1. split; [reflexivity|].
  intros H. apply andb_true_iff in H as [_ H]. auto.
Qed.

Lemma digit_value_range (c : ascii) : is_digit c = true -> 0 <= digit_value c <= 9.
Proof.
  unfold is_digit, in_range, digit_value. intros H.
  apply andb_true_iff in H as [H1 H2]. apply N.leb_le in H1, H2. lia.
Qed.

Lemma digit_value_inj (c d : ascii) :
  is_digit c = true -> is_digit d = true -> digit_value c = digit_value d -> c = d.
Proof.
  unfold digit_value. intros _ _ H.
  assert (E : code c = code d) by lia.
  unfold code in E. rewrite <- (ascii_N_embedding c), <- (ascii_N_embedding d).
  now rewrite E.
Qed.

(** The value of a string of digits read on top of [acc]: [acc] moves up by
    one decimal place per digit. *)
Lemma digits_value_shift (s : string) :
  forall acc,
    all is_digit s = true ->
    digits_value acc s = acc * 10 ^ Z.of_nat (String.length s) + digits_value 0 s
    /\ 0 <= digits_value 0 s < 10 ^ Z.of_nat (String.length s).
Proof.
  induction s as [|c s IH]; intros acc H.
  - cbn. lia.
  - cbn [all] in H. apply andb_true_iff in H as [Hc Hs].
    pose proof (digit_value_range c Hc) as Hr.
    cbn [digits_value String.length].
    destruct (IH (10 * acc + digit_value c) Hs) as [E1 _].
    destruct (IH (10 * 0 + digit_value c) Hs) as [E2 B].
    rewrite E1, E2.
    replace (Z.of_nat (S (String.length s))) with (Z.succ (Z.of_nat (String.length s))) by lia.
    rewrite Z.pow_succ_r by lia.
    set (P := 10 ^ Z.of_nat (String.length s)) in *.
    split; [ring|]. nia.
Qed.

Lemma digits_value_inj (s : string) :
  forall t acc,
    all is_digit s = true -> all is_digit t = true ->
    String.length s = String.length t ->
    digits_value acc s = digits_value acc t -> s = t.
Proof.
  induction s as [|c s IH]; intros [|d t] acc Hs Ht Hlen E; try discriminate; [reflexivity|].
  cbn [all] in Hs, Ht. apply andb_true_iff in Hs as [Hc Hs], Ht as [Hd Ht].
  injection Hlen as Hlen. cbn [digits_value] in E.
  destruct (digits_value_shift s (10 * acc + digit_value c) Hs) as [E1 B1].
  destruct (digits_value_shift t (10 * acc + digit_value d) Ht) as [E2 B2].
  rewrite E1, E2, <- Hlen in E. rewrite <- Hlen in B2.
  pose proof (digit_value_range c Hc). pose proof (digit_value_range d Hd).
  set (P := 10 ^ Z.of_nat (String.length s)) in *.
  assert (Hcd : digit_value c = digit_value d) by nia.
  rewrite (digit_value_inj c d Hc Hd Hcd) in *.
  f_equal. apply (IH t (10 * acc + digit_value d)); try assumption.
  rewrite E1, E2, <- Hlen. fold P. lia.
Qed.

(** A string of digits that does not start with [0] has a value of as many
    decimal places as it has digits. *)
Lemma canonical_bounds (c : ascii) (r : string) :
  is_nonzero_digit c = true -> all is_digit r = true ->
  10 ^ Z.of_nat (String.length r) <= digits_value 0 (String c r)
  < 10 ^ Z.of_nat (S (String.length r)).
Proof.
  intros Hc Hr. cbn [digits_value].
  destruct (digits_value_shift r (10 * 0 + digit_value c) Hr) as [E B]. rewrite E.
  pose proof (digit_value_range c (nonzero_digit_digit c Hc)) as Hd.
  assert (1 <= digit_value c).
  { unfold is_nonzero_digit, in_range in Hc. apply andb_true_iff in Hc as [H1 _].
    apply N.leb_le in H1. unfold digit_value. lia. }
  replace (Z.of_nat (S (String.length r))) with (Z.succ (Z.of_nat (String.length r))) by lia.
  rewrite Z.pow_succ_r by lia. nia.
Qed.

(** Digits without a leading zero are the decimal digits of the integer they
    write. *)
Lemma decimal_digits (ds : string) :
  canonical ds = true -> decimal (digits_value 0 ds) = ds.
Proof.
  destruct ds as [|c r]; [discriminate|]. cbn [canonical]. intros H.
  apply orb_true_iff in H as [H | H]; apply andb_true_iff in H as [Hc Hr].
  - apply Ascii.eqb_eq in Hc. subst c. destruct r; [reflexivity | discriminate].
  - pose proof (canonical_bounds c r Hc Hr) as [Hlo Hhi].
    assert (Hpos : 0 < digits_value 0 (String c r)).
    { eapply Z.lt_le_trans; [|exact Hlo]. apply Z.pow_pos_nonneg; lia. }
    destruct (decimal_spec (digits_value 0 (String c r)) ltac:(lia))
      as (c' & r' & E & Hall & Hval & _ & Hnz).
    rewrite E. specialize (Hnz Hpos).
    cbn [all] in Hall. apply andb_true_iff in Hall as [Hc' Hr'].
    pose proof (canonical_bounds c' r' Hnz Hr') as [Hlo' Hhi']. rewrite Hval in Hlo', Hhi'.
    assert (Hlen : String.length r' = String.length r).
    { destruct (Nat.lt_trichotomy (String.length r') (String.length r)) as [Hl | [Hl | Hl]];
        [exfalso | exact Hl | exfalso].
      - assert (10 ^ Z.of_nat (S (String.length r')) <= 10 ^ Z.of_nat (String.length r))
          by (apply Z.pow_le_mono_r; lia). lia.
      - assert (10 ^ Z.of_nat (S (String.length r)) <= 10 ^ Z.of_nat (String.length r'))
          by (apply Z.pow_le_mono_r; lia). lia. }
    apply (digits_value_inj (String c' r') (String c r) 0).
    + cbn [all]. now rewrite Hc', Hr'.
    + cbn [all]. now rewrite (nonzero_digit_digit c Hc), Hr.
    + cbn [String.length]. now rewrite Hlen.
    + exact Hval.
Qed.


(** *** Doubles *)

Lemma round_even_small (a : Z) : a < 2 ^ 53 -> round_even a = a.
Proof. unfold round_even. destruct (Z.ltb_spec a (2 ^ 53)); [reflexivity | lia]. Qed.

(** The parts of a number of [2^53] or more: 53 significant bits [q] over
    the power of two [p], and a rest [r] that decides the rounding. *)
Lemma round_even_large (a : Z) :
  2 ^ 53 <= a ->
  exists p q r,
    p = 2 ^ (Z.log2 a - 52) /\ 2 <= p /\ a = q * p + r /\ 0 <= r < p
    /\ 2 ^ 52 <= q < 2 ^ 53
    /\ 2 ^ 52 * p = 2 ^ Z.log2 a
    /\ round_even a = (if (p <? 2 * r) || ((2 * r =? p) && Z.odd q) then q + 1 else q) * p.
Proof.
  intros Ha.
  assert (HL : 53 <= Z.log2 a).
  { rewrite <- (Z.log2_pow2 53) by lia. apply Z.log2_le_mono. exact Ha. }
  destruct (Z.log2_spec a ltac:(lia)) as [Hlo Hhi].
  set (L := Z.log2 a) in *. set (e := L - 52).
  assert (Hp : 2 ^ L = 2 ^ 52 * 2 ^ e).
  { rewrite <- Z.pow_add_r by lia. f_equal. lia. }
  assert (Hp2 : 2 <= 2 ^ e).
  { change 2 with (2 ^ 1) at 1. apply Z.pow_le_mono_r; lia. }
  replace (Z.succ L) with (53 + e) in Hhi by lia.
  rewrite Z.pow_add_r in Hhi by lia.
  exists (2 ^ e), (a / 2 ^ e), (a mod 2 ^ e).
  split; [reflexivity|]. split; [exact Hp2|].
  split; [rewrite Z.mul_comm; apply Z.div_mod; lia|].
  split; [apply Z.mod_pos_bound; lia|].
  split.
  { split.
    - apply Z.div_le_lower_bound; lia.
    - apply Z.div_lt_upper_bound; lia. }
  split; [symmetry; exact Hp|].
  unfold round_even. destruct (Z.ltb_spec a (2 ^ 53)); [lia | reflexivity].
Qed.

Lemma round_even_bounds (a : Z) :
  0 <= a -> (a = 0 -> round_even a = 0) /\ (0 < a -> 0 < round_even a)
            /\ (2 ^ 53 <= a -> 2 ^ 53 <= round_even a).
Proof.
  intros Ha. destruct (Z.lt_ge_cases a (2 ^ 53)) as [Hs | Hl].
  - rewrite (round_even_small a Hs). repeat split; intros; lia.
  - destruct (round_even_large a Hl) as (p & q & r & _ & Hp & _ & _ & Hq & _ & E).
    rewrite E. split; [lia|].
    assert (2 ^ 53 <= (if (p <? 2 * r) || (2 * r =? p) && Z.odd q then q + 1 else q) * p).
    { destruct ((p <? 2 * r) || (2 * r =? p) && Z.odd q); nia. }
    split; intros; lia.
Qed.

(** Rounding keeps the order. *)
Lemma round_even_mono (a b : Z) : 0 <= a <= b -> round_even a <= round_even b.
Proof.
  intros [Ha Hab].
  destruct (Z.lt_ge_cases b (2 ^ 53)) as [Hb | Hb].
  { rewrite !round_even_small by lia. exact Hab. }
  destruct (Z.lt_ge_cases a (2 ^ 53)) as [Hs | Hl].
  { rewrite (round_even_small a Hs).
    pose proof (proj2 (proj2 (round_even_bounds b ltac:(lia))) Hb). lia. }
  destruct (round_even_large a Hl) as (p & q & r & Ep & Hp & Ea & Hr & Hq & Hpa & E).
  destruct (round_even_large b Hb) as (p' & q' & r' & Ep' & Hp' & Eb & Hr' & Hq' & Hpb & E').
  rewrite E, E'.
  assert (HL : Z.log2 a <= Z.log2 b) by (apply Z.log2_le_mono; exact Hab).
  destruct (Z.eq_dec (Z.log2 a) (Z.log2 b)) as [EL | NL].
  - assert (Epp : p' = p) by (subst p p'; now rewrite EL). clear Ep Ep'. subst p'.
    assert (Hqq : q <= q').
    { destruct (Z.le_gt_cases q q') as [Hle | Hgt]; [exact Hle | exfalso].
      assert ((q' + 1) * p <= q * p) by (apply Z.mul_le_mono_nonneg_r; lia). lia. }
    destruct (Z.eq_dec q q') as [<- | Hne].
    + assert (r <= r') by lia.
      destruct (Z.ltb_spec p (2 * r)), (Z.ltb_spec p (2 * r')),
               (Z.eqb_spec (2 * r) p), (Z.eqb_spec (2 * r') p), (Z.odd q);
        cbn [orb andb]; try (exfalso; lia);
        apply Z.mul_le_mono_nonneg_r; lia.
    + destruct ((p <? 2 * r) || (2 * r =? p) && Z.odd q),
               ((p <? 2 * r') || (2 * r' =? p) && Z.odd q');
        apply Z.mul_le_mono_nonneg_r; lia.
  - assert (HLa : 53 <= Z.log2 a).
    { rewrite <- (Z.log2_pow2 53) by lia. apply Z.log2_le_mono. exact Hl. }
    assert (Hpp : 2 * p <= p').
    { rewrite Ep, Ep'.
      replace (Z.log2 b - 52) with ((Z.log2 a - 52) + 1 + (Z.log2 b - Z.log2 a - 1)) by lia.
      rewrite !Z.pow_add_r by lia. change (2 ^ 1) with 2.
      pose proof (Z.pow_pos_nonneg 2 (Z.log2 b - Z.log2 a - 1) ltac:(lia) ltac:(lia)).
      pose proof (Z.pow_pos_nonneg 2 (Z.log2 a - 52) ltac:(lia) ltac:(lia)). nia. }
    clear Ep Ep'.
    assert (Hup : (q + 1) * p <= q' * p') by nia.
    destruct ((p <? 2 * r) || (2 * r =? p) && Z.odd q),
             ((p' <? 2 * r') || (2 * r' =? p') && Z.odd q'); nia.
Qed.

(** A rounded number is a double: rounding leaves it as it is. *)
Lemma round_even_idem (a : Z) : 0 <= a -> round_even (round_even a) = round_even a.
Proof.
  intros Ha. destruct (Z.lt_ge_cases a (2 ^ 53)) as [Hs | Hl].
  { now rewrite !(round_even_small a Hs). }
  destruct (round_even_large a Hl) as (p & q & r & Ep & Hp & _ & _ & Hq & _ & E).
  assert (HL : 53 <= Z.log2 a).
  { rewrite <- (Z.log2_pow2 53) by lia. apply Z.log2_le_mono. exact Hl. }
  set (e := Z.log2 a - 52) in *.
  set (Q := if (p <? 2 * r) || (2 * r =? p) && Z.odd q then q + 1 else q) in *.
  assert (HQ : 2 ^ 52 <= Q <= 2 ^ 53) by (subst Q; destruct (_ || _); lia).
  rewrite E. clear E. subst p.
  assert (Hpos : 0 < 2 ^ e) by (apply Z.pow_pos_nonneg; lia).
  assert (Hlog : Z.log2 (Q * 2 ^ e) = e + Z.log2 Q) by (apply Z.log2_mul_pow2; lia).
  assert (Hbig : ~ Q * 2 ^ e < 2 ^ 53) by nia.
  unfold round_even at 1. destruct (Z.ltb_spec (Q * 2 ^ e) (2 ^ 53)) as [|_]; [contradiction|].
  rewrite Hlog.
  destruct (Z.eq_dec Q (2 ^ 53)) as [EQ | NQ].
  - assert (E53 : Z.log2 Q = 53) by (rewrite EQ; now apply Z.log2_pow2).
    rewrite E53. replace (e + 53 - 52) with (1 + e) by lia.
    rewrite Z.pow_add_r by lia. change (2 ^ 1) with 2.
    replace (Q * 2 ^ e) with (2 ^ 52 * (2 * 2 ^ e)) by (rewrite EQ; change (2 ^ 53) with (2 ^ 52 * 2); ring).
    rewrite Z.div_mul, Z.mod_mul by lia.
    destruct (Z.ltb_spec (2 * 2 ^ e) (2 * 0)) as [|_]; [lia|].
    destruct (Z.eqb_spec (2 * 0) (2 * 2 ^ e)) as [|_]; [lia|]. reflexivity.
  - assert (E52 : Z.log2 Q = 52) by (apply Z.log2_unique; [lia|]; change (2 ^ Z.succ 52) with (2 ^ 53); lia).
    rewrite E52. replace (e + 52 - 52) with e by lia.
    rewrite Z.div_mul, Z.mod_mul by lia.
    destruct (Z.ltb_spec (2 ^ e) (2 * 0)) as [|_]; [lia|].
    destruct (Z.eqb_spec (2 * 0) (2 ^ e)) as [|_]; [lia|]. reflexivity.
Qed.

(** The Number value of an integer that is not negative. *)
Lemma to_double_nonneg (n : Z) :
  0 <= n ->
  to_double n = if 2 ^ 1024 <=? round_even n then PosInfinity else Finite (round_even n).
Proof.
  intros Hn. unfold to_double. rewrite Z.abs_eq by exact Hn.
  destruct (2 ^ 1024 <=? round_even n).
  - destruct (Z.ltb_spec n 0); [lia | reflexivity].
  - destruct (Z.eq_dec n 0) as [-> | Hne]; [reflexivity|].
    rewrite Z.sgn_pos by lia. f_equal. lia.
Qed.

Lemma to_double_small (z : Z) : Z.abs z < 2 ^ 53 -> to_double z = Finite z.
Proof.
  intros Hz. unfold to_double. rewrite (round_even_small _ Hz).
  destruct (Z.leb_spec (2 ^ 1024) (Z.abs z)) as [Hbig|_].
  - exfalso. assert (2 ^ 53 <= 2 ^ 1024) by (apply Z.pow_le_mono_r; lia). lia.
  - f_equal. rewrite Z.mul_comm. apply Z.abs_sgn.
Qed.

(** What [Number] gives is a double that is not negative, or the infinity. *)
Lemma counted_cases (x : number) :
  counted x ->
  x = PosInfinity \/ exists z, x = Finite z /\ 0 <= z /\ to_double z = Finite z.
Proof.
  intros (n & Hn & ->). rewrite (to_double_nonneg n Hn).
  destruct (Z.leb_spec (2 ^ 1024) (round_even n)) as [|Hlt]; [now left | right].
  exists (round_even n). split; [reflexivity|].
  pose proof (round_even_bounds n Hn) as (H0 & Hpos & _).
  assert (Hr : 0 <= round_even n).
  { destruct (Z.eq_dec n 0) as [-> | Hne]; [now rewrite H0 | specialize (Hpos ltac:(lia)); lia]. }
  split; [exact Hr|].
  rewrite (to_double_nonneg _ Hr), (round_even_idem n Hn).
  destruct (Z.leb_spec (2 ^ 1024) (round_even n)); [lia | reflexivity].
Qed.

(** A Number value below [2^53] is the integer itself. *)
Lemma to_double_exact (n z : Z) :
  0 <= n -> to_double n = Finite z -> z < 2 ^ 53 -> n = z.
Proof.
  intros Hn E Hz. rewrite (to_double_nonneg n Hn) in E.
  destruct (2 ^ 1024 <=? round_even n); [discriminate|]. injection E as <-.
  destruct (Z.lt_ge_cases n (2 ^ 53)) as [Hs | Hl].
  - now rewrite (round_even_small n Hs).
  - pose proof (proj2 (proj2 (round_even_bounds n Hn)) Hl). lia.
Qed.

(** The sign of a difference of finite numbers is that of the difference of
    their integers: rounding keeps the sign. *)
Lemma to_double_sign (d : Z) :
  Math_sign (to_double d) = Finite (Z.sgn d)
  /\ strict_equal (to_double d) 0 = (d =? 0).
Proof.
  unfold to_double.
  pose proof (round_even_bounds (Z.abs d) (Z.abs_nonneg d)) as (H0 & Hpos & _).
  destruct (Z.leb_spec (2 ^ 1024) (round_even (Z.abs d))) as [Hbig | Hlt].
  - assert (d <> 0).
    { intros ->. cbn [Z.abs] in *. rewrite (H0 eq_refl) in Hbig.
      pose proof (Z.pow_pos_nonneg 2 1024). lia. }
    destruct (Z.ltb_spec d 0); cbn [Math_sign strict_equal];
      destruct d; try lia; try contradiction; split; reflexivity.
  - cbn [Math_sign strict_equal].
    destruct d as [|p|p].
    + split; reflexivity.
    + specialize (Hpos ltac:(lia)). cbn [Z.sgn Z.abs] in *. rewrite Z.mul_1_l.
      split; [f_equal; now apply Z.sgn_pos|].
      destruct (Z.eqb_spec (round_even (Z.pos p)) 0); [lia | reflexivity].
    + specialize (Hpos ltac:(lia)). cbn [Z.sgn Z.abs] in *.
      split; [f_equal; apply Z.sgn_neg; lia|].
      destruct (Z.eqb_spec (-1 * round_even (Z.pos p)) 0); [lia | reflexivity].
Qed.

Lemma sub_finite (x y : Z) : sub (Finite x) (Finite y) = to_double (x - y).
Proof. reflexivity. Qed.

(** Adding one among the safe integers is exact. *)
Lemma add_one_safe (z : Z) : 0 <= z < 2 ^ 53 -> add (Finite z) 1 = Finite (z + 1).
Proof.
  intros Hz. cbn [add].
  destruct (Z.eq_dec (z + 1) (2 ^ 53)) as [E | Hne].
  - rewrite E. reflexivity.
  - apply to_double_small. lia.
Qed.

Lemma rounds_to_spec (lo z : Z) : rounds_to lo z = true <-> to_double lo = Finite z.
Proof.
  unfold rounds_to. destruct (to_double lo) as [r| | |]; try (split; discriminate).
  rewrite Z.eqb_eq. split; [now intros -> | now intros [= ->]].
Qed.

(** What the search for the shortest digits returns is an integer whose
    Number value is the double it started from. *)
Lemma shortest_from_spec (fuel : nat) (nd z : Z) :
  0 <= z -> to_double z = Finite z ->
  forall k,
    0 <= shortest_from fuel k nd z
    /\ to_double (shortest_from fuel k nd z) = Finite z.
Proof.
  intros Hz Ez. induction fuel as [|fuel IH]; intros k; cbn [shortest_from]; [now split|].
  destruct (nd <=? k) eqn:Ek; [now split|]. apply Z.leb_gt in Ek.
  set (p := 10 ^ (nd - k)).
  assert (Hp : 0 < p) by (apply Z.pow_pos_nonneg; lia).
  assert (Hlo : 0 <= z / p * p).
  { apply Z.mul_nonneg_nonneg; [apply Z.div_pos|]; lia. }
  destruct (rounds_to (z / p * p) z) eqn:E1, (rounds_to (z / p * p + p) z) eqn:E2;
    cbn [andb].
  - destruct (_ || _); (split; [lia | now apply rounds_to_spec]).
  - split; [lia | now apply rounds_to_spec].
  - split; [lia | now apply rounds_to_spec].
  - apply IH.
Qed.

Lemma shortest_spec (z : Z) :
  0 <= z -> to_double z = Finite z ->
  0 <= shortest z /\ to_double (shortest z) = Finite z.
Proof.
  intros Hz Ez. unfold shortest.
  destruct (z <? 2 ^ 53); [now split | now apply shortest_from_spec].
Qed.

Lemma is_plain_spec (x : number) :
  is_plain x = true <->
  exists z, x = Finite z /\ 0 <= z < 10 ^ 21 /\ to_double z = Finite z.
Proof.
  unfold is_plain. destruct x as [z| | |];
    try (split; [discriminate | intros (z & E & _); discriminate]).
  rewrite !andb_true_iff, Z.leb_le, Z.ltb_lt, rounds_to_spec. split.
  - intros [[H1 H2] H3]. exists z. repeat split; assumption.
  - intros (z' & [= <-] & [H1 H2] & H3). repeat split; assumption.
Qed.

Lemma is_safe_spec (x : number) :
  is_safe x = true <-> exists z, x = Finite z /\ 0 <= z < 2 ^ 53.
Proof.
  unfold is_safe. destruct x as [z| | |];
    try (split; [discriminate | intros (z & E & _); discriminate]).
  rewrite andb_true_iff, Z.leb_le, Z.ltb_lt. split.
  - intros H. now exists z.
  - now intros (z' & [= <-] & H).
Qed.

Lemma safe_plain (x : number) : is_safe x = true -> is_plain x = true.
Proof.
  intros H. apply is_safe_spec in H as (z & -> & Hz). apply is_plain_spec.
  exists z. split; [reflexivity|]. split.
  - assert (2 ^ 53 <= 10 ^ 21) by (vm_compute; discriminate). lia.
  - apply to_double_small. lia.
Qed.

(** A number that prints in plain decimal prints as digits without a leading
    zero, and these digits are read back as the number. *)
Lemma plain_printed (x : number) :
  is_plain x = true ->
  exists c r,
    number_toString x = String c r
    /\ all is_digit (String c r) = true
    /\ canonical (String c r) = true
    /\ Number (String c r) = x
    /\ parseInt (String c r) = x.
Proof.
  intros H. apply is_plain_spec in H as (z & -> & [Hz Hlt] & Ez).
  destruct (shortest_spec z Hz Ez) as [Hm Em].
  cbn [number_toString]. unfold positive_toString.
  destruct (Z.ltb_spec z 0) as [|_]; [lia|].
  destruct (Z.ltb_spec z (10 ^ 21)) as [_|]; [|lia].
  destruct (decimal_spec (shortest z) Hm) as (c & r & E & Hall & Hval & H0 & Hnz).
  exists c, r. split; [exact E|]. split; [exact Hall|].
  split.
  - cbn [canonical]. cbn [all] in Hall. apply andb_true_iff in Hall as [_ Hr].
    destruct (Z.eq_dec (shortest z) 0) as [E0 | Hne].
    + destruct (H0 E0) as [-> ->]. reflexivity.
    + rewrite (Hnz ltac:(lia)), Hr. apply orb_true_r.
  - unfold Number, parseInt. rewrite Hval. now split.
Qed.

(** *** The constructor *)

Lemma rejected_spec (re : string -> bool) (o : option string) :
  rejected re o
  <-> truthy_opt o && negb (re (narrowed o)) = true.
Proof.
  unfold rejected. destruct o as [s|]; simpl.
  - rewrite andb_true_iff, negb_true_iff. split.
    + intros (s' & E & Hne & Hre). injection E as <-.
      split; [now apply truthy_nonempty | exact Hre].
    + intros [Ht Hre]. exists s. repeat split; trivial.
      intros ->. discriminate.
  - split; [intros (s & E & _); discriminate | discriminate].
Qed.

Lemma new_SemanticVersion_valid (M m p : number) (pre build : option string) :
  absent_or Semver.prerelease_re pre -> absent_or Semver.buildmetadata_re build ->
  Semver.new_SemanticVersion M m p pre build = Ok (mkSemanticVersion M m p pre build).
Proof.
  intros Hpre Hbuild. unfold Semver.new_SemanticVersion.
  destruct pre as [s|]; cbn [absent_or truthy_opt narrowed andb] in *;
    [rewrite Hpre, andb_false_r|];
    (destruct build as [b|]; cbn [absent_or truthy_opt narrowed andb] in *;
     [rewrite Hbuild, andb_false_r|]); reflexivity.
Qed.

(** C9, as the code has it: the constructor throws exactly when the prerelease
    or the buildmetadata argument is present, not empty and outside its
    grammar, and otherwise builds the instance with the arguments as its
    fields; absent and grammar-valid arguments are accepted, and so is the
    empty string, which matches neither grammar. *)
Theorem constructor_rejects_nonempty_malformed :
  forall (M m p : number) (pre build : option string),
    ((exists msg, Semver.new_SemanticVersion M m p pre build = Throw msg)
     <-> rejected Semver.prerelease_re pre \/ rejected Semver.buildmetadata_re build)
    /\ (forall v, Semver.new_SemanticVersion M m p pre build = Ok v
                  -> v = mkSemanticVersion M m p pre build)
    /\ (absent_or Semver.prerelease_re pre -> absent_or Semver.buildmetadata_re build
        -> Semver.new_SemanticVersion M m p pre build = Ok (mkSemanticVersion M m p pre build))
    /\ Semver.new_SemanticVersion M m p (Some EmptyString) (Some EmptyString)
       = Ok (mkSemanticVersion M m p (Some EmptyString) (Some EmptyString)).
Proof.
  intros M m p pre build.
  unfold Semver.new_SemanticVersion.
  rewrite (rejected_spec Semver.prerelease_re pre).
  rewrite (rejected_spec Semver.buildmetadata_re build).
  destruct (truthy_opt pre && negb (Semver.prerelease_re _)) eqn:Ep;
    [|destruct (truthy_opt build && negb (Semver.buildmetadata_re _)) eqn:Eb].
  - split; [split; [auto | intros _; eexists; reflexivity]|].
    split; [discriminate|].
    split; [|reflexivity].
    intros Hp _. destruct pre as [s|]; simpl in *; [|discriminate].
    rewrite Hp in Ep. now rewrite andb_false_r in Ep.
  - split; [split; [auto | intros _; eexists; reflexivity]|].
    split; [discriminate|].
    split; [|reflexivity].
    intros _ Hb. destruct build as [s|]; simpl in *; [|discriminate].
    rewrite Hb in Eb. now rewrite andb_false_r in Eb.
  - split; [split; [intros [msg H]; discriminate | intros [H|H]; discriminate]|].
    split; [intros v H; now injection H as <-|].
    split; [reflexivity | reflexivity].
Qed.

(** C9, counterexample: the empty string is a prerelease argument that does not
    match the grammar, and the constructor builds an instance that carries
    it. *)
Lemma constructor_accepts_empty_prerelease :
  Semver.prerelease_re EmptyString = false
  /\ Semver.new_SemanticVersion 1 0 0 (Some EmptyString) None
     = Ok (mkSemanticVersion 1 0 0 (Some EmptyString) None).
Proof. split; reflexivity. Qed.

(** *** comparePrerelease and the empty string *)

Lemma comparePrerelease_empty_left (lc : string -> string -> Z) (b : option string) :
  Semver.comparePrerelease lc (Some EmptyString) b = Semver.comparePrerelease lc None b.
Proof. reflexivity. Qed.

Lemma comparePrerelease_empty_right (lc : string -> string -> Z) (a : option string) :
  Semver.comparePrerelease lc a (Some EmptyString) = Semver.comparePrerelease lc a None.
Proof.
  unfold Semver.comparePrerelease. cbn [truthy_opt truthy negb andb].
  destruct (truthy_opt a); reflexivity.
Qed.

(** C10: [comparePrerelease] treats the empty string like an absent prerelease,
    whatever the collation: against a non-empty prerelease [p] it gives [1] on
    the left and [-1] on the right, and [0] against itself; it can be swapped
    for [undefined] on either side, also inside [compare]; and the empty
    string is not a prerelease of the grammar. *)
Theorem comparePrerelease_empty_as_release :
  forall (lc : string -> string -> Z) (p : string),
    p <> EmptyString ->
    Semver.comparePrerelease lc (Some EmptyString) (Some p) = 1
    /\ Semver.comparePrerelease lc (Some p) (Some EmptyString) = -1
    /\ Semver.comparePrerelease lc (Some EmptyString) (Some EmptyString) = 0
    /\ (forall b, Semver.comparePrerelease lc (Some EmptyString) b
                  = Semver.comparePrerelease lc None b)
    /\ (forall a, Semver.comparePrerelease lc a (Some EmptyString)
                  = Semver.comparePrerelease lc a None)
    /\ (forall v w, Semver.compare lc (with_prerelease v (Some EmptyString)) w
                    = Semver.compare lc (with_prerelease v None) w)
    /\ Semver.prerelease_re EmptyString = false.
Proof.
  intros lc p Hp.
  pose proof (truthy_nonempty p Hp) as Ht.
  split; [unfold Semver.comparePrerelease; cbn [truthy_opt truthy negb andb]; now rewrite Ht|].
  split; [unfold Semver.comparePrerelease; cbn [truthy_opt truthy negb andb]; now rewrite Ht|].
  split; [reflexivity|].
  split; [intro b; apply comparePrerelease_empty_left|].
  split; [intro a; apply comparePrerelease_empty_right|].
  split; [|reflexivity].
  intros v w. unfold Semver.compare, with_prerelease.
  cbn [major minor patch prerelease].
  now rewrite comparePrerelease_empty_left.
Qed.

Lemma comparePrerelease_empty_as_release_witness :
  "alpha" <> EmptyString
  /\ Semver.comparePrerelease ordinalCompare (Some EmptyString) (Some "alpha") = 1
  /\ Semver.comparePrerelease ordinalCompare (Some "alpha") (Some EmptyString) = -1.
Proof.
  assert (H : "alpha" <> EmptyString) by discriminate.
  split; [exact H|].
  split; [exact (proj1 (comparePrerelease_empty_as_release ordinalCompare "alpha" H))
         | exact (proj1 (proj2 (comparePrerelease_empty_as_release ordinalCompare "alpha" H)))].
Defined.

(** *** The order of versions *)

(** The turn of the loop returns the order of the two identifiers unless they
    tie, when their numbers are finite. *)
Lemma compare_identifiers_cases (lc : string -> string -> Z) (a b : string) :
  finite_identifier a = true -> finite_identifier b = true ->
  Semver.compare_identifiers lc a b
  = if identifier_order lc a b =? 0 then None
    else Some (Finite (identifier_order lc a b)).
Proof.
  unfold finite_identifier, Semver.compare_identifiers, identifier_order.
  assert (Hs : forall d, (Z.sgn d =? 0) = (d =? 0)) by (intros []; reflexivity).
  destruct (is_numeric a), (is_numeric b); cbn [negb orb andb Bool.eqb];
    intros Ha Hb; try reflexivity.
  - destruct (Number a) as [x| | |]; try discriminate.
    destruct (Number b) as [y| | |]; try discriminate.
    cbn [value]. rewrite sub_finite.
    destruct (to_double_sign (x - y)) as [-> ->]. rewrite Hs.
    now destruct (x - y =? 0).
  - cbn [strict_equal Math_sign]. rewrite Hs. now destruct (lc a b =? 0).
Qed.

Lemma compare_parts_order (lc : string -> string -> Z) (la : list string) :
  forall lb,
    forallb finite_identifier la = true -> forallb finite_identifier lb = true ->
    Semver.compare_parts lc la lb = Finite (parts_order lc la lb).
Proof.
  induction la as [|a la IH]; intros [|b lb] Ha Hb; cbn [Semver.compare_parts parts_order];
    try reflexivity.
  cbn [forallb] in Ha, Hb.
  apply andb_true_iff in Ha as [Ha Hla], Hb as [Hb Hlb].
  rewrite (compare_identifiers_cases lc a b Ha Hb).
  destruct (identifier_order lc a b =? 0); [now apply IH | reflexivity].
Qed.

Lemma comparePrerelease_order (lc : string -> string -> Z) (a b : option string) :
  finite_prerelease a = true -> finite_prerelease b = true ->
  Semver.comparePrerelease lc a b = Finite (prerelease_order lc a b).
Proof.
  unfold finite_prerelease, Semver.comparePrerelease, prerelease_order.
  destruct (truthy_opt a), (truthy_opt b); cbn [negb andb orb]; intros Ha Hb;
    try reflexivity.
  now apply compare_parts_order.
Qed.

(** [compare] on versions with finite numbers. *)
Lemma compare_order (lc : string -> string -> Z) (a b : SemanticVersion) :
  comparable a = true -> comparable b = true ->
  Semver.compare lc a b = Finite (version_order lc a b).
Proof.
  unfold comparable, Semver.compare, version_order. intros Ha Hb.
  apply andb_true_iff in Ha as [Ha Hpa], Hb as [Hb Hpb].
  apply andb_true_iff in Ha as [Ha Ha3], Hb as [Hb Hb3].
  apply andb_true_iff in Ha as [Ha1 Ha2], Hb as [Hb1 Hb2].
  assert (Hd : forall x y, (x - y =? 0) = (x =? y)).
  { intros x y. destruct (Z.eqb_spec (x - y) 0), (Z.eqb_spec x y); lia || reflexivity. }
  destruct (major a) as [x1| | |], (major b) as [y1| | |]; try discriminate.
  destruct (minor a) as [x2| | |], (minor b) as [y2| | |]; try discriminate.
  destruct (patch a) as [x3| | |], (patch b) as [y3| | |]; try discriminate.
  cbn [value]. rewrite !sub_finite.
  destruct (to_double_sign (x1 - y1)) as [-> ->].
  destruct (to_double_sign (x2 - y2)) as [-> ->].
  destruct (to_double_sign (x3 - y3)) as [-> ->].
  rewrite !Hd.
  destruct (x1 =? y1), (x2 =? y2), (x3 =? y3); cbn [negb]; try reflexivity.
  now apply comparePrerelease_order.
Qed.

Lemma identifier_order_refl (lc : string -> string -> Z) (x : string) :
  lc x x = 0 -> identifier_order lc x x = 0.
Proof.
  intros H. unfold identifier_order. rewrite Z.sub_diag, H.
  now destruct (is_numeric x).
Qed.

Lemma parts_order_refl (lc : string -> string -> Z) (l : list string) :
  (forall s, lc s s = 0) -> parts_order lc l l = 0.
Proof.
  intros H. induction l as [|x l IH]; [reflexivity|].
  cbn [parts_order]. now rewrite (identifier_order_refl lc x (H x)).
Qed.

Lemma prerelease_order_refl (lc : string -> string -> Z) (p : option string) :
  (forall s, lc s s = 0) -> prerelease_order lc p p = 0.
Proof.
  intros H. unfold prerelease_order.
  destruct (truthy_opt p); [apply parts_order_refl, H | reflexivity].
Qed.

Lemma version_order_refl (lc : string -> string -> Z) (v : SemanticVersion) :
  (forall s, lc s s = 0) -> version_order lc v v = 0.
Proof.
  intros H. unfold version_order. rewrite !Z.eqb_refl. cbn [negb].
  now apply prerelease_order_refl.
Qed.

Section Order.

Variable lc : string -> string -> Z.
Hypothesis lc_antisym : forall x y, Z.sgn (lc x y) = - Z.sgn (lc y x).
Hypothesis lc_trans : forall x y z, lc x y <= 0 -> lc y z <= 0 -> lc x z <= 0.
















End Order.

Lemma split_nonempty (sep : ascii -> bool) (s : string) : split sep s <> [].
Proof.
  destruct s as [|c s]; cbn [split]; [discriminate|].
  destruct (sep c); [discriminate|]. now destruct (split sep s).
Qed.















(** *** parse and toString *)

(** A numeric field is read back from the digits [String(x)] of a number that
    prints in plain decimal, in front of anything that does not go on with a
    digit. *)
Lemma numeric_field_number (x : number) (rest : string) :
  is_plain x = true -> stops is_digit rest = true ->
  exists ds,
    number_toString x = ds
    /\ Semver.numeric_field (ds ++ rest) = Some (ds, rest)
    /\ parseInt ds = x
    /\ (exists c r, ds = String c r /\ is_digit c = true).
Proof.
  intros Hx Hrest.
  destruct (plain_printed x Hx) as (c & r & E & Hall & Hcan & _ & Hval).
  exists (String c r). split; [exact E|].
  cbn [all] in Hall. apply andb_true_iff in Hall as [Hc Hr].
  split; [|split; [exact Hval | now exists c, r]].
  cbn [append Semver.numeric_field]. cbn [canonical] in Hcan.
  apply orb_true_iff in Hcan as [H | H]; apply andb_true_iff in H as [H1 H2].
  - rewrite H1. destruct r; [reflexivity | discriminate].
  - rewrite (nonzero_digit_not_zero c H1), H1.
    now rewrite (span_app is_digit r rest Hr Hrest).
Qed.

Lemma prerelease_identifier_chars (id : string) :
  Semver.prerelease_identifier id = true -> all is_alnum_hyphen id = true.
Proof.
  unfold Semver.prerelease_identifier. destruct id as [|c rest]; [discriminate|].
  intros H. apply orb_true_iff in H as [H | H]; [apply orb_true_iff in H as [H | H]|].
  - apply andb_true_iff in H as [Hc Hr]. apply Ascii.eqb_eq in Hc. subst c.
    destruct rest; [reflexivity | discriminate].
  - apply andb_true_iff in H as [Hc Hr]. cbn [all].
    rewrite (digit_alnum c (nonzero_digit_digit c Hc)).
    exact (all_impl _ _ _ digit_alnum Hr).
  - destruct (span is_digit (String c rest)) as [ds r] eqn:E.
    destruct (span_spec _ _ _ _ E) as (-> & Hds & _).
    destruct r as [|x r']; [discriminate|].
    apply andb_true_iff in H as [Hx Hr]. rewrite all_app.
    rewrite (all_impl _ _ _ digit_alnum Hds). cbn [all andb].
    unfold is_alnum_hyphen at 1. now rewrite Hx, orb_true_r.
Qed.

Lemma prerelease_re_chars (p : string) :
  Semver.prerelease_re p = true ->
  all Semver.is_prerelease_char p = true /\ truthy p = true.
Proof.
  intros H. split.
  - apply (split_all is_alnum_hyphen Semver.is_period).
    exact (forallb_impl _ _ _ prerelease_identifier_chars H).
  - destruct p; [discriminate | reflexivity].
Qed.

Lemma buildmetadata_re_truthy (b : string) :
  Semver.buildmetadata_re b = true -> truthy b = true.
Proof. destruct b; [discriminate | reflexivity]. Qed.

Lemma suffix_toString_suffix (pre build : option string) :
  absent_or Semver.prerelease_re pre -> absent_or Semver.buildmetadata_re build ->
  Semver.suffix (toString_suffix pre build) = Some (pre, build)
  /\ stops is_digit (toString_suffix pre build) = true.
Proof.
  intros Hpre Hbuild. unfold toString_suffix.
  assert (Hb : forall b, build = Some b ->
                 (Ascii.eqb "+" "+" && Semver.buildmetadata_re b = true)%char).
  { intros b ->. exact Hbuild. }
  set (tail := match build with Some b => "+" ++ b | None => EmptyString end).
  assert (Htail : stops Semver.is_prerelease_char tail = true
                  /\ stops is_digit tail = true
                  /\ match tail with
                     | EmptyString => Some None
                     | String c b =>
                         if (c =? "+")%char && Semver.buildmetadata_re b
                         then Some (Some b) else None
                     end = Some build).
  { subst tail. destruct build as [b|]; cbn [append]; [|repeat split].
    split; [reflexivity|]. split; [reflexivity|]. now rewrite (Hb b eq_refl). }
  destruct Htail as (Hstop & Hdigit & Hbuild').
  destruct pre as [p|]; cbn [absent_or] in Hpre.
  - destruct (prerelease_re_chars p Hpre) as [Hchars _].
    cbn [append]. split; [|reflexivity].
    unfold Semver.suffix. cbn [Ascii.eqb Bool.eqb].
    rewrite (span_app _ p tail Hchars Hstop), Hpre.
    now rewrite Hbuild'.
  - cbn [append]. split; [|exact Hdigit].
    unfold Semver.suffix. rewrite Hbuild'.
    destruct tail as [|c t]; [reflexivity|].
    destruct (c =? "-")%char eqn:Ec; [|reflexivity].
    apply Ascii.eqb_eq in Ec. subst c. discriminate.
Qed.

Lemma toString_shape (M m p : number) (pre build : option string) :
  absent_or Semver.prerelease_re pre -> absent_or Semver.buildmetadata_re build ->
  Semver.toString (mkSemanticVersion M m p pre build)
  = number_toString M
    ++ String "." (number_toString m
                   ++ String "." (number_toString p ++ toString_suffix pre build)).
Proof.
  intros Hpre Hbuild. unfold Semver.toString, toString_suffix.
  cbn [major minor patch prerelease buildmetadata].
  destruct pre as [pr|]; cbn [absent_or truthy_opt narrowed] in *;
    [destruct (prerelease_re_chars pr Hpre) as [_ ->]|];
    (destruct build as [b|]; cbn [absent_or truthy_opt narrowed] in *;
     [rewrite (buildmetadata_re_truthy b Hbuild)|]).
  all: repeat (rewrite !append_assoc; cbn [append]).
  all: rewrite ?append_empty_r; reflexivity.
Qed.

(** The round trip on the fields. *)
Lemma parse_toString (M m p : number) (pre build : option string) :
  is_plain M = true -> is_plain m = true -> is_plain p = true ->
  absent_or Semver.prerelease_re pre -> absent_or Semver.buildmetadata_re build ->
  Semver.parse (Semver.toString (mkSemanticVersion M m p pre build))
  = Some (mkSemanticVersion M m p pre build).
Proof.
  intros HM Hm Hp Hpre Hbuild.
  rewrite (toString_shape M m p pre build Hpre Hbuild).
  destruct (suffix_toString_suffix pre build Hpre Hbuild) as [Hsuffix Hstop].
  destruct (numeric_field_number p (toString_suffix pre build) Hp Hstop)
    as (dp & Ep & Fp & Vp & _).
  destruct (numeric_field_number m (String "." (dp ++ toString_suffix pre build)) Hm eq_refl)
    as (dm & Em & Fm & Vm & _).
  destruct (numeric_field_number M
              (String "." (dm ++ String "." (dp ++ toString_suffix pre build))) HM eq_refl)
    as (dM & EM & FM & VM & (c & r & Ec & Hc)).
  rewrite EM, Em, Ep.
  unfold Semver.parse, Semver.semver_match.
  replace (match dM ++ _ with EmptyString => _ | String c0 rest => _ end)
    with (dM ++ String "." (dm ++ String "." (dp ++ toString_suffix pre build)))
    by (rewrite Ec; cbn [append]; now rewrite (digit_not_v c Hc)).
  rewrite FM. cbn [Semver.period Semver.is_period Ascii.eqb Bool.eqb].
  rewrite Fm. cbn [Semver.period Semver.is_period Ascii.eqb Bool.eqb].
  rewrite Fp, Hsuffix.
  cbn [Semver.g_major Semver.g_minor Semver.g_patch Semver.g_prerelease
       Semver.g_buildmetadata].
  rewrite VM, Vm, Vp.
  unfold Semver.new_SemanticVersion. cbn [truthy_opt andb major minor patch prerelease buildmetadata].
  destruct pre as [pr|]; cbn [absent_or] in Hpre;
    [destruct (prerelease_re_chars pr Hpre) as [_ Ht]|];
    (destruct build as [b|]; cbn [absent_or] in Hbuild;
     [pose proof (buildmetadata_re_truthy b Hbuild) as Hb|]);
    cbn [truthy_opt major minor patch prerelease buildmetadata];
    rewrite ?Ht, ?Hb; reflexivity.
Qed.

(** C2, as the code has it: a version built from three numbers that print in
    plain decimal (integer doubles from 0 to below [10^21]) and from an absent
    or grammar-valid prerelease and buildmetadata is accepted by the
    constructor and read back by [parse] from its [toString]: the parsed
    version has the very fields of [v], so it is equal to [v] in particular
    when buildmetadata is ignored; and [compare] gives [0] for the two, under
    every collation that finds a string equal to itself, when the numeric
    identifiers of the prerelease are finite numbers. *)
Theorem parse_toString_roundtrip :
  forall (M m p : number) (pre build : option string),
    is_plain M = true -> is_plain m = true -> is_plain p = true ->
    absent_or Semver.prerelease_re pre ->
    absent_or Semver.buildmetadata_re build ->
    exists v w,
      Semver.new_SemanticVersion M m p pre build = Ok v
      /\ Semver.parse (Semver.toString v) = Some w
      /\ major w = major v /\ minor w = minor v /\ patch w = patch v
      /\ prerelease w = prerelease v
      /\ w = v
      /\ (forall lc, (forall s, lc s s = 0) -> finite_prerelease pre = true
                      -> Semver.compare lc w v = 0).
Proof.
  intros M m p pre build HM Hm Hp Hpre Hbuild.
  exists (mkSemanticVersion M m p pre build), (mkSemanticVersion M m p pre build).
  split.
  { now apply new_SemanticVersion_valid. }
  split; [now apply parse_toString|].
  repeat (split; [reflexivity|]).
  intros lc Hlc Hfin.
  assert (Hc : comparable (mkSemanticVersion M m p pre build) = true).
  { unfold comparable. cbn [major minor patch prerelease]. rewrite Hfin.
    apply is_plain_spec in HM as (? & -> & _), Hm as (? & -> & _), Hp as (? & -> & _).
    reflexivity. }
  rewrite (compare_order lc _ _ Hc Hc). f_equal. now apply version_order_refl.
Qed.

Lemma parse_toString_roundtrip_witness :
  is_plain 1 = true /\ is_plain 2 = true /\ is_plain 1152921504606846976 = true
  /\ Semver.prerelease_re "alpha.1" = true
  /\ Semver.buildmetadata_re "exp.sha.5114f85" = true
  /\ Semver.toString (mkSemanticVersion 1 2 1152921504606846976 (Some "alpha.1") (Some "exp.sha.5114f85"))
     = "1.2.1152921504606847000-alpha.1+exp.sha.5114f85"
  /\ Semver.parse "1.2.1152921504606847000-alpha.1+exp.sha.5114f85"
     = Some (mkSemanticVersion 1 2 1152921504606846976 (Some "alpha.1") (Some "exp.sha.5114f85")).
Proof.
  assert (H1 : is_plain 1 = true) by reflexivity.
  assert (H2 : is_plain 2 = true) by reflexivity.
  assert (H3 : is_plain 1152921504606846976 = true) by (vm_compute; reflexivity).
  assert (Hp : Semver.prerelease_re "alpha.1" = true) by reflexivity.
  assert (Hb : Semver.buildmetadata_re "exp.sha.5114f85" = true) by reflexivity.
  repeat (split; [assumption|]).
  assert (Hs : Semver.toString
                 (mkSemanticVersion 1 2 1152921504606846976 (Some "alpha.1") (Some "exp.sha.5114f85"))
               = "1.2.1152921504606847000-alpha.1+exp.sha.5114f85")
    by (vm_compute; reflexivity).
  split; [exact Hs|].
  destruct (parse_toString_roundtrip 1 2 1152921504606846976 (Some "alpha.1") (Some "exp.sha.5114f85")
              H1 H2 H3 Hp Hb) as (v & w & Hv & Hw & _ & _ & _ & _ & E & _).
  injection Hv as Ev. subst v w. rewrite Hs in Hw. exact Hw.
Defined.

(** C2, counterexample: [10^21] is a double, and a digit string of 310 digits
    is read as [Infinity]; a version with such a major is accepted by the
    constructor, prints its major as [1e+21] or as [Infinity], and is not read
    back by [parse]. *)
Lemma toString_of_large_number_not_parsed :
  to_double (10 ^ 21) = Finite (10 ^ 21)
  /\ Semver.new_SemanticVersion (10 ^ 21) 0 0 None None
     = Ok (mkSemanticVersion (10 ^ 21) 0 0 None None)
  /\ Semver.toString (mkSemanticVersion (10 ^ 21) 0 0 None None) = "1e+21.0.0"
  /\ Semver.parse "1e+21.0.0" = None
  /\ Semver.parse "1000000000000000000000.0.0"
     = Some (mkSemanticVersion (10 ^ 21) 0 0 None None)
  /\ Semver.toString huge_version = "Infinity.0.0"
  /\ Semver.parse "Infinity.0.0" = None.
Proof. repeat split; vm_compute; reflexivity. Qed.

Lemma numeric_field_numeric (s ds rest : string) :
  Semver.numeric_field s = Some (ds, rest) -> is_numeric ds = true.
Proof.
  unfold Semver.numeric_field. destruct s as [|c s]; [discriminate|].
  destruct (c =? "0")%char eqn:E0.
  - intros H. injection H as <- <-. apply Ascii.eqb_eq in E0. now subst c.
  - destruct (is_nonzero_digit c) eqn:Ec; [|discriminate].
    destruct (span is_digit s) as [a b] eqn:Es. intros H. injection H as <- <-.
    destruct (span_spec _ _ _ _ Es) as (_ & Ha & _).
    unfold is_numeric. cbn [truthy all andb].
    now rewrite (nonzero_digit_digit c Ec), Ha.
Qed.

Lemma suffix_valid (s : string) (pre build : option string) :
  Semver.suffix s = Some (pre, build) ->
  absent_or Semver.prerelease_re pre /\ absent_or Semver.buildmetadata_re build.
Proof.
  assert (Hbuild : forall r b,
            match r with
            | EmptyString => Some None
            | String c b =>
                if (c =? "+")%char && Semver.buildmetadata_re b then Some (Some b) else None
            end = Some b -> absent_or Semver.buildmetadata_re b).
  { intros [|c r] b H; [injection H as <-; exact I|].
    destruct ((c =? "+")%char && Semver.buildmetadata_re r) eqn:E; [|discriminate].
    injection H as <-. now apply andb_true_iff in E as [_ E]. }
  unfold Semver.suffix.
  assert (Hnone : match
                    match s with
                    | EmptyString => Some None
                    | String c b =>
                        if (c =? "+")%char && Semver.buildmetadata_re b
                        then Some (Some b) else None
                    end
                  with
                  | Some b => Some (None, b)
                  | None => None
                  end = Some (pre, build) ->
                  absent_or Semver.prerelease_re pre
                  /\ absent_or Semver.buildmetadata_re build).
  { destruct (match s with EmptyString => _ | String c b => _ end) as [b|] eqn:E;
      [|discriminate].
    intros H. injection H as <- <-. split; [exact I | exact (Hbuild s b E)]. }
  destruct s as [|c r]; [exact Hnone|].
  destruct (c =? "-")%char; [|exact Hnone].
  destruct (span Semver.is_prerelease_char r) as [p r'].
  destruct (Semver.prerelease_re p) eqn:Ep; [|discriminate].
  destruct (match r' with EmptyString => _ | String c0 b => _ end) as [b|] eqn:E;
    [|discriminate].
  intros H. injection H as <- <-. split; [exact Ep | exact (Hbuild r' b E)].
Qed.

Lemma parse_well_formed (name : string) (v : SemanticVersion) :
  Semver.parse name = Some v -> well_formed v.
Proof.
  unfold Semver.parse, Semver.semver_match.
  destruct (Semver.numeric_field _) as [[mj s1]|] eqn:E1; [|discriminate].
  destruct (Semver.period s1) as [s2|]; [|discriminate].
  destruct (Semver.numeric_field s2) as [[mn s3]|] eqn:E2; [|discriminate].
  destruct (Semver.period s3) as [s4|]; [|discriminate].
  destruct (Semver.numeric_field s4) as [[pt s5]|] eqn:E3; [|discriminate].
  destruct (Semver.suffix s5) as [[pre build]|] eqn:E4; [|discriminate].
  cbn [Semver.g_major Semver.g_minor Semver.g_patch Semver.g_prerelease
       Semver.g_buildmetadata].
  unfold Semver.new_SemanticVersion. cbn [truthy_opt andb].
  apply numeric_field_numeric, Number_counted in E1, E2, E3.
  destruct (suffix_valid _ _ _ E4) as [Hpre Hbuild].
  intros H. injection H as <-. unfold well_formed.
  destruct pre as [p|]; cbn [truthy_opt]; [destruct (truthy p)|];
    (destruct build as [b|]; cbn [truthy_opt]; [destruct (truthy b)|]);
    cbn [major minor patch prerelease buildmetadata absent_or];
    repeat split; assumption || exact I.
Qed.

Lemma parse_toString_parsed (name : string) (v : SemanticVersion) :
  Semver.parse name = Some v -> plain_version v = true ->
  Semver.parse (Semver.toString v) = Some v.
Proof.
  intros H Hplain. destruct (parse_well_formed name v H) as (_ & _ & _ & H4 & H5).
  unfold plain_version in Hplain.
  apply andb_true_iff in Hplain as [Hplain H3]. apply andb_true_iff in Hplain as [H1 H2].
  destruct v as [M m p pre build]. now apply parse_toString.
Qed.

(** *** The order of numbers *)

(** Case analysis on numbers that are rc values, for facts about their
    order. *)
Ltac by_number :=
  intros; unfold at_most, number_max, rc_value in *;
  repeat first
    [ progress cbn [gt isNaN] in *
    | match goal with
      | |- context [?a <? ?b] => destruct (Z.ltb_spec a b)
      | H : context [?a <? ?b] |- _ => destruct (Z.ltb_spec a b)
      end ];
  try reflexivity; try discriminate; try contradiction; try lia;
  try (f_equal; lia).

Lemma number_max_rc_value (x y : number) :
  rc_value x -> rc_value y -> rc_value (number_max x y).
Proof. destruct x, y; by_number. Qed.

Lemma number_max_comm (x y : number) :
  rc_value x -> rc_value y -> number_max x y = number_max y x.
Proof. destruct x, y; by_number. Qed.

Lemma number_max_assoc (x y z : number) :
  rc_value x -> rc_value y -> rc_value z ->
  number_max (number_max x y) z = number_max x (number_max y z).
Proof. destruct x, y, z; by_number. Qed.

Lemma number_max_at_most (x y : number) :
  rc_value x -> rc_value y ->
  at_most x (number_max x y) /\ at_most y (number_max x y).
Proof. destruct x, y; split; by_number. Qed.

Lemma number_max_lub (x y z : number) :
  rc_value x -> rc_value y -> rc_value z ->
  at_most x z -> at_most y z -> at_most (number_max x y) z.
Proof. destruct x, y, z; by_number. Qed.

Lemma at_most_refl (x : number) : rc_value x -> at_most x x.
Proof. destruct x; by_number. Qed.

Lemma at_most_trans (x y z : number) :
  rc_value x -> rc_value y -> rc_value z ->
  at_most x y -> at_most y z -> at_most x z.
Proof. destruct x, y, z; by_number. Qed.

Lemma at_most_antisym (x y : number) :
  rc_value x -> rc_value y -> at_most x y -> at_most y x -> x = y.
Proof. destruct x, y; by_number. Qed.

Lemma number_max_right (x y : number) :
  rc_value x -> rc_value y -> at_most x y -> number_max x y = y.
Proof. destruct x, y; by_number. Qed.

Lemma number_max_left (x y : number) :
  rc_value x -> rc_value y -> at_most y x -> number_max x y = x.
Proof. destruct x, y; by_number. Qed.

(** What [Number] gives for digits is an rc value. *)
Lemma counted_rc_value (x : number) : counted x -> rc_value x.
Proof.
  intros H. destruct (counted_cases x H) as [-> | (z & -> & Hz & _)]; cbn; [exact I | lia].
Qed.

(** The Number value keeps the order of the integers. *)
Lemma to_double_mono (a b : Z) :
  0 <= a <= b -> at_most (to_double a) (to_double b).
Proof.
  intros [Ha Hab]. pose proof (round_even_mono a b (conj Ha Hab)) as Hr.
  rewrite (to_double_nonneg a Ha), (to_double_nonneg b ltac:(lia)).
  destruct (Z.leb_spec (2 ^ 1024) (round_even a)), (Z.leb_spec (2 ^ 1024) (round_even b));
    by_number.
Qed.

(** Adding one to an rc value gives an rc value, and keeps the order. *)
Lemma add_one_rc_value (x : number) : rc_value x -> rc_value (add x 1).
Proof.
  destruct x as [z| | |]; cbn [rc_value add]; intros Hz; try contradiction; [|exact I].
  apply counted_rc_value. exists (z + 1). split; [lia | reflexivity].
Qed.

Lemma add_one_mono (x y : number) :
  rc_value x -> rc_value y -> at_most x y -> at_most (add x 1) (add y 1).
Proof.
  destruct x as [a| | |], y as [b| | |]; cbn [rc_value add]; intros Hx Hy H;
    try contradiction.
  - apply to_double_mono. revert H. by_number.
  - pose proof (add_one_rc_value (Finite a) Hx) as Hr. cbn [add] in Hr.
    destruct (to_double (a + 1)); by_number.
  - discriminate.
  - reflexivity.
Qed.

Lemma add_one_max (x y : number) :
  rc_value x -> rc_value y ->
  add (number_max x y) 1 = number_max (add x 1) (add y 1).
Proof.
  intros Hx Hy.
  assert (Hc : at_most x y \/ at_most y x) by (destruct x, y; by_number).
  destruct Hc as [H | H].
  - rewrite (number_max_right x y Hx Hy H). symmetry.
    apply number_max_right; auto using add_one_rc_value, add_one_mono.
  - rewrite (number_max_left x y Hx Hy H). symmetry.
    apply number_max_left; auto using add_one_rc_value, add_one_mono.
Qed.

(** *** nextRcIndex *)

Lemma rc_number_inline (token : string) :
  rc_number token = option_map Number (Semver.match_rc_inline token).
Proof.
  unfold rc_number, Semver.match_rc_inline.
  destruct token as [|r [|c ds]]; cbn [toLowerCase strip_prefix option_map].
  - reflexivity.
  - rewrite Ascii.eqb_sym, lower_char_r. destruct (Semver.is_r r); reflexivity.
  - rewrite (Ascii.eqb_sym _ (lower_char r)), (Ascii.eqb_sym _ (lower_char c)).
    rewrite lower_char_r, lower_char_c.
    destruct (Semver.is_r r); cbn [andb]; [|reflexivity].
    destruct (Semver.is_c c); cbn [andb]; [|reflexivity].
    destruct (toLowerCase_numeric ds) as [E1 E2]. rewrite E1.
    destruct (is_numeric ds) eqn:En; cbn [option_map]; [|reflexivity].
    now rewrite E2.
Qed.

Lemma bare_rc_lower (token : string) :
  (toLowerCase token =? "rc")%string = Semver.is_bare_rc token.
Proof.
  destruct token as [|r [|c [|x rest]]];
    cbn [toLowerCase String.eqb Semver.is_bare_rc]; try reflexivity.
  - rewrite lower_char_r. now destruct (Semver.is_r r).
  - rewrite lower_char_r, lower_char_c.
    destruct (Semver.is_r r), (Semver.is_c c); reflexivity.
  - rewrite lower_char_r, lower_char_c.
    destruct (Semver.is_r r), (Semver.is_c c); reflexivity.
Qed.

(** The guarded assignment keeps the greater of the two: NaN is greater than
    nothing. *)
Lemma raise_max (n m : number) : Semver.raise n m = number_max m n.
Proof. unfold Semver.raise, number_max. destruct n; reflexivity. Qed.

Lemma scan_parts_values (parts : list string) :
  forall maxRc,
    Semver.scan_parts parts maxRc = fold_left number_max (token_values parts) maxRc.
Proof.
  induction parts as [|part rest IH]; intros maxRc; simpl; [reflexivity|].
  unfold token_value. rewrite rc_number_inline, bare_rc_lower.
  destruct (Semver.match_rc_inline part) as [ds|]; simpl.
  - now rewrite IH, raise_max.
  - destruct (Semver.is_bare_rc part); [|apply IH].
    destruct rest as [|next rest']; simpl hd_error; cbv iota.
    + now rewrite IH.
    + destruct (is_numeric next); [now rewrite IH, raise_max | apply IH].
Qed.

Lemma scan_tag_values (base : SemanticVersion) (name : string) (maxRc : number) :
  Semver.scan_tag base maxRc name
  = fold_left number_max
      (match considered base name with
       | Some p => token_values (tokens p)
       | None => []
       end) maxRc.
Proof.
  unfold Semver.scan_tag, considered, same_numbers, tokens.
  destruct (Semver.parse name) as [v|]; [|reflexivity].
  destruct (strict_equal (major v) (major base) && strict_equal (minor v) (minor base)
            && strict_equal (patch v) (patch base));
    destruct (prerelease v) as [p|]; cbn [andb truthy_opt]; try reflexivity.
  - destruct (truthy p); cbn [andb narrowed]; [apply scan_parts_values | reflexivity].
  - now rewrite andb_false_r.
Qed.

Lemma fold_scan_tag_values (base : SemanticVersion) (tagNames : list string) :
  forall maxRc,
    fold_left (Semver.scan_tag base) tagNames maxRc
    = fold_left number_max (accepted_values base tagNames) maxRc.
Proof.
  unfold accepted_values.
  induction tagNames as [|name rest IH]; intros maxRc; simpl; [reflexivity|].
  now rewrite fold_left_app, IH, scan_tag_values.
Qed.

(** What a token contributes is the Number value of digits, or 0. *)
Lemma token_value_counted (token : string) (next : option string) (n : number) :
  token_value token next = Some n -> counted n.
Proof.
  assert (H0 : counted (Finite 0)) by (exists 0; split; [lia | reflexivity]).
  unfold token_value, rc_number.
  destruct (strip_prefix "rc" (toLowerCase token)) as [ds|].
  - destruct (is_numeric ds) eqn:E.
    + intros H. injection H as <-. now apply Number_counted.
    + destruct (toLowerCase token =? "rc")%string; [|discriminate].
      destruct next as [nx|]; [|now intros [= <-]].
      destruct (is_numeric nx) eqn:E'; [|discriminate].
      intros H. injection H as <-. now apply Number_counted.
  - destruct (toLowerCase token =? "rc")%string; [|discriminate].
    destruct next as [nx|]; [|now intros [= <-]].
    destruct (is_numeric nx) eqn:E'; [|discriminate].
    intros H. injection H as <-. now apply Number_counted.
Qed.

Lemma token_values_counted (l : list string) : Forall counted (token_values l).
Proof.
  induction l as [|token rest IH]; simpl; [constructor|].
  destruct (token_value token (hd_error rest)) as [n|] eqn:E; [|exact IH].
  constructor; [now apply token_value_counted in E | exact IH].
Qed.

Lemma accepted_values_counted (base : SemanticVersion) (tagNames : list string) :
  Forall counted (accepted_values base tagNames).
Proof.
  unfold accepted_values.
  induction tagNames as [|name rest IH]; simpl; [constructor|].
  apply Forall_app. split; [|exact IH].
  destruct (considered base name); [apply token_values_counted | constructor].
Qed.

Lemma accepted_values_rc_values (base : SemanticVersion) (tagNames : list string) :
  Forall rc_value (accepted_values base tagNames).
Proof.
  eapply Forall_impl; [|apply accepted_values_counted]. exact counted_rc_value.
Qed.

Lemma fold_max_rc_value (a : number) (l : list number) :
  rc_value a -> Forall rc_value l -> rc_value (fold_right number_max a l).
Proof.
  intros Ha Hl. induction Hl as [|x l Hx Hl IH]; cbn [fold_right]; [exact Ha|].
  now apply number_max_rc_value.
Qed.

Lemma fold_left_max_right (l : list number) :
  forall a, rc_value a -> Forall rc_value l ->
            fold_left number_max l a = fold_right number_max a l.
Proof.
  induction l as [|x l IH]; intros a Ha Hl; simpl; [reflexivity|].
  inversion Hl as [|? ? Hx Hl']; subst.
  rewrite IH by (auto using number_max_rc_value). clear IH Hl.
  revert a x Ha Hx. induction Hl' as [|y l Hy Hl' IH]; intros a x Ha Hx; simpl.
  - now apply number_max_comm.
  - rewrite IH by assumption.
    rewrite <- !number_max_assoc by (auto using fold_max_rc_value).
    f_equal. now apply number_max_comm.
Qed.

Lemma minus_one_rc_value : rc_value (Finite (-1)).
Proof. cbn. lia. Qed.

(** The next rc index: one more than the greatest accepted value, from [-1]
    on. *)
Lemma nextRcIndex_max (base : SemanticVersion) (tagNames : list string) :
  Semver.nextRcIndex base tagNames
  = add (fold_right number_max (Finite (-1)) (accepted_values base tagNames)) 1.
Proof.
  unfold Semver.nextRcIndex. rewrite fold_scan_tag_values.
  now rewrite fold_left_max_right
    by (auto using minus_one_rc_value, accepted_values_rc_values).
Qed.



Lemma add_one_exact (z : Z) : -1 <= z < 2 ^ 53 -> add (Finite z) 1 = Finite (z + 1).
Proof.
  intros Hz. destruct (Z.eq_dec z (-1)) as [-> | Hne]; [reflexivity|].
  apply add_one_safe. lia.
Qed.






(** *** ParseConventionalTitle *)

(** The type of a title that matches is the longest run of word characters
    at its start, and is not empty. *)
Lemma title_match_type (t : string) (groups : ConventionalCommits.TitleGroups) :
  ConventionalCommits.title_match t = Some groups ->
  ConventionalCommits.g_type groups = fst (span is_word t)
  /\ truthy (ConventionalCommits.g_type groups) = true.
Proof.
  unfold ConventionalCommits.title_match.
  destruct (span is_word t) as [ty s1]. cbn [fst].
  destruct (truthy ty) eqn:Ety; cbn [negb]; [|discriminate].
  destruct (match s1 with EmptyString => _ | String c r => _ end) as [[scope s2]|];
    [|discriminate].
  destruct (match s2 with EmptyString => _ | String c r => _ end) as [breaking s3].
  destruct s3 as [|c s4]; [discriminate|].
  destruct (c =? ":")%char; [|discriminate].
  destruct (span is_space s4) as [ws description].
  destruct (all is_dot description); [|discriminate].
  intros H. injection H as <-. cbn [ConventionalCommits.g_type]. now split.
Qed.

Lemma ParseConventionalTitle_cases (t : string) :
  ConventionalCommits.ParseConventionalTitle t
  = match ConventionalCommits.title_match t with
    | None => None
    | Some groups =>
        match ConventionalCommits.lookup (ConventionalCommits.g_type groups) with
        | None => None
        | Some mapped =>
            Some (mkParsedCommitInfo (ConventionalCommits.g_type groups)
                    (if truthy_opt (ConventionalCommits.g_breaking groups)
                     then ImpactValue MAJOR else mapped))
        end
    end.
Proof.
  unfold ConventionalCommits.ParseConventionalTitle.
  destruct (ConventionalCommits.title_match t) as [groups|] eqn:E; [|reflexivity].
  destruct (title_match_type t groups E) as [_ ->]. reflexivity.
Qed.

Lemma in_Object_prototype (key : string) :
  existsb (String.eqb key) ConventionalCommits.Object_prototype = true
  <-> In key ConventionalCommits.Object_prototype.
Proof.
  rewrite existsb_exists. split.
  - intros (x & Hx & E). apply String.eqb_eq in E. now subst.
  - intros H. exists key. split; [exact H | apply String.eqb_refl].
Qed.

(** C7: a title that does not match the pattern gives none; a title whose
    type is one of the ten keys of the mapping gives that type with the impact
    of the mapping, or [MAJOR] when the marker [!] is present; a type that is
    neither one of the ten keys nor a property of [Object.prototype] gives
    none.  But a type that names a property of [Object.prototype], such as
    [constructor], is none of the ten tags and is classified all the same,
    with the inherited member as its impact: there the code departs from its
    own warning text and from the tests of the repository, which expect none
    for a type that the mapping does not hold. *)
Theorem ParseConventionalTitle_inherited_key :
  (forall t, ConventionalCommits.title_match t = None ->
             ConventionalCommits.ParseConventionalTitle t = None)
  /\ (forall t groups i,
        ConventionalCommits.title_match t = Some groups ->
        ConventionalCommits.own_property (ConventionalCommits.g_type groups)
          ConventionalCommits.TypeToImpactMapping = Some i ->
        ConventionalCommits.ParseConventionalTitle t
        = Some (mkParsedCommitInfo (ConventionalCommits.g_type groups)
                  (ImpactValue (if truthy_opt (ConventionalCommits.g_breaking groups)
                                then MAJOR else i))))
  /\ (forall t groups,
        ConventionalCommits.title_match t = Some groups ->
        ConventionalCommits.own_property (ConventionalCommits.g_type groups)
          ConventionalCommits.TypeToImpactMapping = None ->
        ~ In (ConventionalCommits.g_type groups) ConventionalCommits.Object_prototype ->
        ConventionalCommits.ParseConventionalTitle t = None)
  /\ (forall t groups,
        ConventionalCommits.title_match t = Some groups ->
        ConventionalCommits.own_property (ConventionalCommits.g_type groups)
          ConventionalCommits.TypeToImpactMapping = None ->
        In (ConventionalCommits.g_type groups) ConventionalCommits.Object_prototype ->
        ConventionalCommits.ParseConventionalTitle t
        = Some (mkParsedCommitInfo (ConventionalCommits.g_type groups)
                  (if truthy_opt (ConventionalCommits.g_breaking groups)
                   then ImpactValue MAJOR
                   else Inherited (ConventionalCommits.g_type groups))))
  /\ map ConventionalCommits.ParseConventionalTitle
       ["Feat: x"; "feat-prod: x"; "unknown: x"; "not conventional"]
     = [None; None; None; None]
  /\ map (fun t => option_map impact (ConventionalCommits.ParseConventionalTitle t))
       ["docs: x"; "style: x"; "test: x"; "chore: x"; "build: x"; "ci: x";
        "refactor: x"; "fix: x"; "perf: x"; "feat: x";
        "feat!: x"; "feat(api)!: x"; "chore!: x"]
     = map (fun i => Some (ImpactValue i))
         [NOIMPACT; NOIMPACT; NOIMPACT; NOIMPACT; NOIMPACT; NOIMPACT;
          PATCH; PATCH; PATCH; MINOR; MAJOR; MAJOR; MAJOR]
  /\ ConventionalCommits.own_property "constructor" ConventionalCommits.TypeToImpactMapping
     = None
  /\ ConventionalCommits.ParseConventionalTitle "constructor: x"
     = Some (mkParsedCommitInfo "constructor" (Inherited "constructor")).
Proof.
  split; [intros t H; now rewrite ParseConventionalTitle_cases, H|].
  split.
  { intros t groups i Hm Hown.
    rewrite ParseConventionalTitle_cases, Hm. unfold ConventionalCommits.lookup.
    rewrite Hown. now destruct (truthy_opt _). }
  split.
  { intros t groups Hm Hown Hnot.
    rewrite ParseConventionalTitle_cases, Hm. unfold ConventionalCommits.lookup.
    rewrite Hown.
    destruct (existsb _ _) eqn:E; [|reflexivity].
    now apply in_Object_prototype in E. }
  split.
  { intros t groups Hm Hown Hin.
    rewrite ParseConventionalTitle_cases, Hm. unfold ConventionalCommits.lookup.
    rewrite Hown. apply in_Object_prototype in Hin. now rewrite Hin. }
  repeat split.
Qed.

(** *** ParseConventionalBody *)

(** The greedy star reaches a tail of the pattern whenever there is one to
    reach. *)
Lemma block_rest_complete (inner : string) :
  forall s post, closes s inner post ->
                 exists post', ConventionalCommits.block_rest s = Some post'.
Proof.
  induction inner as [|c inner IH]; intros s post [-> Hall].
  - cbn [append]. unfold ConventionalCommits.block_close at 1. cbn [append].
    cbn [ConventionalCommits.block_rest].
    destruct (if is_dot_or_lf "<" then _ else None) as [p|]; [now exists p|].
    exists post. now apply strip_prefix_spec.
  - cbn [all] in Hall. apply andb_true_iff in Hall as [Hc Hall].
    cbn [append ConventionalCommits.block_rest]. rewrite Hc.
    destruct (IH _ post (conj eq_refl Hall)) as [p ->]. now exists p.
Qed.

(** What the greedy star and the tail match: the tail that is furthest to the
    right among those that can be reached. *)
Lemma block_rest_sound (s : string) :
  forall post, ConventionalCommits.block_rest s = Some post ->
               exists inner, closes s inner post /\ last_close s inner.
Proof.
  induction s as [|c s IH]; intros post; cbn [ConventionalCommits.block_rest];
    [discriminate|].
  destruct (if is_dot_or_lf c then ConventionalCommits.block_rest s else None)
    as [p|] eqn:E.
  - intros H. injection H as <-.
    destruct (is_dot_or_lf c) eqn:Hc; [|discriminate].
    destruct (IH p E) as (inner & [Hs Hall] & Hlast).
    exists (String c inner). split.
    + split; [cbn [append]; now rewrite Hs | cbn [all]; now rewrite Hc, Hall].
    + intros inner' post' [Hs' Hall']. destruct inner' as [|c' inner']; cbn [String.length].
      * lia.
      * cbn [append] in Hs'. injection Hs' as <- Hs'.
        cbn [all] in Hall'. apply andb_true_iff in Hall' as [_ Hall'].
        pose proof (Hlast inner' post' (conj Hs' Hall')). lia.
  - intros H. apply strip_prefix_spec in H.
    exists EmptyString. split; [split; [exact H | reflexivity]|].
    intros inner' post' [Hs' Hall']. destruct inner' as [|c' inner']; [cbn; lia|].
    exfalso. cbn [append] in Hs'. injection Hs' as <- Hs'.
    cbn [all] in Hall'. apply andb_true_iff in Hall' as [Hc Hall'].
    rewrite Hc in E.
    destruct (block_rest_complete inner' s post' (conj Hs' Hall')) as [p Hp]. congruence.
Qed.

Lemma block_rest_last (inner post : string) :
  all is_dot_or_lf inner = true ->
  last_close (inner ++ ConventionalCommits.block_close ++ post) inner ->
  ConventionalCommits.block_rest (inner ++ ConventionalCommits.block_close ++ post)
  = Some post.
Proof.
  intros Hall Hlast.
  set (s := inner ++ ConventionalCommits.block_close ++ post) in *.
  assert (Hc : closes s inner post) by (split; [reflexivity | exact Hall]).
  destruct (block_rest_complete inner s post Hc) as [p Hp].
  destruct (block_rest_sound s p Hp) as (inner' & [Hs' Hall'] & Hlast').
  pose proof (Hlast inner' p (conj Hs' Hall')) as H1.
  pose proof (Hlast' inner post Hc) as H2.
  assert (Hlen : String.length inner = String.length inner') by lia.
  unfold s in Hs'.
  destruct (append_same_length _ _ _ _ Hs' Hlen) as [_ E].
  assert (E' : post = p).
  { apply (append_same_length ConventionalCommits.block_close
             ConventionalCommits.block_close post p E eq_refl). }
  now rewrite Hp, E'.
Qed.

Lemma strip_release_notes_at (pre rest post : string) :
  no_block_inside pre rest ->
  ConventionalCommits.block_here rest = Some post ->
  ConventionalCommits.strip_release_notes (pre ++ rest) = pre ++ post.
Proof.
  intros Hno Hrest. induction pre as [|c pre IH]; cbn [append].
  - destruct rest; cbn [ConventionalCommits.strip_release_notes]; now rewrite Hrest.
  - cbn [ConventionalCommits.strip_release_notes].
    unfold ConventionalCommits.block_here at 1.
    assert (E : strip_prefix ConventionalCommits.block_open (String c (pre ++ rest)) = None).
    { apply strip_prefix_none. apply (Hno EmptyString (String c pre)); [reflexivity|discriminate]. }
    rewrite E. f_equal. apply IH.
    intros p1 p2 Hp Hne. apply (Hno (String c p1) p2); [cbn; now rewrite Hp | exact Hne].
Qed.

Lemma strip_release_notes_block (pre inner post : string) :
  no_block_inside pre
    (ConventionalCommits.block_open ++ inner ++ ConventionalCommits.block_close ++ post) ->
  all is_dot_or_lf inner = true ->
  last_close (inner ++ ConventionalCommits.block_close ++ post) inner ->
  ConventionalCommits.strip_release_notes
    (pre ++ ConventionalCommits.block_open ++ inner ++ ConventionalCommits.block_close ++ post)
  = pre ++ post.
Proof.
  intros Hno Hall Hlast. apply strip_release_notes_at; [exact Hno|].
  unfold ConventionalCommits.block_here.
  replace (strip_prefix ConventionalCommits.block_open
             (ConventionalCommits.block_open ++ inner ++ ConventionalCommits.block_close ++ post))
    with (Some (inner ++ ConventionalCommits.block_close ++ post))
    by (symmetry; now apply strip_prefix_spec).
  now apply block_rest_last.
Qed.

Lemma strip_release_notes_none (body : string) :
  (forall p1 p2, body = p1 ++ p2 -> ~ starts_with ConventionalCommits.block_open p2) ->
  ConventionalCommits.strip_release_notes body = body.
Proof.
  induction body as [|c body IH]; intros Hno.
  - reflexivity.
  - destruct (String c body) as [|c' body'] eqn:Eb; [discriminate|].
    injection Eb as <- <-.
    cbn [ConventionalCommits.strip_release_notes].
    unfold ConventionalCommits.block_here.
    assert (E : strip_prefix ConventionalCommits.block_open (String c body) = None).
    { apply strip_prefix_none. now apply (Hno EmptyString). }
    rewrite E. f_equal. apply IH.
    intros p1 p2 Hp. apply (Hno (String c p1)). cbn. now rewrite Hp.
Qed.

Lemma no_block_inside_check (pre rest : string) :
  no_block_inside_b pre rest = true -> no_block_inside pre rest.
Proof.
  induction pre as [|c pre IH]; intros H p1 p2 Hp Hne.
  - destruct p1, p2; cbn in Hp; congruence || discriminate.
  - cbn [no_block_inside_b] in H.
    destruct (strip_prefix ConventionalCommits.block_open (String c pre ++ rest)) eqn:E;
      [discriminate|].
    destruct p1 as [|c1 p1]; cbn [append] in Hp.
    + subst p2. now apply strip_prefix_none.
    + injection Hp as <- Hp. exact (IH H p1 p2 Hp Hne).
Qed.

Lemma last_close_check (inner post : string) :
  ConventionalCommits.block_rest (inner ++ ConventionalCommits.block_close ++ post)
  = Some post ->
  last_close (inner ++ ConventionalCommits.block_close ++ post) inner.
Proof.
  intros H. destruct (block_rest_sound _ _ H) as (inner0 & [Hs Hall] & Hlast).
  assert (Hlen : String.length inner = String.length inner0).
  { apply (f_equal String.length) in Hs. rewrite !append_length in Hs. lia. }
  destruct (append_same_length _ _ _ _ Hs Hlen) as [-> _]. exact Hlast.
Qed.


(** What [ParseConventionalBody] does: the body loses the leftmost match of
    the block pattern, which runs from the head of the pattern over text
    without a carriage return to the last tail of the pattern that can be
    reached, and the result is [MAJOR] exactly when what remains contains
    [BREAKING CHANGE].  A mention inside the removed span alone gives none; a
    mention before the head or after the last tail gives [MAJOR]. *)
Theorem ParseConventionalBody_strips_greedy_block :
  (forall body,
      ConventionalCommits.ParseConventionalBody body
      = if includes "BREAKING CHANGE" (ConventionalCommits.strip_release_notes body)
        then Some MAJOR else None)
  /\ (forall pre inner post,
        no_block_inside pre
          (ConventionalCommits.block_open ++ inner ++ ConventionalCommits.block_close ++ post) ->
        all is_dot_or_lf inner = true ->
        last_close (inner ++ ConventionalCommits.block_close ++ post) inner ->
        ConventionalCommits.strip_release_notes
          (pre ++ ConventionalCommits.block_open ++ inner
               ++ ConventionalCommits.block_close ++ post)
        = pre ++ post
        /\ (includes "BREAKING CHANGE" (pre ++ post) = false ->
            ConventionalCommits.ParseConventionalBody
              (pre ++ ConventionalCommits.block_open ++ inner
                   ++ ConventionalCommits.block_close ++ post) = None)
        /\ (includes "BREAKING CHANGE" pre = true \/ includes "BREAKING CHANGE" post = true ->
            ConventionalCommits.ParseConventionalBody
              (pre ++ ConventionalCommits.block_open ++ inner
                   ++ ConventionalCommits.block_close ++ post) = Some MAJOR))
  /\ (forall body,
        (forall p1 p2, body = p1 ++ p2 -> ~ starts_with ConventionalCommits.block_open p2) ->
        ConventionalCommits.ParseConventionalBody body
        = if includes "BREAKING CHANGE" body then Some MAJOR else None)
  /\ includes "BREAKING CHANGE" renovate_block = true
  /\ ConventionalCommits.ParseConventionalBody body_with_release_notes = None
  /\ ConventionalCommits.ParseConventionalBody body_with_real_major = Some MAJOR.
Proof.
  split; [reflexivity|].
  split.
  { intros pre inner post Hno Hall Hlast.
    pose proof (strip_release_notes_block pre inner post Hno Hall Hlast) as E.
    split; [exact E|].
    unfold ConventionalCommits.ParseConventionalBody. rewrite E.
    split; [intros ->; reflexivity|].
    intros [H | H]; [rewrite (includes_app_l _ pre post H) | rewrite (includes_app_r _ pre post H)];
      reflexivity. }
  split.
  { intros body Hno. unfold ConventionalCommits.ParseConventionalBody.
    now rewrite (strip_release_notes_none body Hno). }
  repeat split.
Qed.

(** C8, at the failing input: a body with a block, then the line
    [BREAKING CHANGE: real], then a second [</details>] and [---] further
    down.  The block that ends at the next tail of the pattern leaves that
    line outside, so the body is to give [MAJOR]; the match of the code runs
    on to the second tail, nothing remains, and the body gives none. *)
Lemma breaking_line_between_two_closes :
  includes "BREAKING CHANGE" (strip_to_next_close body_with_two_closes) = true
  /\ ConventionalCommits.strip_release_notes body_with_two_closes = EmptyString
  /\ ConventionalCommits.ParseConventionalBody body_with_two_closes = None.
Proof. repeat split. Qed.

(** The second test body of the repository: the line before the block is
    kept, the block is removed. *)
Lemma ParseConventionalBody_strips_greedy_block_witness :
  ConventionalCommits.strip_release_notes body_with_real_major
  = "This PR updates a dependency." ++ ConventionalCommits.LF
    ++ "BREAKING CHANGE: changed API behavior." ++ ConventionalCommits.LF
  /\ ConventionalCommits.ParseConventionalBody body_with_real_major = Some MAJOR.
Proof.
  set (pre := "This PR updates a dependency." ++ ConventionalCommits.LF
              ++ "BREAKING CHANGE: changed API behavior." ++ ConventionalCommits.LF).
  set (inner := ConventionalCommits.LF
                ++ "<summary>eslint/rewrite (@eslint/compat)</summary>"
                ++ ConventionalCommits.LF ++ ConventionalCommits.LF
                ++ "##### BREAKING CHANGES" ++ ConventionalCommits.LF ++ ConventionalCommits.LF
                ++ "- Require Node.js ^20.19.0 || ^22.13.0 || >=24"
                ++ ConventionalCommits.LF ++ ConventionalCommits.LF ++ ConventionalCommits.LF).
  assert (Hno : no_block_inside pre
                  (ConventionalCommits.block_open ++ inner
                     ++ ConventionalCommits.block_close ++ EmptyString))
    by (apply no_block_inside_check; vm_compute; reflexivity).
  assert (Hall : all is_dot_or_lf inner = true) by (vm_compute; reflexivity).
  assert (Hlast : last_close (inner ++ ConventionalCommits.block_close ++ EmptyString) inner)
    by (apply last_close_check; vm_compute; reflexivity).
  destruct ParseConventionalBody_strips_greedy_block as (_ & Hblock & _).
  destruct (Hblock pre inner EmptyString Hno Hall Hlast) as (Hstrip & _ & Hmajor).
  split.
  - rewrite <- (append_empty_r pre). exact Hstrip.
  - apply Hmajor. left. vm_compute. reflexivity.
Defined.

(** *** getImpactFromGithub *)













(** C4, counterexample: on the input of the claim the final impact is
    [NOIMPACT], not [PATCH], and a warning is present: the title
    [chore: trivial] classifies. *)
Lemma chore_trivial_is_not_PATCH :
  option_map impact
    (finalImpact (Main.getImpactFromGithub (titled "chore: trivial") docs_and_fix))
  = Some (ImpactValue NOIMPACT)
  /\ ImpactValue NOIMPACT <> ImpactValue PATCH
  /\ warning (Main.getImpactFromGithub (titled "chore: trivial") docs_and_fix) <> None.
Proof. split; [reflexivity|]. split; discriminate. Qed.

(** C4, as the code has it: the title [chore: trivial] classifies as [chore]
    with [NOIMPACT]; with the commits [docs: x] and [fix: y] the maximum commit
    impact is [PATCH], the final impact is that of the title, and the result
    carries the warning.  With a title that does not classify the final impact
    is the [PATCH] of [fix: y] and there is no warning. *)
Theorem chore_trivial_overrides_commits :
  Main.getImpactFromGithub (titled "chore: trivial") docs_and_fix
  = mkImpactResult
      (Some (mkParsedCommitInfo "chore" (ImpactValue NOIMPACT)))
      [mkParsedCommitInfo "docs" (ImpactValue NOIMPACT);
       mkParsedCommitInfo "fix" (ImpactValue PATCH)]
      (Some (MaxOf PATCH))
      (Some (mkParsedCommitInfo "chore" (ImpactValue NOIMPACT)))
      (Some "Impact from PR title (NOIMPACT) differs from maximum commit impact (PATCH). Using PR title impact (NOIMPACT) for version bump.")
  /\ Main.getImpactFromGithub (titled "trivial") docs_and_fix
     = mkImpactResult
         None
         [mkParsedCommitInfo "docs" (ImpactValue NOIMPACT);
          mkParsedCommitInfo "fix" (ImpactValue PATCH)]
         (Some (MaxOf PATCH))
         (Some (mkParsedCommitInfo "fix" (ImpactValue PATCH)))
         None.
Proof. split; reflexivity. Qed.

(** *** Numbers that parse does not read back *)

Lemma strip_zeros_digits (s : string) :
  all is_digit s = true -> all is_digit (strip_zeros s) = true.
Proof.
  induction s as [|c s IH]; cbn [all strip_zeros]; [reflexivity|].
  intros H. apply andb_true_iff in H as [Hc Hs].
  destruct ((c =? "0")%char && negb (truthy (strip_zeros s))); [reflexivity|].
  cbn [all]. now rewrite Hc, IH.
Qed.


Lemma stuck_at (c : ascii) (r : string) :
  (c =? ".")%char = false -> (c =? "-")%char = false -> (c =? "+")%char = false ->
  stuck (String c r).
Proof.
  intros H1 H2 H3. unfold stuck, Semver.period, Semver.suffix, Semver.is_period.
  now rewrite H1, H2, H3.
Qed.

Lemma digit_stuck (c : ascii) (r : string) : is_digit c = true -> stuck (String c r).
Proof. intros H. apply stuck_at; revert H; by_char c. Qed.

(** The field that is read from digits followed by [e]: what it leaves is
    stuck. *)
Lemma field_before_e (ds u : string) :
  all is_digit ds = true ->
  match Semver.numeric_field (ds ++ String "e" u) with
  | None => True
  | Some (_, r) => stuck r
  end.
Proof.
  intros Hds. destruct ds as [|c ds]; [exact I|].
  cbn [all] in Hds. apply andb_true_iff in Hds as [Hc Hds].
  cbn [append Semver.numeric_field].
  destruct (c =? "0")%char.
  - destruct ds as [|d ds']; cbn [append]; [now apply stuck_at|].
    cbn [all] in Hds. apply andb_true_iff in Hds as [Hd _]. now apply digit_stuck.
  - destruct (is_nonzero_digit c); [|exact I].
    rewrite (span_app is_digit ds (String "e" u) Hds eq_refl). now apply stuck_at.
Qed.


Lemma exponent_form_unreadable (m : Z) : 0 < m -> unreadable (exponent_form m).
Proof.
  intros Hm. right. unfold exponent_form.
  destruct (decimal_spec m ltac:(lia)) as (c & r & E & Hall & _ & _ & Hnz).
  specialize (Hnz Hm). rewrite E. cbn [strip_zeros].
  rewrite (nonzero_digit_not_zero c Hnz). cbn [andb].
  cbn [all] in Hall. apply andb_true_iff in Hall as [_ Hr].
  pose proof (strip_zeros_digits r Hr) as Hs.
  exists c. eexists. split; [reflexivity|]. split; [exact Hnz|].
  destruct (strip_zeros r) as [|d ds]; cbn [truthy append].
  - left. eexists. reflexivity.
  - right. exists (String d ds). eexists. split; [reflexivity | exact Hs].
Qed.

(** A number that [parse] gives and that does not print in plain decimal
    prints as the exponent form or as [Infinity]. *)
Lemma not_plain_unreadable (x : number) :
  counted x -> is_plain x = false -> unreadable (number_toString x).
Proof.
  intros Hc Hp. destruct (counted_cases x Hc) as [-> | (z & -> & Hz & Ez)]; [now left|].
  assert (Hbig : 10 ^ 21 <= z).
  { destruct (Z.lt_ge_cases z (10 ^ 21)) as [Hlt | Hge]; [|exact Hge].
    assert (is_plain (Finite z) = true) by (apply is_plain_spec; now exists z).
    congruence. }
  cbn [number_toString]. unfold positive_toString.
  destruct (Z.ltb_spec z 0); [lia|]. destruct (Z.ltb_spec z (10 ^ 21)); [lia|].
  apply exponent_form_unreadable.
  destruct (shortest_spec z Hz Ez) as [Hm Em].
  destruct (Z.eq_dec (shortest z) 0) as [E0 | Hne]; [|lia].
  rewrite E0 in Em. cbn in Em. injection Em as <-. lia.
Qed.

(** What is left after the numeric field of an unreadable number. *)
Lemma unreadable_field (s tail : string) :
  unreadable s ->
  Semver.numeric_field (s ++ tail) = None
  \/ exists c r,
       Semver.numeric_field (s ++ tail) = Some (c, r)
       /\ Semver.suffix r = None
       /\ (Semver.period r = None
           \/ exists r', Semver.period r = Some r'
                         /\ match Semver.numeric_field r' with
                            | None => True
                            | Some (_, r'') => stuck r''
                            end).
Proof.
  intros [-> | (c & t & -> & Hc & Ht)]; [now left | right].
  cbn [append Semver.numeric_field].
  rewrite (nonzero_digit_not_zero c Hc), Hc.
  destruct Ht as [(u & ->) | (ds & u & -> & Hds)]; cbn [append span is_digit].
  - exists (String c EmptyString), (String "e" (u ++ tail)).
    split; [reflexivity|]. split; [reflexivity | now left].
  - exists (String c EmptyString), (String "." ((ds ++ String "e" u) ++ tail)).
    split; [reflexivity|]. split; [reflexivity | right].
    eexists. split; [reflexivity|].
    rewrite append_assoc. cbn [append]. now apply field_before_e.
Qed.

Lemma semver_match_digit (s : string) (c : ascii) (r : string) :
  s = String c r -> (c =? "v")%char = false ->
  Semver.semver_match s
  = match Semver.numeric_field s with
    | None => None
    | Some (mj, s1) =>
    match Semver.period s1 with
    | None => None
    | Some s2 =>
    match Semver.numeric_field s2 with
    | None => None
    | Some (mn, s3) =>
    match Semver.period s3 with
    | None => None
    | Some s4 =>
    match Semver.numeric_field s4 with
    | None => None
    | Some (pt, s5) =>
    match Semver.suffix s5 with
    | None => None
    | Some (pre, build) => Some (Semver.mkGroups mj mn pt pre build)
    end end end end end end.
Proof. intros -> H. unfold Semver.semver_match. now rewrite H. Qed.



Lemma unreadable_first (s tail : string) :
  unreadable s -> exists c r, s ++ tail = String c r /\ (c =? "v")%char = false.
Proof.
  intros [-> | (c & t & -> & Hc & _)].
  - now exists "I"%char, ("nfinity" ++ tail).
  - exists c, (t ++ tail). split; [reflexivity|].
    apply digit_not_v. now apply nonzero_digit_digit.
Qed.

(** The digits of an unreadable number in the place of the major, of the
    minor or of the patch number stop the pattern of [parse]. *)
Lemma semver_match_unreadable (s tail : string) :
  unreadable s -> Semver.semver_match (s ++ tail) = None.
Proof.
  intros Hs. destruct (unreadable_first s tail Hs) as (c & r & E & Hv).
  rewrite (semver_match_digit _ c r E Hv).
  destruct (unreadable_field s tail Hs) as [-> | (d & r1 & -> & _ & [-> | (r2 & -> & H)])];
    try reflexivity.
  destruct (Semver.numeric_field r2) as [[mn r3]|]; [|reflexivity].
  destruct H as [-> _]. reflexivity.
Qed.

Lemma semver_match_plain (x : number) (rest : string) :
  is_plain x = true ->
  Semver.semver_match (number_toString x ++ String "." rest)
  = match Semver.numeric_field rest with
    | None => None
    | Some (mn, s3) =>
    match Semver.period s3 with
    | None => None
    | Some s4 =>
    match Semver.numeric_field s4 with
    | None => None
    | Some (pt, s5) =>
    match Semver.suffix s5 with
    | None => None
    | Some (pre, build) => Some (Semver.mkGroups (number_toString x) mn pt pre build)
    end end end end.
Proof.
  intros Hx.
  destruct (numeric_field_number x (String "." rest) Hx eq_refl)
    as (ds & E & F & _ & (c & r & Ec & Hc)).
  rewrite E.
  rewrite (semver_match_digit (ds ++ String "." rest) c (r ++ String "." rest))
    by (rewrite ?Ec; (reflexivity || now apply digit_not_v)).
  now rewrite F.
Qed.

Lemma unreadable_minor (s tail : string) :
  unreadable s ->
  match Semver.numeric_field (s ++ tail) with
  | None => None
  | Some (mn, s3) =>
  match Semver.period s3 with
  | None => None
  | Some s4 =>
  match Semver.numeric_field s4 with
  | None => None
  | Some (pt, s5) =>
  match Semver.suffix s5 with
  | None => None
  | Some (pre, build) => Some (mn, pt, pre, build)
  end end end end = None.
Proof.
  intros Hs.
  destruct (unreadable_field s tail Hs) as [-> | (d & r1 & -> & _ & [-> | (r2 & -> & H)])];
    try reflexivity.
  destruct (Semver.numeric_field r2) as [[pt r3]|]; [|reflexivity].
  destruct H as [_ ->]. reflexivity.
Qed.

(** A version that [parse] gives and whose numbers do not all print in plain
    decimal is not read back from its [toString]. *)
Lemma parse_toString_not_plain (name : string) (v : SemanticVersion) :
  Semver.parse name = Some v -> plain_version v = false ->
  Semver.parse (Semver.toString v) = None.
Proof.
  intros H Hplain.
  destruct (parse_well_formed name v H) as (C1 & C2 & C3 & Hpre & Hbuild).
  destruct v as [M m p pre build]. cbn [major minor patch prerelease buildmetadata] in *.
  unfold plain_version in Hplain. cbn [major minor patch] in Hplain.
  rewrite (toString_shape M m p pre build Hpre Hbuild).
  unfold Semver.parse.
  destruct (is_plain M) eqn:EM.
  - rewrite (semver_match_plain M _ EM).
    destruct (is_plain m) eqn:Em.
    + destruct (numeric_field_number m (String "." (number_toString p ++ toString_suffix pre build))
                  Em eq_refl) as (dm & E & F & _).
      rewrite E, F. cbn [Semver.period Semver.is_period Ascii.eqb Bool.eqb].
      destruct (is_plain p) eqn:Ep; [discriminate|].
      destruct (unreadable_field _ (toString_suffix pre build)
                  (not_plain_unreadable p C3 Ep)) as [-> | (d & r1 & -> & -> & _)];
        reflexivity.
    + pose proof (unreadable_minor _ (String "." (number_toString p ++ toString_suffix pre build))
                    (not_plain_unreadable m C2 Em)) as Hm.
      destruct (Semver.numeric_field _) as [[mn s3]|]; [|reflexivity].
      destruct (Semver.period s3) as [s4|]; [|reflexivity].
      destruct (Semver.numeric_field s4) as [[pt s5]|]; [|reflexivity].
      destruct (Semver.suffix s5) as [[pre' build']|]; [discriminate | reflexivity].
  - now rewrite (semver_match_unreadable _ _ (not_plain_unreadable M C1 EM)).
Qed.


(** *** handle_release_candidates *)

Lemma getReleaseCandidates_names
    (git : SemanticVersion -> Result (list string))
    (gh : string -> SemanticVersion -> Result (list string))
    (token : string) (baseline : SemanticVersion) :
  Main.getReleaseCandidatesSinceLatestRelease git gh token baseline
  = Main.parse_all (release_candidate_names git gh token baseline).
Proof.
  unfold Main.getReleaseCandidatesSinceLatestRelease, release_candidate_names.
  destruct (git baseline) as [localResults|]; [|reflexivity].
  destruct localResults as [|x l]; [|reflexivity].
  cbn [List.length Z.of_nat Z.ltb Z.compare].
  destruct (truthy token); cbn [negb]; [|reflexivity].
  destruct (gh token baseline); reflexivity.
Qed.

Lemma bump_without_labels (v : SemanticVersion) (i : Impact) :
  exists b, Semver.bump v i None None = Ok b
            /\ prerelease b = None /\ buildmetadata b = None
            /\ (i = NOIMPACT -> major b = major v /\ minor b = minor v /\ patch b = patch v).
Proof.
  destruct i; eexists; (split; [reflexivity|]); repeat split; discriminate.
Qed.

Lemma strict_equal_eq (x y : number) : strict_equal x y = true -> x = y.
Proof.
  destruct x, y; cbn [strict_equal]; try discriminate; try reflexivity.
  intros H. apply Z.eqb_eq in H. now subst.
Qed.

Lemma same_numbers_plain (v base : SemanticVersion) :
  same_numbers v base = true -> plain_version base = true -> plain_version v = true.
Proof.
  unfold same_numbers, plain_version. intros H.
  apply andb_true_iff in H as [H H3]. apply andb_true_iff in H as [H1 H2].
  now rewrite (strict_equal_eq _ _ H1), (strict_equal_eq _ _ H2), (strict_equal_eq _ _ H3).
Qed.

(** A name that is printed again from the version it parses to counts for a
    base whose numbers print in plain decimal as the name itself does. *)
Lemma scan_tag_reprinted (base : SemanticVersion) (name : string) (v : SemanticVersion)
    (maxRc : number) :
  plain_version base = true -> Semver.parse name = Some v ->
  Semver.scan_tag base maxRc (Semver.toString v) = Semver.scan_tag base maxRc name.
Proof.
  intros Hbase E. destruct (plain_version v) eqn:Hv.
  - unfold Semver.scan_tag. now rewrite (parse_toString_parsed name v E Hv), E.
  - unfold Semver.scan_tag. rewrite (parse_toString_not_plain name v E Hv), E.
    fold (same_numbers v base).
    destruct (same_numbers v base) eqn:Hs; [|reflexivity].
    rewrite (same_numbers_plain v base Hs Hbase) in Hv. discriminate.
Qed.

(** Parsing the names and printing the versions again leaves the next rc index
    as it is on the names themselves, for a base whose numbers print in plain
    decimal. *)
Lemma nextRcIndex_reprinted (base : SemanticVersion) (names : list string) :
  plain_version base = true ->
  Semver.nextRcIndex base (map Semver.toString (Main.parse_all names))
  = Semver.nextRcIndex base names.
Proof.
  intros Hbase. unfold Semver.nextRcIndex. f_equal. generalize (Finite (-1)).
  induction names as [|name rest IH]; intros acc; [reflexivity|].
  cbn [Main.parse_all fold_left].
  destruct (Semver.parse name) as [v|] eqn:E.
  - cbn [map fold_left]. rewrite IH. f_equal. now apply scan_tag_reprinted.
  - rewrite IH. f_equal. unfold Semver.scan_tag. now rewrite E.
Qed.

(** C6, as amended: a merged pull request gives no prerelease,
    whatever its labels; an unmerged one with a label that reads
    [release-candidate] in lower case gives ["rc"] followed by the next rc
    index for the bumped version over the tag names of the providers, when
    the numbers of the bumped version print in plain decimal, and in every
    case over these names parsed and printed again; an unmerged one without
    such a label gives none.  With baseline 1.2.0, no impact and the tags
    [v1.2.0-rc.0] and [v1.2.0-rc.1], from either provider, the result is
    ["rc2"]. *)
Theorem handle_release_candidates_resolves :
  forall (git : SemanticVersion -> Result (list string))
         (gh : string -> SemanticVersion -> Result (list string))
         (token : string) (pr : PullRequest) (i : Impact) (last : SemanticVersion),
    (merged pr = true -> Main.handle_release_candidates git gh token pr i last = Ok None)
    /\ (merged pr = false ->
        (exists label, In label (labels pr) /\ toLowerCase label = "release-candidate") ->
        exists bumped_base,
          Semver.bump last i None None = Ok bumped_base
          /\ Main.handle_release_candidates git gh token pr i last
             = Ok (Some ("rc" ++ number_toString
                            (Semver.nextRcIndex bumped_base
                               (reprinted
                                  (release_candidate_names git gh token bumped_base)))))
          /\ (plain_version bumped_base = true ->
              Main.handle_release_candidates git gh token pr i last
              = Ok (Some ("rc" ++ number_toString
                             (Semver.nextRcIndex bumped_base
                                (release_candidate_names git gh token bumped_base))))))
    /\ (merged pr = false ->
        (forall label, In label (labels pr) -> toLowerCase label <> "release-candidate") ->
        Main.handle_release_candidates git gh token pr i last = Ok None)
    /\ Main.handle_release_candidates
         (fun _ => Ok ["v1.2.0-rc.0"; "v1.2.0-rc.1"]) gh token
         (labelled ["release-candidate"] false) NOIMPACT
         (mkSemanticVersion 1 2 0 None None)
       = Ok (Some "rc2")
    /\ Main.handle_release_candidates
         (fun _ => Ok ["v1.2.0-rc.0"; "v1.2.0-rc.1"]) gh token
         (labelled ["release-candidate"] true) NOIMPACT
         (mkSemanticVersion 1 2 0 None None)
       = Ok None
    /\ Main.handle_release_candidates
         (fun _ => Ok []) (fun _ _ => Ok ["v1.2.0-rc.0"; "v1.2.0-rc.1"]) "tok"
         (labelled ["Release-Candidate"] false) NOIMPACT
         (mkSemanticVersion 1 2 0 None None)
       = Ok (Some "rc2").
Proof.
  intros git gh token pr i last.
  split; [intros Hm; unfold Main.handle_release_candidates; now rewrite Hm|].
  split.
  { intros Hm (label & Hin & Hlabel).
    destruct (bump_without_labels last i) as (b & Hb & _).
    exists b. split; [exact Hb|].
    assert (E : Main.handle_release_candidates git gh token pr i last
                = Ok (Some ("rc" ++ number_toString
                               (Semver.nextRcIndex b
                                  (reprinted (release_candidate_names git gh token b)))))).
    { unfold Main.handle_release_candidates, reprinted. rewrite Hm, Hb.
      replace (existsb _ (labels pr)) with true.
      - now rewrite getReleaseCandidates_names.
      - symmetry. apply existsb_exists. exists label. split; [exact Hin|].
        now apply String.eqb_eq. }
    split; [exact E|]. intros Hplain. rewrite E. unfold reprinted.
    now rewrite nextRcIndex_reprinted. }
  split.
  { intros Hm Hnone. unfold Main.handle_release_candidates. rewrite Hm.
    replace (existsb _ (labels pr)) with false; [reflexivity|].
    symmetry. apply not_true_iff_false. intros H.
    apply existsb_exists in H as (label & Hin & Heq).
    apply String.eqb_eq in Heq. exact (Hnone label Hin Heq). }
  repeat split.
Qed.

Lemma handle_release_candidates_resolves_witness :
  Main.handle_release_candidates
    (fun _ => Ok ["v1.2.0-rc.0"; "v1.2.0-rc.1"]) (fun _ _ => Ok []) "tok"
    (labelled ["release-candidate"] false) NOIMPACT (mkSemanticVersion 1 2 0 None None)
  = Ok (Some ("rc" ++ number_toString
                 (Semver.nextRcIndex (mkSemanticVersion 1 2 0 None None)
                    ["v1.2.0-rc.0"; "v1.2.0-rc.1"]))).
Proof.
  destruct (proj1 (proj2 (handle_release_candidates_resolves
                            (fun _ => Ok ["v1.2.0-rc.0"; "v1.2.0-rc.1"]) (fun _ _ => Ok [])
                            "tok" (labelled ["release-candidate"] false) NOIMPACT
                            (mkSemanticVersion 1 2 0 None None)))
              eq_refl
              (ex_intro _ "release-candidate" (conj (or_introl eq_refl) eq_refl)))
    as (b & Hb & _ & H).
  cbn in Hb. injection Hb as <-. exact (H eq_refl).
Defined.

(** C6, counterexample: the code computes the next rc index over the names
    printed again from the parsed tags.  The latest release [10^21.0.0]
    prints as [1e+21.0.0], which [parse] does not read, so the tag
    [v1000000000000000000000.0.0-rc1] of the providers is lost and the
    result is ["rc0"], where the next rc index over the tag names is 2. *)
Lemma handle_release_candidates_loses_large_tags :
  Semver.parse "v1000000000000000000000.0.0"
  = Some (mkSemanticVersion (10 ^ 21) 0 0 None None)
  /\ Semver.bump (mkSemanticVersion (10 ^ 21) 0 0 None None) NOIMPACT None None
     = Ok (mkSemanticVersion (10 ^ 21) 0 0 None None)
  /\ Semver.nextRcIndex (mkSemanticVersion (10 ^ 21) 0 0 None None)
       ["v1000000000000000000000.0.0-rc1"] = 2
  /\ Main.handle_release_candidates
       (fun _ => Ok ["v1000000000000000000000.0.0-rc1"]) (fun _ _ => Ok []) "tok"
       (labelled ["release-candidate"] false) NOIMPACT
       (mkSemanticVersion (10 ^ 21) 0 0 None None)
     = Ok (Some "rc0").
Proof. repeat split; vm_compute; reflexivity. Qed.


(** *** Further properties of [src/semver.ts] *)

Lemma numeric_field_canonical (s ds rest : string) :
  Semver.numeric_field s = Some (ds, rest) -> canonical ds = true /\ s = ds ++ rest.
Proof.
  unfold Semver.numeric_field. destruct s as [|c s]; [discriminate|].
  destruct (c =? "0")%char eqn:E0.
  - intros H. injection H as <- <-. cbn. rewrite E0. split; reflexivity.
  - destruct (is_nonzero_digit c) eqn:Ec; [|discriminate].
    destruct (span is_digit s) as [a b] eqn:Es. intros H. injection H as <- <-.
    destruct (span_spec _ _ _ _ Es) as (-> & Ha & _).
    cbn [canonical append]. rewrite Ec, Ha, orb_true_r. split; reflexivity.
Qed.


Lemma suffix_printed (s : string) (pre build : option string) :
  Semver.suffix s = Some (pre, build) -> s = toString_suffix pre build.
Proof.
  assert (Hbuild : forall r b,
            match r with
            | EmptyString => Some None
            | String c b =>
                if (c =? "+")%char && Semver.buildmetadata_re b then Some (Some b) else None
            end = Some b ->
            r = match b with Some b => "+" ++ b | None => EmptyString end).
  { intros [|c r] b H; [now injection H as <-|].
    destruct ((c =? "+")%char && Semver.buildmetadata_re r) eqn:E; [|discriminate].
    injection H as <-. apply andb_true_iff in E as [E _]. apply Ascii.eqb_eq in E.
    now subst c. }
  unfold Semver.suffix, toString_suffix.
  assert (Hnone : match
                    match s with
                    | EmptyString => Some None
                    | String c b =>
                        if (c =? "+")%char && Semver.buildmetadata_re b
                        then Some (Some b) else None
                    end
                  with
                  | Some b => Some (None, b)
                  | None => None
                  end = Some (pre, build) ->
                  s = match pre with Some p => "-" ++ p | None => EmptyString end
                      ++ match build with Some b => "+" ++ b | None => EmptyString end).
  { destruct (match s with EmptyString => _ | String c b => _ end) as [b|] eqn:E;
      [|discriminate].
    intros H. injection H as <- <-. exact (Hbuild s b E). }
  destruct s as [|c r]; [exact Hnone|].
  destruct (c =? "-")%char eqn:Ec; [|exact Hnone].
  apply Ascii.eqb_eq in Ec. subst c.
  destruct (span Semver.is_prerelease_char r) as [p r'] eqn:Es.
  destruct (span_spec _ _ _ _ Es) as (-> & _ & _).
  destruct (Semver.prerelease_re p) eqn:Ep; [|discriminate].
  destruct (match r' with EmptyString => _ | String c0 b => _ end) as [b|] eqn:E;
    [|discriminate].
  intros H. injection H as <- <-. rewrite (Hbuild r' b E). reflexivity.
Qed.

(** The digits of a safe integer are those that are printed for it. *)
Lemma number_toString_parseInt (ds : string) :
  canonical ds = true -> is_numeric ds = true -> is_safe (parseInt ds) = true ->
  number_toString (parseInt ds) = ds.
Proof.
  intros Hc Hn Hs. apply is_safe_spec in Hs as (z & E & Hz).
  unfold parseInt in *. rewrite E.
  pose proof (to_double_exact _ z (digits_nonneg ds Hn) E (proj2 Hz)) as Hd.
  cbn [number_toString]. unfold positive_toString, shortest.
  assert (H21 : 2 ^ 53 < 10 ^ 21) by reflexivity.
  destruct (Z.ltb_spec z 0); [lia|].
  destruct (Z.ltb_spec z (10 ^ 21)); [|lia].
  destruct (Z.ltb_spec z (2 ^ 53)); [|lia].
  rewrite <- Hd. now apply decimal_digits.
Qed.

(** What [parse] reads is what [toString] prints, after an optional [v], when
    the numbers it reads are safe integers. *)
Lemma parse_printed (name : string) (v : SemanticVersion) :
  Semver.parse name = Some v -> safe_version v = true ->
  name = Semver.toString v \/ name = Semver.as_tag v.
Proof.
  intros Hparse Hsafe.
  unfold safe_version in Hsafe.
  apply andb_true_iff in Hsafe as [Hsafe S3]. apply andb_true_iff in Hsafe as [S1 S2].
  pose proof (parse_well_formed name v Hparse) as (_ & _ & _ & Hpre & Hbuild).
  revert Hparse S1 S2 S3. unfold Semver.parse, Semver.semver_match, Semver.as_tag.
  set (s := match name with EmptyString => name | String c rest => _ end).
  assert (Hs : name = s \/ name = "v" ++ s).
  { subst s. destruct name as [|c rest]; [now left|].
    destruct (c =? "v")%char eqn:E; [|now left].
    apply Ascii.eqb_eq in E. subst c. now right. }
  destruct (Semver.numeric_field s) as [[mj s1]|] eqn:E1; [|discriminate].
  destruct (Semver.period s1) as [s2|] eqn:P1; [|discriminate].
  destruct (Semver.numeric_field s2) as [[mn s3]|] eqn:E2; [|discriminate].
  destruct (Semver.period s3) as [s4|] eqn:P2; [|discriminate].
  destruct (Semver.numeric_field s4) as [[pt s5]|] eqn:E3; [|discriminate].
  destruct (Semver.suffix s5) as [[pre build]|] eqn:E4; [|discriminate].
  cbn [Semver.g_major Semver.g_minor Semver.g_patch Semver.g_prerelease
       Semver.g_buildmetadata].
  unfold Semver.new_SemanticVersion. cbn [truthy_opt andb].
  pose proof (numeric_field_numeric _ _ _ E1) as N1.
  pose proof (numeric_field_numeric _ _ _ E2) as N2.
  pose proof (numeric_field_numeric _ _ _ E3) as N3.
  apply numeric_field_canonical in E1 as [C1 ->], E2 as [C2 ->], E3 as [C3 ->].
  assert (Hperiod : forall a b, Semver.period a = Some b -> a = String "." b).
  { intros [|c a] b; [discriminate|]. unfold Semver.period, Semver.is_period.
    destruct (c =? ".")%char eqn:E; [|discriminate].
    apply Ascii.eqb_eq in E. subst c. now intros [= ->]. }
  apply Hperiod in P1, P2. subst s1 s3.
  destruct (suffix_valid _ _ _ E4) as [Vpre Vbuild].
  apply suffix_printed in E4. subst s5.
  assert (Tp : truthy_opt pre = match pre with Some _ => true | None => false end).
  { destruct pre as [p|]; [|reflexivity]. cbn. exact (proj2 (prerelease_re_chars p Vpre)). }
  assert (Tb : truthy_opt build = match build with Some _ => true | None => false end).
  { destruct build as [b|]; [|reflexivity]. cbn. exact (buildmetadata_re_truthy b Vbuild). }
  rewrite Tp, Tb.
  destruct pre as [p|], build as [b|]; cbn [major minor patch prerelease buildmetadata];
    intros H; injection H as <-; cbn [major minor patch]; intros S1 S2 S3;
    rewrite toString_shape by (cbn [absent_or]; auto);
    rewrite !number_toString_parseInt by assumption; exact Hs.
Qed.

Lemma toString_present (M m p : number) (pre build : option string) :
  Semver.toString (mkSemanticVersion M m p pre build)
  = Semver.toString (mkSemanticVersion M m p (present pre) (present build)).
Proof.
  unfold Semver.toString, present. cbn [major minor patch prerelease buildmetadata].
  destruct pre as [[|c p']|], build as [[|d b']|]; reflexivity.
Qed.

Lemma constructed_present (M m p : number) (pre build : option string) (v : SemanticVersion) :
  Semver.new_SemanticVersion M m p pre build = Ok v ->
  v = mkSemanticVersion M m p pre build
  /\ absent_or Semver.prerelease_re (present pre)
  /\ absent_or Semver.buildmetadata_re (present build).
Proof.
  unfold Semver.new_SemanticVersion, present.
  destruct pre as [[|c p']|]; cbn [truthy_opt truthy narrowed andb absent_or].
  1, 3: destruct build as [[|d b']|]; cbn [truthy_opt truthy narrowed andb absent_or];
        try (intros [= <-]; repeat split; exact I).
  1, 2: destruct (Semver.buildmetadata_re (String d b')) eqn:E; cbn [negb];
        [intros [= <-]; repeat split; assumption | discriminate].
  destruct (Semver.prerelease_re (String c p')) eqn:Ep; cbn [negb]; [|discriminate].
  destruct build as [[|d b']|]; cbn [truthy_opt truthy narrowed andb absent_or];
    try (intros [= <-]; repeat split; (assumption || exact I)).
  destruct (Semver.buildmetadata_re (String d b')) eqn:E; cbn [negb];
    [intros [= <-]; repeat split; assumption | discriminate].
Qed.

(** A [v] before a string that does not start with one is skipped. *)
Lemma semver_match_v (c : ascii) (r : string) :
  (c =? "v")%char = false ->
  Semver.semver_match (String "v" (String c r)) = Semver.semver_match (String c r).
Proof.
  intros H. unfold Semver.semver_match. cbn [Ascii.eqb Bool.eqb]. now rewrite H.
Qed.

(** What is printed for a version that [parse] gives does not start with
    [v]. *)
Lemma toString_first (v : SemanticVersion) :
  well_formed v ->
  exists c r, Semver.toString v = String c r /\ (c =? "v")%char = false.
Proof.
  intros (C1 & _ & _ & Hpre & Hbuild). destruct v as [M m p pre build].
  cbn [major minor patch prerelease buildmetadata] in *.
  rewrite (toString_shape M m p pre build Hpre Hbuild).
  destruct (is_plain M) eqn:EM.
  - destruct (plain_printed M EM) as (c & r & -> & Hall & _).
    exists c. eexists. split; [reflexivity|].
    cbn [all] in Hall. apply andb_true_iff in Hall as [Hc _]. now apply digit_not_v.
  - apply (unreadable_first _ _ (not_plain_unreadable M C1 EM)).
Qed.

(** The tag of a version that [parse] gives is read as its [toString] is. *)
Lemma parse_as_tag_toString (v : SemanticVersion) :
  well_formed v -> Semver.parse (Semver.as_tag v) = Semver.parse (Semver.toString v).
Proof.
  intros H. destruct (toString_first v H) as (c & r & E & Hc).
  unfold Semver.as_tag, Semver.parse. rewrite E. cbn [append].
  now rewrite semver_match_v.
Qed.

Lemma well_formed_plain (M m p : number) (pre build : option string) :
  is_plain M = true -> is_plain m = true -> is_plain p = true ->
  absent_or Semver.prerelease_re pre -> absent_or Semver.buildmetadata_re build ->
  well_formed (mkSemanticVersion M m p pre build).
Proof.
  assert (H : forall x, is_plain x = true -> counted x).
  { intros x Hx. apply is_plain_spec in Hx as (z & -> & Hz & E). exists z. split; [lia|].
    now rewrite E. }
  intros HM Hm Hp Hpre Hbuild. repeat split; auto.
Qed.

(** A tag is read back: the version without its falsy fields. *)
Lemma parse_as_tag (M m p : number) (pre build : option string) :
  is_plain M = true -> is_plain m = true -> is_plain p = true ->
  absent_or Semver.prerelease_re (present pre) ->
  absent_or Semver.buildmetadata_re (present build) ->
  Semver.parse (Semver.as_tag (mkSemanticVersion M m p pre build))
  = Some (mkSemanticVersion M m p (present pre) (present build))
  /\ Semver.parse (Semver.toString (mkSemanticVersion M m p pre build))
     = Some (mkSemanticVersion M m p (present pre) (present build)).
Proof.
  intros HM Hm Hp Hpre Hbuild.
  assert (E : Semver.parse (Semver.toString (mkSemanticVersion M m p pre build))
              = Some (mkSemanticVersion M m p (present pre) (present build))).
  { rewrite toString_present. now apply parse_toString. }
  split; [|exact E].
  unfold Semver.as_tag. rewrite toString_present.
  change (Semver.parse (Semver.as_tag (mkSemanticVersion M m p (present pre) (present build)))
          = Some (mkSemanticVersion M m p (present pre) (present build))).
  rewrite parse_as_tag_toString by now apply well_formed_plain.
  rewrite <- toString_present. exact E.
Qed.

Lemma split_no_separator (sep : ascii -> bool) (s : string) :
  all (fun c => negb (sep c)) s = true -> split sep s = [s].
Proof.
  induction s as [|c s IH]; cbn [all split]; [reflexivity|].
  intros H. apply andb_true_iff in H as [Hc Hs].
  apply negb_true_iff in Hc. now rewrite Hc, (IH Hs).
Qed.

Lemma digit_no_separator (c : ascii) :
  is_digit c = true -> negb (is_token_separator c) = true.
Proof. by_char c. Qed.

Lemma digit_no_period (c : ascii) : is_digit c = true -> negb (Semver.is_period c) = true.
Proof. by_char c. Qed.

(** The prerelease [rc<n>], for a number [n] that prints in plain decimal: one
    identifier, one token, of value [n]. *)
Lemma rc_prerelease (n : number) :
  is_plain n = true ->
  Semver.prerelease_re ("rc" ++ number_toString n) = true
  /\ token_values (tokens ("rc" ++ number_toString n)) = [n].
Proof.
  intros Hn. destruct (plain_printed n Hn) as (c & r & E & Hall & _ & Hval & _).
  rewrite E. split.
  - unfold Semver.prerelease_re.
    rewrite split_no_separator.
    + cbn [forallb andb append Semver.prerelease_identifier span is_digit in_range code
           N_of_ascii N_of_digits N.leb N.compare Pos.compare Pos.compare_cont andb orb
           Ascii.eqb Bool.eqb truthy negb is_nonzero_digit].
      cbn. rewrite andb_true_r. apply (all_impl _ _ _ digit_alnum Hall).
    + cbn [append all]. cbn [Semver.is_period Ascii.eqb Bool.eqb negb andb].
      apply (all_impl is_digit _ _ digit_no_period Hall).
  - unfold tokens. rewrite split_no_separator.
    + cbn [token_values hd_error]. unfold token_value.
      rewrite rc_number_inline. cbn [append Semver.match_rc_inline].
      cbn [Semver.is_r Semver.is_c Ascii.eqb Bool.eqb orb andb].
      unfold is_numeric. cbn [truthy]. rewrite Hall. cbn [andb option_map].
      now rewrite Hval.
    + cbn [append all]. cbn [is_token_separator Ascii.eqb Bool.eqb negb andb orb].
      apply (all_impl is_digit _ _ digit_no_separator Hall).
Qed.

(** The greatest value of a list is not below its start or any of its
    values. *)
Lemma fold_max_ge (a : number) (l : list number) :
  rc_value a -> Forall rc_value l ->
  at_most a (fold_right number_max a l)
  /\ forall x, In x l -> at_most x (fold_right number_max a l).
Proof.
  intros Ha Hl. induction Hl as [|y l Hy Hl [IH1 IH2]]; cbn [fold_right In].
  - split; [now apply at_most_refl | tauto].
  - pose proof (fold_max_rc_value a l Ha Hl) as Hf.
    destruct (number_max_at_most y (fold_right number_max a l) Hy Hf) as [M1 M2].
    pose proof (number_max_rc_value _ _ Hy Hf) as Hm.
    split; [exact (at_most_trans _ _ _ Ha Hf Hm IH1 M2)|].
    intros x [<- | H]; [exact M1|].
    assert (Hx : rc_value x) by (rewrite Forall_forall in Hl; now apply Hl).
    exact (at_most_trans _ _ _ Hx Hf Hm (IH2 x H) M2).
Qed.

Lemma fold_max_app (a : number) (l1 l2 : list number) :
  rc_value a -> Forall rc_value l1 -> Forall rc_value l2 ->
  fold_right number_max a (l1 ++ l2)%list
  = number_max (fold_right number_max a l1) (fold_right number_max a l2).
Proof.
  intros Ha H1 H2. pose proof (fold_max_rc_value a l2 Ha H2) as Hf2.
  induction H1 as [|x l1 Hx H1 IH]; cbn [app fold_right].
  - symmetry. apply number_max_right; [exact Ha | exact Hf2|].
    exact (proj1 (fold_max_ge a l2 Ha H2)).
  - rewrite IH. symmetry. apply number_max_assoc; [exact Hx | | exact Hf2].
    now apply fold_max_rc_value.
Qed.

Lemma accepted_values_app (base : SemanticVersion) (l1 l2 : list string) :
  accepted_values base (l1 ++ l2)%list
  = (accepted_values base l1 ++ accepted_values base l2)%list.
Proof. unfold accepted_values. apply flat_map_app. Qed.

Lemma same_numbers_refl (v : SemanticVersion) :
  plain_version v = true -> same_numbers v v = true.
Proof.
  assert (H : forall x, is_plain x = true -> strict_equal x x = true).
  { intros [z| | |]; try discriminate. intros _. apply Z.eqb_refl. }
  unfold plain_version, same_numbers. intros Hv.
  apply andb_true_iff in Hv as [Hv H3]. apply andb_true_iff in Hv as [H1 H2].
  now rewrite !H.
Qed.

(** The release candidate of number [n] for [base] is considered for it, with
    the one value [n]. *)
Lemma considered_release_candidate
    (base : SemanticVersion) (n : number) (build : option string) (v : SemanticVersion) :
  plain_version base = true -> is_plain n = true ->
  Semver.new_SemanticVersion (major base) (minor base) (patch base)
    (Some ("rc" ++ number_toString n)) build = Ok v ->
  accepted_values base [Semver.as_tag v] = [n]
  /\ accepted_values base [Semver.toString v] = [n].
Proof.
  intros Hbase Hn Hv.
  pose proof (same_numbers_refl base Hbase) as Hsame.
  unfold plain_version in Hbase.
  apply andb_true_iff in Hbase as [Hbase Hp]. apply andb_true_iff in Hbase as [HM Hm].
  destruct (constructed_present _ _ _ _ _ _ Hv) as (-> & Hpre & Hbuild).
  destruct (parse_as_tag _ _ _ _ _ HM Hm Hp Hpre Hbuild) as [E1 E2].
  destruct (rc_prerelease n Hn) as [Hre Htok].
  assert (Ht : truthy ("rc" ++ number_toString n) = true) by reflexivity.
  assert (Hp' : present (Some ("rc" ++ number_toString n)) = Some ("rc" ++ number_toString n))
    by reflexivity.
  unfold accepted_values, considered. cbn [flat_map]. rewrite E1, E2, Hp'.
  cbn [prerelease]. rewrite Ht.
  unfold same_numbers in *. cbn [major minor patch]. rewrite Hsame. cbn [andb].
  now rewrite Htok.
Qed.

Lemma nextRcIndex_rc_value (base : SemanticVersion) (tagNames : list string) :
  rc_value (Semver.nextRcIndex base tagNames)
  /\ at_most 0 (Semver.nextRcIndex base tagNames).
Proof.
  rewrite nextRcIndex_max.
  pose proof (fold_max_rc_value _ _ minus_one_rc_value
                (accepted_values_rc_values base tagNames)) as Hf.
  split; [now apply add_one_rc_value|].
  pose proof (proj1 (fold_max_ge _ _ minus_one_rc_value
                       (accepted_values_rc_values base tagNames))) as Hge.
  exact (add_one_mono _ _ minus_one_rc_value Hf Hge).
Qed.

Lemma accepted_values_incl (base : SemanticVersion) (l l' : list string) :
  incl l l' -> incl (accepted_values base l) (accepted_values base l').
Proof.
  unfold accepted_values. intros H n Hn.
  apply in_flat_map in Hn as (name & Hname & Hn).
  apply in_flat_map. exists name. split; [now apply H | exact Hn].
Qed.

Lemma fold_max_incl (a : number) (l l' : list number) :
  rc_value a -> Forall rc_value l -> Forall rc_value l' ->
  incl l l' -> at_most (fold_right number_max a l) (fold_right number_max a l').
Proof.
  intros Ha Hl Hl' H. pose proof (fold_max_rc_value a l' Ha Hl') as Hf'.
  induction Hl as [|x l Hx Hl IH]; cbn [fold_right].
  - exact (proj1 (fold_max_ge a l' Ha Hl')).
  - apply number_max_lub; [exact Hx | now apply fold_max_rc_value | exact Hf' | |].
    + apply (proj2 (fold_max_ge a l' Ha Hl')), H. now left.
    + apply IH. intros y Hy. apply H. now right.
Qed.

Lemma nextRcIndex_incl (base : SemanticVersion) (l l' : list string) :
  incl l l' -> at_most (Semver.nextRcIndex base l) (Semver.nextRcIndex base l').
Proof.
  intros H. rewrite !nextRcIndex_max.
  apply add_one_mono;
    [now apply fold_max_rc_value, accepted_values_rc_values; apply minus_one_rc_value
    |now apply fold_max_rc_value, accepted_values_rc_values; apply minus_one_rc_value|].
  apply fold_max_incl;
    [exact minus_one_rc_value | apply accepted_values_rc_values
    | apply accepted_values_rc_values | now apply accepted_values_incl].
Qed.

Lemma nextRcIndex_app (base : SemanticVersion) (l1 l2 : list string) :
  Semver.nextRcIndex base (l1 ++ l2)%list
  = number_max (Semver.nextRcIndex base l1) (Semver.nextRcIndex base l2).
Proof.
  rewrite !nextRcIndex_max, accepted_values_app.
  rewrite fold_max_app
    by (exact minus_one_rc_value || apply accepted_values_rc_values).
  apply add_one_max;
    apply fold_max_rc_value; (exact minus_one_rc_value || apply accepted_values_rc_values).
Qed.

(** X1: [parse] and the printed forms of the version it returns.  When the
    three numbers of the result are safe integers, the name is the
    [toString] of the result or its [as_tag].  When the three numbers print
    in plain decimal, both of these are parsed to the same result again; when
    one of them does not, neither of these is parsed at all. *)
Theorem parse_accepts_only_printed_forms :
  forall (name : string) (v : SemanticVersion),
    Semver.parse name = Some v ->
    (safe_version v = true -> name = Semver.toString v \/ name = Semver.as_tag v)
    /\ (plain_version v = true ->
        Semver.parse (Semver.toString v) = Some v
        /\ Semver.parse (Semver.as_tag v) = Some v)
    /\ (plain_version v = false ->
        Semver.parse (Semver.toString v) = None
        /\ Semver.parse (Semver.as_tag v) = None).
Proof.
  intros name v H. split; [now apply parse_printed|].
  pose proof (parse_well_formed name v H) as Hwf.
  rewrite (parse_as_tag_toString v Hwf).
  split; intros Hplain.
  - now rewrite (parse_toString_parsed name v H Hplain).
  - now rewrite (parse_toString_not_plain name v H Hplain).
Qed.

Lemma parse_accepts_only_printed_forms_witness :
  Semver.parse "v1.2.3-rc.1+build.5"
  = Some (mkSemanticVersion 1 2 3 (Some "rc.1") (Some "build.5"))
  /\ Semver.parse "1.2.3-rc.1+build.5"
     = Some (mkSemanticVersion 1 2 3 (Some "rc.1") (Some "build.5"))
  /\ ("v1.2.3-rc.1+build.5" = "1.2.3-rc.1+build.5"
      \/ "v1.2.3-rc.1+build.5" = "v1.2.3-rc.1+build.5").
Proof.
  assert (H : Semver.parse "v1.2.3-rc.1+build.5"
              = Some (mkSemanticVersion 1 2 3 (Some "rc.1") (Some "build.5")))
    by reflexivity.
  destruct (parse_accepts_only_printed_forms _ _ H) as (H1 & H2 & _).
  split; [exact H|]. split; [exact (proj1 (H2 eq_refl)) | exact (H1 eq_refl)].
Defined.

(** X2: a version that the constructor accepts, with numbers that print in
    plain decimal, is read back by [parse] from its tag and from its
    [toString]: with the same numbers, and with the prerelease and the
    buildmetadata it was built with, except that an empty string, which the
    constructor lets through, comes back as [undefined]. *)
Theorem tag_parses_back :
  forall (M m p : number) (pre build : option string) (v : SemanticVersion),
    is_plain M = true -> is_plain m = true -> is_plain p = true ->
    Semver.new_SemanticVersion M m p pre build = Ok v ->
    Semver.parse (Semver.as_tag v)
    = Some (mkSemanticVersion M m p (present pre) (present build))
    /\ Semver.parse (Semver.toString v)
       = Some (mkSemanticVersion M m p (present pre) (present build)).
Proof.
  intros M m p pre build v HM Hm Hp Hv.
  destruct (constructed_present _ _ _ _ _ _ Hv) as (-> & Hpre & Hbuild).
  now apply parse_as_tag.
Qed.

Lemma tag_parses_back_witness :
  Semver.as_tag (mkSemanticVersion 0 1 0 (Some "rc0") (Some "")) = "v0.1.0-rc0"
  /\ Semver.parse "v0.1.0-rc0" = Some (mkSemanticVersion 0 1 0 (Some "rc0") None).
Proof.
  split; [reflexivity|].
  exact (proj1 (tag_parses_back 0 1 0 (Some "rc0") (Some "")
                  (mkSemanticVersion 0 1 0 (Some "rc0") (Some ""))
                  eq_refl eq_refl eq_refl eq_refl)).
Defined.

Lemma bump_fields (v : SemanticVersion) (i : Impact) (pre build : option string)
    (b : SemanticVersion) :
  Semver.bump v i pre build = Ok b ->
  prerelease b = pre /\ buildmetadata b = build
  /\ match i with
     | MAJOR => major b = add (major v) 1 /\ minor b = 0 /\ patch b = 0
     | MINOR => major b = major v /\ minor b = add (minor v) 1 /\ patch b = 0
     | PATCH => major b = major v /\ minor b = minor v /\ patch b = add (patch v) 1
     | NOIMPACT => major b = major v /\ minor b = minor v /\ patch b = patch v
     end.
Proof.
  unfold Semver.bump. intros H.
  destruct i; apply constructed_present in H as (-> & _); cbn; repeat split.
Qed.

(** [compare] on versions with finite numbers. *)
Lemma compare_finite (lc : string -> string -> Z) (x1 x2 x3 y1 y2 y3 : Z)
    (p q b c : option string) :
  Semver.compare lc (mkSemanticVersion x1 x2 x3 p b) (mkSemanticVersion y1 y2 y3 q c)
  = if negb (x1 =? y1) then Finite (Z.sgn (x1 - y1))
    else if negb (x2 =? y2) then Finite (Z.sgn (x2 - y2))
    else if negb (x3 =? y3) then Finite (Z.sgn (x3 - y3))
    else Semver.comparePrerelease lc p q.
Proof.
  assert (Hd : forall x y, (x - y =? 0) = (x =? y)).
  { intros x y. destruct (Z.eqb_spec (x - y) 0), (Z.eqb_spec x y); lia || reflexivity. }
  unfold Semver.compare. cbn [major minor patch prerelease]. rewrite !sub_finite.
  destruct (to_double_sign (x1 - y1)) as [-> ->].
  destruct (to_double_sign (x2 - y2)) as [-> ->].
  destruct (to_double_sign (x3 - y3)) as [-> ->].
  now rewrite !Hd.
Qed.

(** The numbers of a safe version, and those of its bumps. *)
Lemma safe_version_fields (v : SemanticVersion) :
  safe_version v = true ->
  exists a b c,
    major v = Finite a /\ minor v = Finite b /\ patch v = Finite c
    /\ 0 <= a < 2 ^ 53 /\ 0 <= b < 2 ^ 53 /\ 0 <= c < 2 ^ 53
    /\ add (major v) 1 = Finite (a + 1) /\ add (minor v) 1 = Finite (b + 1)
    /\ add (patch v) 1 = Finite (c + 1).
Proof.
  unfold safe_version. intros H.
  apply andb_true_iff in H as [H H3]. apply andb_true_iff in H as [H1 H2].
  apply is_safe_spec in H1 as (a & -> & Ha), H2 as (b & -> & Hb), H3 as (c & -> & Hc).
  exists a, b, c. rewrite !add_one_safe by assumption. repeat split; lia.
Qed.

Ltac by_fields :=
  repeat match goal with
         | |- context [?x =? ?y] => destruct (Z.eqb_spec x y); cbn [negb]; try lia
         end;
  try (f_equal; lia).

(** X3: bumping one version, whose numbers are safe integers, by a greater
    impact gives a greater version, whatever prerelease and buildmetadata the
    two bumps attach: MAJOR over MINOR over PATCH over NOIMPACT. *)
Theorem bump_orders_by_impact :
  forall (lc : string -> string -> Z) (v : SemanticVersion) (i j : Impact)
         (pre build pre' build' : option string) (x y : SemanticVersion),
    safe_version v = true ->
    Semver.bump v i pre build = Ok x ->
    Semver.bump v j pre' build' = Ok y ->
    Impact_value i < Impact_value j ->
    Semver.compare lc x y = -1 /\ Semver.compare lc y x = 1.
Proof.
  intros lc v i j pre build pre' build' x y Hv Hx Hy Hij.
  destruct (safe_version_fields v Hv)
    as (a & b & c & EM & Em & Ep & Ha & Hb & Hc & AM & Am & Ap).
  apply bump_fields in Hx as (_ & _ & Hx), Hy as (_ & _ & Hy).
  rewrite AM, Am, Ap, EM, Em, Ep in Hx, Hy.
  destruct x as [x1 x2 x3 xp xb], y as [y1 y2 y3 yp yb].
  cbn [major minor patch] in Hx, Hy.
  destruct i, j; cbn in Hij; try lia;
    destruct Hx as (-> & -> & ->), Hy as (-> & -> & ->);
    rewrite !compare_finite; split; by_fields.
Qed.

Lemma bump_orders_by_impact_witness :
  Semver.bump (mkSemanticVersion 1 2 3 None None) PATCH (Some "rc1") None
  = Ok (mkSemanticVersion 1 2 4 (Some "rc1") None)
  /\ Semver.bump (mkSemanticVersion 1 2 3 None None) MINOR None None
     = Ok (mkSemanticVersion 1 3 0 None None)
  /\ Semver.compare ordinalCompare (mkSemanticVersion 1 2 4 (Some "rc1") None)
       (mkSemanticVersion 1 3 0 None None) = -1.
Proof.
  split; [reflexivity|]. split; [reflexivity|].
  exact (proj1 (bump_orders_by_impact ordinalCompare (mkSemanticVersion 1 2 3 None None)
                  PATCH MINOR (Some "rc1") None None None _ _ eq_refl eq_refl eq_refl
                  ltac:(reflexivity))).
Defined.

(** X4: a bump of a version whose numbers are safe integers that attaches no
    prerelease never gives a lower version than the one it starts from: the
    result is greater, except for NOIMPACT on a version that has no
    prerelease itself, where the two compare as equal. *)
Theorem bump_release_not_lower :
  forall (lc : string -> string -> Z) (v : SemanticVersion) (i : Impact)
         (build : option string) (b : SemanticVersion),
    safe_version v = true ->
    Semver.bump v i None build = Ok b ->
    Semver.compare lc b v
    = match i with
      | NOIMPACT => if truthy_opt (prerelease v) then 1 else 0
      | _ => 1
      end.
Proof.
  intros lc v i build b Hv H.
  destruct (safe_version_fields v Hv)
    as (x & y & z & EM & Em & Ep & Hx & Hy & Hz & AM & Am & Ap).
  apply bump_fields in H as (Hpre & _ & H).
  rewrite AM, Am, Ap in H.
  destruct v as [v1 v2 v3 vp vb], b as [b1 b2 b3 bp bb].
  cbn [major minor patch prerelease] in *. subst v1 v2 v3 bp.
  destruct i; destruct H as (-> & -> & ->); rewrite compare_finite; by_fields.
  unfold Semver.comparePrerelease. cbn [truthy_opt negb andb].
  now destruct (truthy_opt vp).
Qed.

Lemma bump_release_not_lower_witness :
  Semver.bump (mkSemanticVersion 1 2 3 (Some "rc1") None) NOIMPACT None None
  = Ok (mkSemanticVersion 1 2 3 None None)
  /\ Semver.compare ordinalCompare (mkSemanticVersion 1 2 3 None None)
       (mkSemanticVersion 1 2 3 (Some "rc1") None) = 1.
Proof.
  split; [reflexivity|].
  exact (bump_release_not_lower ordinalCompare (mkSemanticVersion 1 2 3 (Some "rc1") None)
           NOIMPACT None _ eq_refl eq_refl).
Defined.

(** A safe integer that is not below the next rc index is above every
    accepted value. *)
Lemma above_accepted (base : SemanticVersion) (names : list string) (n x : number) :
  is_safe n = true -> at_most (Semver.nextRcIndex base names) n ->
  In x (accepted_values base names) -> x <> n.
Proof.
  intros Hn Hle Hx ->.
  pose proof (accepted_values_rc_values base names) as Hl.
  pose proof (fold_max_rc_value _ _ minus_one_rc_value Hl) as Hf.
  pose proof (proj2 (fold_max_ge _ _ minus_one_rc_value Hl) n Hx) as Hge.
  rewrite nextRcIndex_max in Hle.
  apply is_safe_spec in Hn as (z & -> & Hz).
  unfold at_most in *.
  destruct (fold_right number_max (Finite (-1)) (accepted_values base names)) as [m| | |];
    cbn [rc_value] in Hf; try contradiction; [|discriminate].
  cbn [gt] in Hge. apply Z.ltb_ge in Hge.
  destruct (Z.lt_ge_cases m (2 ^ 53 - 1)) as [Hm | Hm].
  - rewrite add_one_exact in Hle by lia. cbn [gt] in Hle. apply Z.ltb_ge in Hle. lia.
  - cbn [add] in Hle. rewrite to_double_nonneg in Hle by lia.
    destruct (2 ^ 1024 <=? round_even (m + 1)); [discriminate|].
    cbn [gt] in Hle. apply Z.ltb_ge in Hle.
    pose proof (proj2 (proj2 (round_even_bounds (m + 1) ltac:(lia))) ltac:(lia)). lia.
Qed.

(** A release candidate whose number is a safe integer not below the next rc
    index over some names is none of these names. *)
Lemma rc_tag_fresh (base : SemanticVersion) (names : list string) (n : number)
    (build : option string) (v : SemanticVersion) :
  plain_version base = true -> is_safe n = true ->
  at_most (Semver.nextRcIndex base names) n ->
  Semver.new_SemanticVersion (major base) (minor base) (patch base)
    (Some ("rc" ++ number_toString n)) build = Ok v ->
  ~ In (Semver.as_tag v) names /\ ~ In (Semver.toString v) names.
Proof.
  intros Hbase Hn Hle Hv.
  destruct (considered_release_candidate base n build v Hbase (safe_plain n Hn) Hv)
    as [Etag Estr].
  assert (Hnew : forall name, accepted_values base [name] = [n] -> ~ In name names).
  { intros name E Hin.
    assert (Hincl : incl [name] names) by (intros x [<- | []]; exact Hin).
    apply (accepted_values_incl base) in Hincl. rewrite E in Hincl.
    exact (above_accepted base names n n Hn Hle (Hincl n (or_introl eq_refl)) eq_refl). }
  split; [exact (Hnew _ Etag) | exact (Hnew _ Estr)].
Qed.

(** X5: the release candidate that [nextRcIndex] numbers is new.  For a base
    version whose numbers print in plain decimal, and a next rc index [n]
    over the tag names that is a safe integer, the version with the
    prerelease [rc<n>] has a tag and a [toString] that are not among these
    names; and once its tag is among them, the next rc index is [n + 1]. *)
Theorem nextRcIndex_fresh :
  forall (base : SemanticVersion) (tagNames : list string) (build : option string)
         (v : SemanticVersion),
    plain_version base = true ->
    is_safe (Semver.nextRcIndex base tagNames) = true ->
    Semver.new_SemanticVersion (major base) (minor base) (patch base)
      (Some ("rc" ++ number_toString (Semver.nextRcIndex base tagNames))) build = Ok v ->
    ~ In (Semver.as_tag v) tagNames
    /\ ~ In (Semver.toString v) tagNames
    /\ Semver.nextRcIndex base (Semver.as_tag v :: tagNames)
       = add (Semver.nextRcIndex base tagNames) 1.
Proof.
  intros base tagNames build v Hbase Hn Hv.
  destruct (nextRcIndex_rc_value base tagNames) as [Hrc H0].
  destruct (rc_tag_fresh base tagNames _ build v Hbase Hn (at_most_refl _ Hrc) Hv)
    as [H1 H2].
  split; [exact H1|]. split; [exact H2|].
  destruct (considered_release_candidate base _ build v Hbase (safe_plain _ Hn) Hv)
    as [Etag _].
  change (Semver.as_tag v :: tagNames) with ([Semver.as_tag v] ++ tagNames)%list.
  rewrite nextRcIndex_app, (nextRcIndex_max base [Semver.as_tag v]), Etag.
  cbn [fold_right].
  apply is_safe_spec in Hn as (z & E & Hz). rewrite E.
  assert (Hmax : number_max (Finite z) (Finite (-1)) = Finite z) by (by_number).
  rewrite Hmax, add_one_safe by lia. by_number.
Qed.

Lemma nextRcIndex_fresh_witness :
  Semver.nextRcIndex (mkSemanticVersion 1 2 0 None None) ["v1.2.0-rc.0"; "v1.2.0-rc1"] = 2
  /\ ~ In "v1.2.0-rc2" ["v1.2.0-rc.0"; "v1.2.0-rc1"]
  /\ Semver.nextRcIndex (mkSemanticVersion 1 2 0 None None)
       ["v1.2.0-rc2"; "v1.2.0-rc.0"; "v1.2.0-rc1"] = 3.
Proof.
  split; [reflexivity|].
  pose proof (nextRcIndex_fresh (mkSemanticVersion 1 2 0 None None)
                ["v1.2.0-rc.0"; "v1.2.0-rc1"] (Some "")
                (mkSemanticVersion 1 2 0 (Some "rc2") (Some ""))
                eq_refl eq_refl eq_refl) as (H1 & _ & H3).
  split; [exact H1 | exact H3].
Defined.

(** X6: the next rc index depends on the tag names as a set, not on their
    order or on repetitions, and over two lists of names together it is the
    greater of the two indices. *)
Theorem nextRcIndex_order_independent :
  forall (base : SemanticVersion) (l l' more : list string),
    (forall name, In name l <-> In name l') ->
    Semver.nextRcIndex base l = Semver.nextRcIndex base l'
    /\ Semver.nextRcIndex base (l ++ more)%list
       = number_max (Semver.nextRcIndex base l') (Semver.nextRcIndex base more).
Proof.
  intros base l l' more H.
  assert (E : Semver.nextRcIndex base l = Semver.nextRcIndex base l').
  { apply at_most_antisym; try apply nextRcIndex_rc_value;
      apply nextRcIndex_incl; intros x Hx; now apply H. }
  split; [exact E|]. now rewrite nextRcIndex_app, E.
Qed.

Lemma nextRcIndex_order_independent_witness :
  Semver.nextRcIndex (mkSemanticVersion 2 0 0 None None) ["v2.0.0-rc2"; "v2.0.0-rc0"]
  = Semver.nextRcIndex (mkSemanticVersion 2 0 0 None None)
      ["v2.0.0-rc0"; "v2.0.0-rc2"; "v2.0.0-rc0"].
Proof.
  refine (proj1 (nextRcIndex_order_independent (mkSemanticVersion 2 0 0 None None)
                   ["v2.0.0-rc2"; "v2.0.0-rc0"] ["v2.0.0-rc0"; "v2.0.0-rc2"; "v2.0.0-rc0"]
                   [] _)).
  intros name. cbn [In]. tauto.
Defined.

(** *** [src/utils.ts]: filterRCTagsByBaseline *)

Lemma filter_filter_comm {A : Type} (p q : A -> bool) (l : list A) :
  filter p (filter q l) = filter q (filter p l).
Proof.
  induction l as [|x l IH]; cbn [filter]; [reflexivity|].
  destruct (q x) eqn:Eq, (p x) eqn:Ep; cbn [filter]; rewrite ?Eq, ?Ep; now rewrite IH.
Qed.

Lemma filter_filter_and {A : Type} (p q : A -> bool) (l : list A) :
  filter (fun x => p x && q x) l = filter q (filter p l).
Proof.
  induction l as [|x l IH]; cbn [filter]; [reflexivity|].
  destruct (p x); cbn [andb filter]; [destruct (q x)|]; now rewrite IH.
Qed.

Lemma first_occurrences_filter (q : string -> bool) (l : list string) :
  first_occurrences (filter q l) = filter q (first_occurrences l).
Proof.
  induction l as [|x l IH]; cbn [filter first_occurrences]; [reflexivity|].
  destruct (q x) eqn:Eq; cbn [first_occurrences filter]; rewrite ?Eq.
  - now rewrite IH, filter_filter_comm.
  - rewrite IH, <- filter_filter_and. apply filter_ext_in. intros y _.
    destruct (String.eqb_spec y x) as [-> | _]; cbn [negb]; [now rewrite Eq | now rewrite andb_true_l].
Qed.

Lemma first_occurrences_In (l : list string) (x : string) :
  In x (first_occurrences l) <-> In x l.
Proof.
  induction l as [|y l IH]; cbn [first_occurrences In]; [tauto|].
  rewrite filter_In, IH.
  destruct (String.eqb_spec x y) as [-> | Hne]; cbn [negb]; [tauto|].
  split; [tauto|]. intros [-> | H]; [now left | right; now split].
Qed.

Lemma first_occurrences_NoDup (l : list string) : NoDup (first_occurrences l).
Proof.
  induction l as [|y l IH]; cbn [first_occurrences]; constructor.
  - rewrite filter_In, String.eqb_refl. cbn [negb]. intros [_ H]. discriminate.
  - now apply NoDup_filter.
Qed.

(** The test that the loop of [filterRCTagsByBaseline] makes on a name. *)
Lemma filter_loop_step (lc : string -> string -> Z) (baseline : SemanticVersion)
    (name : string) (rest results seen : list string) :
  Utils.filter_loop lc baseline (name :: rest) results seen
  = if rc_candidate lc baseline name && negb (existsb (String.eqb name) seen)
    then Utils.filter_loop lc baseline rest (results ++ [name]) (name :: seen)
    else Utils.filter_loop lc baseline rest results seen.
Proof.
  cbn [Utils.filter_loop]. unfold rc_candidate.
  destruct (truthy name) eqn:Et; cbn [negb].
  - destruct (existsb (String.eqb name) seen); cbn [negb].
    + now rewrite andb_false_r.
    + rewrite andb_true_r. destruct (Semver.parse name) as [v|]; [|reflexivity].
      destruct (truthy_opt (prerelease v)); cbn [negb andb]; [|reflexivity].
      destruct (includes "rc" (toLowerCase (narrowed (prerelease v)))); cbn [negb andb];
        [|reflexivity].
      unfold same_numbers.
      destruct (le (Semver.compare lc v baseline) 0); cbn [andb orb negb].
      * now destruct (strict_equal (major v) (major baseline)
                      && strict_equal (minor v) (minor baseline)
                      && strict_equal (patch v) (patch baseline)).
      * reflexivity.
  - destruct name; [|discriminate]. reflexivity.
Qed.

Lemma filter_loop_spec (lc : string -> string -> Z) (baseline : SemanticVersion)
    (tags : list string) :
  forall results seen,
    Utils.filter_loop lc baseline tags results seen
    = (results
       ++ first_occurrences
            (filter (fun name => rc_candidate lc baseline name
                                 && negb (existsb (String.eqb name) seen)) tags))%list.
Proof.
  induction tags as [|name rest IH]; intros results seen.
  - cbn. now rewrite app_nil_r.
  - rewrite filter_loop_step. cbn [filter].
    destruct (rc_candidate lc baseline name && negb (existsb (String.eqb name) seen)) eqn:E.
    + rewrite IH, <- app_assoc. cbn [app first_occurrences]. do 2 f_equal.
      rewrite <- first_occurrences_filter, <- filter_filter_and. f_equal.
      apply filter_ext. intros y. cbn [existsb].
      rewrite (String.eqb_sym y name), negb_orb. 
      now rewrite <- andb_assoc, (andb_comm (negb (name =? y)%string)).
    + apply IH.
Qed.

Lemma filterRCTagsByBaseline_spec (lc : string -> string -> Z) (tags : list string)
    (baseline : SemanticVersion) :
  Utils.filterRCTagsByBaseline lc tags baseline
  = first_occurrences (filter (rc_candidate lc baseline) tags).
Proof.
  unfold Utils.filterRCTagsByBaseline. rewrite filter_loop_spec. cbn [app].
  f_equal. apply filter_ext. intros name. cbn [existsb negb]. apply andb_true_r.
Qed.

Lemma toLowerCase_app (a b : string) :
  toLowerCase (a ++ b) = toLowerCase a ++ toLowerCase b.
Proof. induction a as [|c a IH]; cbn [append toLowerCase]; [reflexivity | now rewrite IH]. Qed.

(** The pieces of [s.split(sep)]: the first is a prefix of [s], every piece
    is a part of [s]. *)
Lemma split_parts (sep : ascii -> bool) (s : string) :
  (exists x xs b, split sep s = x :: xs /\ s = x ++ b)
  /\ forall t, In t (split sep s) -> exists a b, s = a ++ t ++ b.
Proof.
  induction s as [|c s [(x & xs & b & E & Es) IH]]; cbn [split].
  - split.
    + now exists EmptyString, [], EmptyString.
    + intros t [<- | []]. now exists EmptyString, EmptyString.
  - destruct (sep c).
    + split.
      * now exists EmptyString, (split sep s), (String c s).
      * intros t [<- | H].
        -- now exists EmptyString, (String c s).
        -- destruct (IH t H) as (a & b' & ->). now exists (String c a), b'.
    + rewrite E. split.
      * exists (String c x), xs, b. split; [reflexivity|]. now rewrite Es at 1.
      * intros t [<- | H].
        -- exists EmptyString, b. cbn [append]. now rewrite Es at 1.
        -- destruct (IH t) as (a & b' & Ht); [rewrite E; now right|].
           exists (String c a), b'. cbn [append]. now rewrite Ht at 1.
Qed.

Lemma includes_part (needle a t b : string) :
  includes needle t = true -> includes needle (a ++ t ++ b) = true.
Proof. intros H. now apply includes_app_r, includes_app_l. Qed.

(** A token that contributes an rc value mentions [rc]. *)
Lemma token_value_mentions_rc (token : string) (next : option string) (n : number) :
  token_value token next = Some n -> includes "rc" (toLowerCase token) = true.
Proof.
  unfold token_value, rc_number. rewrite includes_unfold.
  destruct (strip_prefix "rc" (toLowerCase token)) as [ds|] eqn:E; [reflexivity|].
  destruct (String.eqb_spec (toLowerCase token) "rc") as [E' | _]; [|discriminate].
  rewrite E' in E. discriminate.
Qed.

Lemma token_values_mention_rc (tokens : list string) (n : number) :
  In n (token_values tokens) ->
  exists token, In token tokens /\ includes "rc" (toLowerCase token) = true.
Proof.
  induction tokens as [|token rest IH]; cbn [token_values]; [intros []|].
  destruct (token_value token (hd_error rest)) as [k|] eqn:E.
  - intros [_ | H].
    + exists token. split; [now left | exact (token_value_mentions_rc _ _ _ E)].
    + destruct (IH H) as (t & Ht & Hrc). exists t. split; [now right | exact Hrc].
  - intros H. destruct (IH H) as (t & Ht & Hrc). exists t. split; [now right | exact Hrc].
Qed.

(** A name that contributes an rc value for [baseline] passes the filter. *)
Lemma accepted_is_candidate (lc : string -> string -> Z) (baseline : SemanticVersion)
    (name : string) (n : number) :
  In n (accepted_values baseline [name]) -> rc_candidate lc baseline name = true.
Proof.
  unfold accepted_values, considered, rc_candidate. cbn [flat_map]. rewrite app_nil_r.
  destruct (Semver.parse name) as [v|]; [|intros []].
  destruct (prerelease v) as [p|]; [|intros []].
  destruct (truthy p && same_numbers v baseline) eqn:E; [|intros []].
  apply andb_true_iff in E as [Et Es].
  intros H. apply token_values_mention_rc in H as (token & Hin & Hrc).
  destruct (proj2 (split_parts is_token_separator p) token Hin) as (a & b & ->).
  cbn [truthy_opt narrowed]. rewrite Et, Es, orb_true_r, andb_true_r. cbn [andb].
  rewrite !toLowerCase_app. now apply includes_part.
Qed.

Lemma filter_idem {A : Type} (p : A -> bool) (l : list A) :
  filter p (filter p l) = filter p l.
Proof.
  induction l as [|x l IH]; cbn [filter]; [reflexivity|].
  destruct (p x) eqn:E; cbn [filter]; rewrite ?E; now rewrite IH.
Qed.

Lemma first_occurrences_idem (l : list string) :
  first_occurrences (first_occurrences l) = first_occurrences l.
Proof.
  induction l as [|x l IH]; cbn [first_occurrences]; [reflexivity|].
  now rewrite first_occurrences_filter, IH, filter_idem.
Qed.

(** X7: [filterRCTagsByBaseline] returns, in the order of the input, the first
    occurrence of every name that passes its test: the name parses, its
    prerelease mentions [rc] in some case, and its version does not compare
    as [<= 0] to the baseline or has the very numbers of the baseline.  So
    the result holds no name twice, holds exactly the names of the input that
    pass, and is left as it is by a second filtering.  Among versions with
    finite numbers, not to compare as [<= 0] is to be above the baseline;
    where [compare] gives NaN, as between two versions whose majors are both
    the infinity, the name is kept, be it below the baseline in its minor. *)
Theorem filterRCTagsByBaseline_first_candidates :
  forall (lc : string -> string -> Z) (tags : list string) (baseline : SemanticVersion),
    Utils.filterRCTagsByBaseline lc tags baseline
    = first_occurrences (filter (rc_candidate lc baseline) tags)
    /\ NoDup (Utils.filterRCTagsByBaseline lc tags baseline)
    /\ (forall name,
          In name (Utils.filterRCTagsByBaseline lc tags baseline)
          <-> In name tags /\ rc_candidate lc baseline name = true)
    /\ Utils.filterRCTagsByBaseline lc (Utils.filterRCTagsByBaseline lc tags baseline) baseline
       = Utils.filterRCTagsByBaseline lc tags baseline
    /\ (forall v, comparable v = true -> comparable baseline = true ->
                  negb (le (Semver.compare lc v baseline) 0)
                  = (0 <? version_order lc v baseline))
    /\ Utils.filterRCTagsByBaseline lc [huge_digits ++ ".0.0-rc1"]
         (mkSemanticVersion PosInfinity 1 0 None None)
       = [huge_digits ++ ".0.0-rc1"].
Proof.
  intros lc tags baseline.
  pose proof (fun l => filterRCTagsByBaseline_spec lc l baseline) as E.
  split; [apply E|]. split; [rewrite E; apply first_occurrences_NoDup|].
  split; [|split; [|split]].
  - intros name. now rewrite E, first_occurrences_In, filter_In.
  - now rewrite !E, first_occurrences_filter, first_occurrences_idem,
      <- first_occurrences_filter, filter_idem.
  - intros v Hv Hb. rewrite (compare_order lc v baseline Hv Hb).
    cbn [le gt negb]. now destruct (0 <? version_order lc v baseline).
  - vm_compute. reflexivity.
Qed.

(** The names that pass the test of the filter carry every rc value that
    counts for the baseline. *)
Lemma nextRcIndex_candidates (lc : string -> string -> Z) (tags : list string)
    (baseline : SemanticVersion) :
  Semver.nextRcIndex baseline (first_occurrences (filter (rc_candidate lc baseline) tags))
  = Semver.nextRcIndex baseline tags.
Proof.
  apply at_most_antisym; try apply nextRcIndex_rc_value.
  - apply nextRcIndex_incl. intros x Hx.
    apply first_occurrences_In, filter_In in Hx. tauto.
  - rewrite !nextRcIndex_max.
    apply add_one_mono;
      try (apply fold_max_rc_value;
           [exact minus_one_rc_value | apply accepted_values_rc_values]).
    apply fold_max_incl;
      [exact minus_one_rc_value | apply accepted_values_rc_values
      | apply accepted_values_rc_values |].
    intros n Hn. unfold accepted_values in Hn.
    apply in_flat_map in Hn as (name & Hname & Hn).
    assert (Hn' : In n (accepted_values baseline [name])).
    { unfold accepted_values. cbn [flat_map]. now rewrite app_nil_r. }
    pose proof (accepted_is_candidate lc baseline name n Hn') as Hc.
    unfold accepted_values. apply in_flat_map. exists name. split; [|exact Hn].
    apply first_occurrences_In, filter_In. now split.
Qed.

(** X8: filtering the tags by the baseline loses nothing that [nextRcIndex]
    looks at: the next rc index of the baseline over the filtered names is the
    one over all the names. *)
Theorem filterRCTagsByBaseline_keeps_rc_index :
  forall (lc : string -> string -> Z) (tags : list string) (baseline : SemanticVersion),
    Semver.nextRcIndex baseline (Utils.filterRCTagsByBaseline lc tags baseline)
    = Semver.nextRcIndex baseline tags.
Proof.
  intros lc tags baseline.
  rewrite filterRCTagsByBaseline_spec. apply nextRcIndex_candidates.
Qed.

(** *** [src/utils.ts]: LRUCache *)

Section CacheProperties.

Variable V : Type.

Lemma Map_has_delete (key k : string) (m : Utils.JsMap V) :
  Utils.Map_has V k (Utils.Map_delete V key m)
  = negb (k =? key)%string && Utils.Map_has V k m.
Proof.
  unfold Utils.Map_has, Utils.Map_delete.
  induction m as [|[k' v] m IH]; cbn [filter existsb fst]; [now rewrite andb_false_r|].
  destruct (String.eqb_spec k' key) as [-> | Hne]; cbn [negb existsb fst].
  - rewrite IH. destruct (String.eqb_spec k key) as [-> | Hk]; cbn [negb andb].
    + reflexivity.
    + destruct (String.eqb_spec key k); [congruence | reflexivity].
  - rewrite IH. destruct (String.eqb_spec k' k) as [-> | Hk]; cbn [orb].
    + destruct (String.eqb_spec k key); [congruence | reflexivity].
    + reflexivity.
Qed.

Lemma Map_get_delete (key k : string) (m : Utils.JsMap V) :
  Utils.Map_get V k (Utils.Map_delete V key m)
  = if (k =? key)%string then None else Utils.Map_get V k m.
Proof.
  unfold Utils.Map_get, Utils.Map_delete.
  induction m as [|[k' v] m IH]; cbn [filter find fst].
  - now destruct (k =? key)%string.
  - destruct (String.eqb_spec k' key) as [-> | Hne]; cbn [negb find fst].
    + rewrite IH. destruct (String.eqb_spec k key) as [-> | Hk]; [reflexivity|].
      destruct (String.eqb_spec key k); [congruence | reflexivity].
    + destruct (String.eqb_spec k' k) as [-> | Hk].
      * destruct (String.eqb_spec k key); [congruence | reflexivity].
      * exact IH.
Qed.

Lemma Map_has_app (k : string) (m m' : Utils.JsMap V) :
  Utils.Map_has V k (m ++ m')%list = Utils.Map_has V k m || Utils.Map_has V k m'.
Proof. apply existsb_app. Qed.

Lemma Map_get_app (k : string) (m m' : Utils.JsMap V) :
  Utils.Map_get V k (m ++ m')%list
  = if Utils.Map_has V k m then Utils.Map_get V k m else Utils.Map_get V k m'.
Proof.
  unfold Utils.Map_get, Utils.Map_has.
  induction m as [|[k' v] m IH]; cbn [app find existsb fst]; [reflexivity|].
  destruct (k' =? k)%string; [reflexivity | exact IH].
Qed.

Lemma Map_delete_absent (key : string) (m : Utils.JsMap V) :
  Utils.Map_has V key m = false -> Utils.Map_delete V key m = m.
Proof.
  unfold Utils.Map_delete, Utils.Map_has.
  induction m as [|[k' v] m IH]; cbn [filter existsb fst]; [reflexivity|].
  intros E. apply orb_false_iff in E as [E1 E2]. rewrite E1. cbn [negb]. now rewrite IH.
Qed.

Lemma Map_get_absent (key : string) (m : Utils.JsMap V) :
  Utils.Map_has V key m = false -> Utils.Map_get V key m = None.
Proof.
  unfold Utils.Map_get, Utils.Map_has.
  induction m as [|[k' v] m IH]; cbn [find existsb fst]; [reflexivity|].
  intros E. apply orb_false_iff in E as [E1 E2]. rewrite E1. now apply IH.
Qed.

(** What [LRUCache.set] leaves: the other entries and the new one at the end. *)
Lemma LRUCache_set_shape (key : string) (value : option V) (m : Utils.JsMap V) :
  Utils.LRUCache_set V key value m = (Utils.Map_delete V key m ++ [(key, value)])%list.
Proof.
  unfold Utils.LRUCache_set.
  assert (Hd : Utils.Map_has V key (Utils.Map_delete V key m) = false).
  { now rewrite Map_has_delete, String.eqb_refl. }
  destruct (Utils.Map_has V key m) eqn:E.
  - unfold Utils.Map_set. now rewrite Hd.
  - unfold Utils.Map_set. now rewrite E, (Map_delete_absent key m E).
Qed.

(** [LRUCache.get] as a lookup, and the map it leaves. *)
Lemma LRUCache_get_shape (key : string) (m : Utils.JsMap V) :
  Utils.LRUCache_get V key m
  = match Utils.Map_get V key m with
    | Some v => (Some v, (Utils.Map_delete V key m ++ [(key, Some v)])%list)
    | None => (None, m)
    end.
Proof.
  unfold Utils.LRUCache_get.
  destruct (Utils.Map_has V key m) eqn:E; cbn [negb].
  - destruct (Utils.Map_get V key m) as [v|]; [|reflexivity].
    unfold Utils.Map_set. now rewrite Map_has_delete, String.eqb_refl.
  - now rewrite (Map_get_absent key m E).
Qed.

Lemma Map_get_singleton (k key : string) (value : option V) :
  Utils.Map_get V k [(key, value)] = if (key =? k)%string then value else None.
Proof. unfold Utils.Map_get. cbn [find fst]. now destruct (key =? k)%string. Qed.

Lemma Map_has_singleton (k key : string) (value : option V) :
  Utils.Map_has V k [(key, value)] = (key =? k)%string.
Proof. unfold Utils.Map_has. cbn [existsb fst]. apply orb_false_r. Qed.

Lemma Map_get_set (k key : string) (value : option V) (m : Utils.JsMap V) :
  Utils.Map_get V k (Utils.LRUCache_set V key value m)
  = if (k =? key)%string then value else Utils.Map_get V k m.
Proof.
  rewrite LRUCache_set_shape, Map_get_app, Map_has_delete, Map_get_delete, Map_get_singleton.
  rewrite (String.eqb_sym key k).
  destruct (k =? key)%string; cbn [negb andb]; [reflexivity|].
  destruct (Utils.Map_has V k m) eqn:E; [reflexivity|].
  now rewrite (Map_get_absent k m E).
Qed.

Lemma Map_get_after_get (k key : string) (m : Utils.JsMap V) :
  Utils.Map_get V k (snd (Utils.LRUCache_get V key m)) = Utils.Map_get V k m.
Proof.
  rewrite LRUCache_get_shape.
  destruct (Utils.Map_get V key m) as [v|] eqn:E; cbn [snd]; [|reflexivity].
  rewrite <- LRUCache_set_shape, Map_get_set.
  destruct (String.eqb_spec k key) as [-> | _]; [now rewrite E | reflexivity].
Qed.

Lemma fst_get (key : string) (m : Utils.JsMap V) :
  fst (Utils.LRUCache_get V key m) = Utils.Map_get V key m.
Proof. rewrite LRUCache_get_shape. now destruct (Utils.Map_get V key m). Qed.

End CacheProperties.
Lemma keys_delete {V : Type} (key : string) (m : Utils.JsMap V) :
  keys (Utils.Map_delete V key m) = without key (keys m).
Proof.
  unfold keys, without, Utils.Map_delete.
  induction m as [|[k v] m IH]; cbn [filter map fst]; [reflexivity|].
  destruct (k =? key)%string; cbn [negb map fst]; now rewrite IH.
Qed.

Lemma NoDup_snoc (l : list string) (x : string) :
  NoDup l -> ~ In x l -> NoDup (l ++ [x]).
Proof.
  induction l as [|y l IH]; cbn [app]; intros Hl Hx.
  - constructor; [intros [] | constructor].
  - inversion Hl as [|? ? Hy Hl']; subst. constructor.
    + rewrite in_app_iff. intros [H | [-> | []]]; [now apply Hy | apply Hx; now left].
    + apply IH; [exact Hl' | intros H; apply Hx; now right].
Qed.

Lemma without_moved (key : string) (l : list string) :
  NoDup l -> NoDup (without key l ++ [key]).
Proof.
  intros H. apply NoDup_snoc.
  - now apply NoDup_filter.
  - unfold without. rewrite filter_In, String.eqb_refl. cbn [negb]. intros [_ E]. discriminate.
Qed.

(** X9: the cache as a store.  A key reads as the value last set for it, also
    when that value is [undefined]; setting or deleting one key leaves what
    the other keys read; a deleted key and any key of a new cache read as
    [undefined]; and reading a key changes what no key reads. *)
Theorem LRUCache_lookup_laws :
  forall (V : Type) (m : Utils.JsMap V) (key k : string) (value : option V),
    fst (Utils.LRUCache_get V k (Utils.LRUCache_set V key value m))
    = (if (k =? key)%string then value else fst (Utils.LRUCache_get V k m))
    /\ fst (Utils.LRUCache_get V k (Utils.LRUCache_delete V key m))
       = (if (k =? key)%string then None else fst (Utils.LRUCache_get V k m))
    /\ fst (Utils.LRUCache_get V k (snd (Utils.LRUCache_get V key m)))
       = fst (Utils.LRUCache_get V k m)
    /\ fst (Utils.LRUCache_get V k (Utils.LRUCache_new V)) = None.
Proof.
  intros V m key k value. rewrite !fst_get.
  split; [apply Map_get_set|]. split; [apply Map_get_delete|].
  split; [apply Map_get_after_get | reflexivity].
Qed.

(** X10: the cache as an order of use.  [set] moves its key to the end of the
    entries, and so does a [get] that finds a value; the other keys stay in
    the order they had, and none is dropped.  A [get] that returns
    [undefined], for a missing key or for a stored [undefined], leaves the map
    as it is.  A map with one entry for each key stays one under the three
    operations. *)
Theorem LRUCache_recency :
  forall (V : Type) (m : Utils.JsMap V) (key : string) (value : option V),
    NoDup (keys m) ->
    keys (Utils.LRUCache_set V key value m) = (without key (keys m) ++ [key])%list
    /\ snd (Utils.LRUCache_get V key m)
       = match fst (Utils.LRUCache_get V key m) with
         | Some v => (Utils.LRUCache_delete V key m ++ [(key, Some v)])%list
         | None => m
         end
    /\ keys (Utils.LRUCache_delete V key m) = without key (keys m)
    /\ NoDup (keys (Utils.LRUCache_set V key value m))
    /\ NoDup (keys (snd (Utils.LRUCache_get V key m)))
    /\ NoDup (keys (Utils.LRUCache_delete V key m)).
Proof.
  intros V m key value Hm.
  assert (Eset : forall v, keys (Utils.Map_delete V key m ++ [(key, v)])%list
                           = (without key (keys m) ++ [key])%list).
  { intros v. unfold keys at 1. rewrite map_app. cbn [map fst].
    now rewrite <- keys_delete. }
  split; [rewrite LRUCache_set_shape; apply Eset|].
  split.
  { rewrite LRUCache_get_shape. now destruct (Utils.Map_get V key m). }
  split; [apply keys_delete|].
  split; [rewrite LRUCache_set_shape, Eset; now apply without_moved|].
  split.
  - rewrite LRUCache_get_shape. destruct (Utils.Map_get V key m); cbn [snd]; [|exact Hm].
    rewrite Eset. now apply without_moved.
  - unfold Utils.LRUCache_delete. rewrite keys_delete. now apply NoDup_filter.
Qed.

Lemma LRUCache_recency_witness :
  keys (Utils.LRUCache_set nat "a" (Some 5%nat) [("a", Some 1%nat); ("b", Some 2%nat)])
  = ["b"; "a"]
  /\ snd (Utils.LRUCache_get nat "a" [("a", None); ("b", Some 2%nat)])
     = [("a", None); ("b", Some 2%nat)].
Proof.
  assert (H : NoDup (keys [("a", Some 1%nat); ("b", Some 2%nat)])).
  { repeat constructor; cbn; intuition discriminate. }
  assert (H' : NoDup (keys [("a", @None nat); ("b", Some 2%nat)])).
  { repeat constructor; cbn; intuition discriminate. }
  split.
  - exact (proj1 (LRUCache_recency nat _ "a" (Some 5%nat) H)).
  - exact (proj1 (proj2 (LRUCache_recency nat _ "a" None H'))).
Defined.

(** *** [src/semver.ts]: as_pep_440 *)

Lemma span_length (p : ascii -> bool) (s a b : string) :
  span p s = (a, b) -> (String.length b <= String.length s)%nat.
Proof.
  intros H. destruct (span_spec p s a b H) as (-> & _ & _). rewrite append_length. lia.
Qed.

(** Fuel beyond the length of the string changes nothing. *)
Lemma replace_words_fuel (f : string -> string -> string) (n : nat) :
  forall (m : nat) (s : string),
    (String.length s <= n)%nat -> (String.length s <= m)%nat ->
    Pep440.replace_words n f s = Pep440.replace_words m f s.
Proof.
  induction n as [|n IH]; intros [|m] [|c s] Hn Hm; cbn [String.length] in *;
    try lia; try reflexivity.
  cbn [Pep440.replace_words span].
  destruct (is_alpha c) eqn:Ec.
  - destruct (span is_alpha s) as [a r] eqn:E1.
    destruct (span is_digit r) as [p2 r'] eqn:E2.
    pose proof (span_length _ _ _ _ E1). pose proof (span_length _ _ _ _ E2).
    f_equal. apply IH; lia.
  - f_equal. apply IH; lia.
Qed.

Lemma replaced_word (f : string -> string -> string) (p1 p2 rest : string) :
  truthy p1 = true -> all is_alpha p1 = true -> all is_digit p2 = true ->
  stops is_alpha (p2 ++ rest) = true -> stops is_digit rest = true ->
  replaced f (p1 ++ p2 ++ rest) = f p1 p2 ++ replaced f rest.
Proof.
  intros Ht H1 H2 Hs1 Hs2. unfold replaced.
  destruct p1 as [|c p1]; [discriminate|].
  cbn [append String.length Pep440.replace_words].
  cbn [all] in H1. pose proof H1 as H1'. apply andb_true_iff in H1' as [Hc _]. rewrite Hc.
  change (String c (p1 ++ p2 ++ rest)) with (String c p1 ++ (p2 ++ rest)).
  rewrite (span_app is_alpha (String c p1) (p2 ++ rest) H1 Hs1).
  rewrite (span_app is_digit p2 rest H2 Hs2).
  f_equal. apply replace_words_fuel; [|lia].
  cbn [append String.length]. rewrite !append_length. lia.
Qed.

Lemma replaced_other (f : string -> string -> string) (c : ascii) (rest : string) :
  is_alpha c = false -> replaced f (String c rest) = String c (replaced f rest).
Proof. intros Hc. unfold replaced. cbn [String.length Pep440.replace_words]. now rewrite Hc. Qed.

Lemma digit_not_alpha (c : ascii) : is_digit c = true -> is_alpha c = false.
Proof. by_char c. Qed.

Lemma replaced_digits (f : string -> string -> string) (s : string) :
  all is_digit s = true -> replaced f s = s.
Proof.
  induction s as [|c s IH]; [reflexivity|]. cbn [all]. intros H.
  apply andb_true_iff in H as [Hc Hs].
  now rewrite (replaced_other f c s (digit_not_alpha c Hc)), IH.
Qed.

Lemma replace_hyphens_app (a b : string) :
  Pep440.replace_hyphens (a ++ b) = Pep440.replace_hyphens a ++ Pep440.replace_hyphens b.
Proof. induction a as [|c a IH]; cbn [append Pep440.replace_hyphens]; [reflexivity | now rewrite IH]. Qed.

Lemma replace_hyphens_none (s : string) :
  all (fun c => negb (c =? "-")%char) s = true -> Pep440.replace_hyphens s = s.
Proof.
  induction s as [|c s IH]; [reflexivity|]. cbn [all Pep440.replace_hyphens]. intros H.
  apply andb_true_iff in H as [Hc Hs]. apply negb_true_iff in Hc. now rewrite Hc, IH.
Qed.

Lemma alpha_not_hyphen (c : ascii) : is_alpha c = true -> negb (c =? "-")%char = true.
Proof. by_char c. Qed.

Lemma digit_not_hyphen (c : ascii) : is_digit c = true -> negb (c =? "-")%char = true.
Proof. by_char c. Qed.

Lemma stops_digits (p : ascii -> bool) (s rest : string) :
  (forall c, is_digit c = true -> p c = false) ->
  all is_digit s = true -> stops p rest = true -> stops p (s ++ rest) = true.
Proof.
  intros Hp Hs Hr. destruct s as [|c s]; [exact Hr|]. cbn [append stops].
  cbn [all] in Hs. apply andb_true_iff in Hs as [Hc _]. now rewrite (Hp c Hc).
Qed.

(** The PEP 440 form of a prerelease that is a label of letters, with a
    number right after it, after a period or after a hyphen, or alone. *)
Lemma as_pep_440_label (host : string -> string) (M m p : number) (build : option string)
    (label : string) (n : Z) :
  truthy label = true -> all is_alpha label = true -> 0 <= n ->
  let numbers := number_toString M ++ "." ++ number_toString m ++ "." ++ number_toString p in
  let pep pre := Pep440.as_pep_440 host (mkSemanticVersion M m p (Some pre) build) in
  pep (label ++ decimal n)
  = numbers ++ Pep440.replacement host label (decimal n)
  /\ pep (label ++ "." ++ decimal n)
     = numbers ++ Pep440.replacement host label EmptyString ++ "." ++ decimal n
  /\ pep (label ++ "-" ++ decimal n)
     = numbers ++ Pep440.replacement host label EmptyString ++ "." ++ decimal n
  /\ pep label = numbers ++ Pep440.replacement host label EmptyString.
Proof.
  intros Ht Hl Hn numbers pep.
  destruct (decimal_spec n Hn) as (c & r & E & Hall & _).
  set (ds := decimal n) in *.
  assert (Hlh : Pep440.replace_hyphens label = label)
    by exact (replace_hyphens_none label (all_impl _ _ _ alpha_not_hyphen Hl)).
  assert (Hdh : Pep440.replace_hyphens ds = ds).
  { rewrite E. apply replace_hyphens_none. exact (all_impl _ _ _ digit_not_hyphen Hall). }
  assert (Hds : all is_digit ds = true) by now rewrite E.
  assert (Htruthy : forall rest, truthy (label ++ rest) = true).
  { intros rest. destruct label; [discriminate | reflexivity]. }
  assert (Hpep : forall pre, truthy pre = true ->
             pep pre = numbers ++ replaced (Pep440.replacement host) (Pep440.replace_hyphens pre)).
  { intros pre Hp. subst pep numbers. unfold Pep440.as_pep_440.
    cbn [major minor patch prerelease truthy_opt narrowed]. rewrite Hp.
    unfold replaced. now rewrite !append_assoc. }
  assert (Hdotted : replaced (Pep440.replacement host) (label ++ "." ++ ds)
                    = Pep440.replacement host label EmptyString ++ "." ++ ds).
  { change (label ++ "." ++ ds) with (label ++ EmptyString ++ String "." ds).
    rewrite replaced_word by (auto; reflexivity).
    now rewrite replaced_other, replaced_digits by (auto; reflexivity). }
  split; [|split; [|split]].
  - rewrite Hpep by apply Htruthy. rewrite replace_hyphens_app, Hlh, Hdh.
    rewrite <- (append_empty_r ds) at 1.
    rewrite replaced_word; auto.
    + change (replaced (Pep440.replacement host) EmptyString) with EmptyString.
      now rewrite append_empty_r.
    + apply (stops_digits is_alpha ds EmptyString); auto.
      exact digit_not_alpha.
  - rewrite Hpep by apply Htruthy. rewrite !replace_hyphens_app, Hlh, Hdh.
    cbn [Pep440.replace_hyphens Ascii.eqb Bool.eqb]. now rewrite Hdotted.
  - rewrite Hpep by apply Htruthy. rewrite !replace_hyphens_app, Hlh, Hdh.
    cbn [Pep440.replace_hyphens Ascii.eqb Bool.eqb]. now rewrite Hdotted.
  - rewrite Hpep by exact Ht. rewrite Hlh.
    rewrite <- (append_empty_r label) at 1.
    change (label ++ EmptyString) with (label ++ EmptyString ++ EmptyString).
    rewrite replaced_word by (auto; reflexivity).
    change (replaced (Pep440.replacement host) EmptyString) with EmptyString.
    now rewrite append_empty_r.
Qed.

Lemma own_label (label abbreviation : string) :
  Pep440.own_property label Pep440.mapping = Some abbreviation ->
  truthy label = true /\ all is_alpha label = true
  /\ forall host p2, Pep440.replacement host label p2 = abbreviation ++ p2.
Proof.
  intros H. split; [|split].
  - destruct label; [discriminate | reflexivity].
  - unfold Pep440.own_property, Pep440.mapping in H.
    repeat match type of H with
           | (if (?k =? label)%string then _ else _) = _ =>
               destruct (String.eqb_spec k label) as [<- | _]; [reflexivity|]
           end.
    discriminate.
  - intros host p2. unfold Pep440.replacement. now rewrite H.
Qed.

(** X11: the PEP 440 form of a version whose prerelease is one of the labels
    [alpha], [beta] and [rc], alone or with a number right after it, after a
    period or after a hyphen: the three numbers, then the abbreviation of the
    label ([a], [b], [rc]) put where the label was, the number kept, a
    hyphen turned into a period and a period kept.  The buildmetadata is
    left out. *)
Theorem as_pep_440_known_labels :
  forall (host : string -> string) (M m p : number) (build : option string)
         (label abbreviation : string) (n : Z),
    Pep440.own_property label Pep440.mapping = Some abbreviation ->
    0 <= n ->
    let numbers := number_toString M ++ "." ++ number_toString m ++ "." ++ number_toString p in
    let pep pre := Pep440.as_pep_440 host (mkSemanticVersion M m p (Some pre) build) in
    pep (label ++ decimal n) = numbers ++ abbreviation ++ decimal n
    /\ pep (label ++ "." ++ decimal n)
       = numbers ++ abbreviation ++ "." ++ decimal n
    /\ pep (label ++ "-" ++ decimal n)
       = numbers ++ abbreviation ++ "." ++ decimal n
    /\ pep label = numbers ++ abbreviation.
Proof.
  intros host M m p build label abbreviation n Hown Hn numbers pep.
  destruct (own_label label abbreviation Hown) as (Ht & Hl & Hr).
  destruct (as_pep_440_label host M m p build label n Ht Hl Hn) as (H1 & H2 & H3 & H4).
  fold numbers in H1, H2, H3, H4. fold pep in H1, H2, H3, H4.
  rewrite Hr in H1, H2, H3, H4. rewrite append_empty_r in H2, H3, H4.
  now repeat split.
Qed.

Lemma as_pep_440_known_labels_witness :
  Pep440.as_pep_440 (fun _ => EmptyString) (mkSemanticVersion 1 2 3 (Some "rc4") (Some "b7"))
  = "1.2.3rc4"
  /\ Pep440.as_pep_440 (fun _ => EmptyString) (mkSemanticVersion 1 2 3 (Some "rc.4") (Some "b7"))
     = "1.2.3rc.4".
Proof.
  destruct (as_pep_440_known_labels (fun _ => EmptyString) 1 2 3 (Some "b7") "rc" "rc" 4
              eq_refl ltac:(lia)) as (H1 & H2 & _).
  split; [exact H1 | exact H2].
Defined.

(** X12: a label of letters that is none of [alpha], [beta] and [rc] is kept
    as it is in the PEP 440 form, unless it is the name of a member of
    [Object.prototype] ([constructor], [toString], [valueOf], ...), which the
    lookup in the object literal finds: then it is replaced by the text that
    the host gives for that member. *)
Theorem as_pep_440_other_labels :
  forall (host : string -> string) (M m p : number) (build : option string)
         (label : string) (n : Z),
    truthy label = true -> all is_alpha label = true ->
    Pep440.own_property label Pep440.mapping = None ->
    0 <= n ->
    let numbers := number_toString M ++ "." ++ number_toString m ++ "." ++ number_toString p in
    let pep pre := Pep440.as_pep_440 host (mkSemanticVersion M m p (Some pre) build) in
    let text := if existsb (String.eqb label) ConventionalCommits.Object_prototype
                then host label else label in
    pep (label ++ decimal n) = numbers ++ text ++ decimal n
    /\ pep (label ++ "." ++ decimal n) = numbers ++ text ++ "." ++ decimal n
    /\ pep (label ++ "-" ++ decimal n) = numbers ++ text ++ "." ++ decimal n
    /\ pep label = numbers ++ text.
Proof.
  intros host M m p build label n Ht Hl Hown Hn numbers pep text.
  destruct (as_pep_440_label host M m p build label n Ht Hl Hn) as (H1 & H2 & H3 & H4).
  fold numbers in H1, H2, H3, H4. fold pep in H1, H2, H3, H4.
  assert (Hr : forall p2, Pep440.replacement host label p2 = text ++ p2).
  { intros p2. unfold Pep440.replacement, text. rewrite Hown.
    now destruct (existsb (String.eqb label) ConventionalCommits.Object_prototype). }
  rewrite Hr in H1, H2, H3, H4. rewrite append_empty_r in H2, H3, H4.
  now repeat split.
Qed.

Lemma as_pep_440_other_labels_witness :
  Pep440.as_pep_440 (fun _ => "function Object() { [native code] }")
    (mkSemanticVersion 0 0 1 (Some "preview.5") None) = "0.0.1preview.5"
  /\ Pep440.as_pep_440 (fun _ => "function Object() { [native code] }")
       (mkSemanticVersion 1 0 0 (Some "constructor") None)
     = "1.0.0function Object() { [native code] }".
Proof.
  split.
  - exact (proj1 (proj2 (as_pep_440_other_labels
                           (fun _ => "function Object() { [native code] }") 0 0 1 None
                           "preview" 5 eq_refl eq_refl eq_refl ltac:(lia)))).
  - exact (proj2 (proj2 (proj2 (as_pep_440_other_labels
                           (fun _ => "function Object() { [native code] }") 1 0 0 None
                           "constructor" 0 eq_refl eq_refl eq_refl ltac:(lia))))).
Defined.

(** *** [src/git.ts] and [src/github.ts]: reading tags and commits *)

Import Text.

Lemma split_separator (sep : ascii -> bool) (a : string) (c : ascii) (b : string) :
  sep c = true -> split sep (a ++ String c b) = (split sep a ++ split sep b)%list.
Proof.
  intros Hc. induction a as [|x a IH]; cbn [append split app].
  - now rewrite Hc.
  - rewrite IH. destruct (sep x); [reflexivity|].
    destruct (split sep a) as [|y ys] eqn:E; [|reflexivity].
    destruct a; cbn [split] in E; [discriminate|].
    destruct (sep a); [discriminate|]. now destruct (split sep a0).
Qed.

Lemma lines_LF (a b : string) :
  lines (a ++ ConventionalCommits.LF ++ b) = (lines a ++ lines b)%list.
Proof. unfold lines. now apply split_separator. Qed.

Lemma lines_one (s : string) :
  all (fun c => negb (is_LF c)) s = true -> lines s = [s].
Proof. apply split_no_separator. Qed.

(** Joining the lines of a string gives the string back. *)
Lemma join_lines (s : string) : join ConventionalCommits.LF (lines s) = s.
Proof.
  unfold join, lines. induction s as [|c s IH]; [reflexivity|]. cbn [split].
  pose proof (split_nonempty is_LF s) as Hne.
  destruct (split is_LF s) as [|x xs] eqn:E; [congruence|].
  destruct (is_LF c) eqn:Ec.
  - assert (c = ascii_of_N 10) as ->.
    { unfold is_LF, code in Ec. apply N.eqb_eq in Ec.
      rewrite <- (ascii_N_embedding c). now rewrite Ec. }
    change (String.concat ConventionalCommits.LF (EmptyString :: x :: xs))
      with (String (ascii_of_N 10) (String.concat ConventionalCommits.LF (x :: xs))).
    now rewrite IH.
  - destruct xs as [|y ys].
    + cbn [String.concat] in *. now rewrite IH.
    + change (String.concat ConventionalCommits.LF (String c x :: y :: ys))
        with (String c (String.concat ConventionalCommits.LF (x :: y :: ys))).
      now rewrite IH.
Qed.

Lemma split_bars_none (s : string) :
  includes bars s = false -> split_bars s = [s].
Proof.
  induction s as [|a s IH]; [reflexivity|]. intros H.
  rewrite includes_unfold in H.
  destruct (strip_prefix bars (String a s)) as [r|] eqn:E; [discriminate|].
  specialize (IH H). cbn [split_bars].
  destruct s as [|b [|c r]]; try (rewrite IH; reflexivity).
  destruct (is_bar a && is_bar b && is_bar c) eqn:Eb; [|rewrite IH; reflexivity].
  apply andb_true_iff in Eb as [Eb Ec]. apply andb_true_iff in Eb as [Ea Eb].
  unfold is_bar in *. apply Ascii.eqb_eq in Ea, Eb, Ec. subst. discriminate.
Qed.

Lemma no_bar_no_bars (s rest : string) :
  all (fun c => negb (is_bar c)) s = true -> includes bars s = false.
Proof.
  induction s as [|a s IH]; [reflexivity|]. cbn [all]. intros H.
  apply andb_true_iff in H as [Ha Hs]. rewrite includes_unfold, (IH Hs).
  cbn [bars strip_prefix]. unfold is_bar in Ha. apply negb_true_iff in Ha.
  now rewrite Ascii.eqb_sym, Ha.
Qed.

(** A field without a bar, the separator, and more. *)
Lemma split_bars_field (a r : string) :
  all (fun c => negb (is_bar c)) a = true ->
  split_bars (a ++ bars ++ r) = a :: split_bars r.
Proof.
  induction a as [|x a IH]; intros H.
  - reflexivity.
  - cbn [all] in H. apply andb_true_iff in H as [Hx Ha]. apply negb_true_iff in Hx.
    specialize (IH Ha). cbn [append]. cbn [append] in IH.
    assert (E : split_bars (String x (a ++ bars ++ r))
                = match split_bars (a ++ bars ++ r) with
                  | [] => [String x EmptyString]
                  | y :: ys => String x y :: ys
                  end).
    { cbn [split_bars]. rewrite Hx. cbn [andb].
      destruct (a ++ bars ++ r) as [|b [|c t]]; reflexivity. }
    rewrite E, IH. reflexivity.
Qed.

Lemma trimStart_spaces (s : string) : trimStart s = EmptyString -> all is_space s = true.
Proof.
  induction s as [|c s IH]; [reflexivity|]. cbn [trimStart all].
  destruct (is_space c); [exact IH | discriminate].
Qed.

Lemma trimEnd_spaces (s : string) : trimEnd s = EmptyString -> all is_space s = true.
Proof.
  induction s as [|c s IH]; [reflexivity|]. cbn [trimEnd all].
  destruct (trimEnd s) as [|x t]; [|discriminate].
  destruct (is_space c); [intros _; now apply IH | discriminate].
Qed.

Lemma trimStart_suffix (s : string) : exists a, s = a ++ trimStart s /\ all is_space a = true.
Proof.
  induction s as [|c s (a & E & Ha)]; [now exists EmptyString|]. cbn [trimStart].
  destruct (is_space c) eqn:Ec.
  - exists (String c a). cbn [append all]. rewrite Ec, Ha. split; [now rewrite <- E | reflexivity].
  - now exists EmptyString.
Qed.

Lemma trim_spaces (s : string) : trim s = EmptyString -> all is_space s = true.
Proof.
  unfold trim. intros H. apply trimEnd_spaces in H.
  destruct (trimStart_suffix s) as (a & E & Ha). rewrite E, all_app, Ha. exact H.
Qed.

(** A line that holds a bar is not blank. *)
Lemma filled_bar (a b : string) :
  (0 <? Z.of_nat (String.length (trim (a ++ bars ++ b)))) = true.
Proof.
  destruct (trim (a ++ bars ++ b)) as [|c t] eqn:E; [|reflexivity].
  apply trim_spaces in E. rewrite all_app in E. cbn [bars append all] in E.
  apply andb_true_iff in E as [_ E]. discriminate.
Qed.

Lemma clean_spec (s : string) :
  clean s = true ->
  all (fun c => negb (is_bar c)) s = true /\ all (fun c => negb (is_LF c)) s = true
  /\ trim s = s.
Proof.
  unfold clean. intros H. apply andb_true_iff in H as [H Ht]. apply String.eqb_eq in Ht.
  split; [|split; [|exact Ht]].
  - eapply all_impl; [|exact H]. intros c Hc. cbn beta in Hc.
    apply negb_true_iff, orb_false_iff in Hc as [Hc _]. now rewrite Hc.
  - eapply all_impl; [|exact H]. intros c Hc. cbn beta in Hc.
    apply negb_true_iff, orb_false_iff in Hc as [_ Hc]. now rewrite Hc.
Qed.
Lemma filled_lines_empty : Git.filled_lines EmptyString = [].
Proof. reflexivity. Qed.

Lemma filled_lines_LF (a b : string) :
  Git.filled_lines (a ++ ConventionalCommits.LF ++ b)
  = (Git.filled_lines a ++ Git.filled_lines b)%list.
Proof. unfold Git.filled_lines. now rewrite lines_LF, filter_app. Qed.

(** The filled lines of entries that are joined by line feeds. *)
Lemma filled_lines_join {A : Type} (g : A -> string) (es : list A) :
  Git.filled_lines (join ConventionalCommits.LF (map g es))
  = flat_map (fun e => Git.filled_lines (g e)) es.
Proof.
  induction es as [|e es IH]; [reflexivity|].
  destruct es as [|e' es].
  - cbn [map join String.concat flat_map]. now rewrite app_nil_r.
  - change (join ConventionalCommits.LF (map g (e :: e' :: es)))
      with (g e ++ ConventionalCommits.LF ++ join ConventionalCommits.LF (map g (e' :: es))).
    rewrite filled_lines_LF, IH. reflexivity.
Qed.

Lemma commits_of_lines_app (l1 l2 : list string) :
  Git.commits_of_lines (l1 ++ l2)
  = (Git.commits_of_lines l1 ++ Git.commits_of_lines l2)%list.
Proof.
  induction l1 as [|x l1 IH]; cbn [app Git.commits_of_lines]; [reflexivity|].
  destruct (Git.commit_of_line x); cbn [app]; now rewrite IH.
Qed.

Lemma tags_of_lines_app (l1 l2 : list string) :
  Git.tags_of_lines (l1 ++ l2) = (Git.tags_of_lines l1 ++ Git.tags_of_lines l2)%list.
Proof.
  induction l1 as [|x l1 IH]; cbn [app Git.tags_of_lines]; [reflexivity|].
  destruct (Git.tag_of_line x); cbn [app]; now rewrite IH.
Qed.

Lemma filled_line (s : string) :
  all (fun c => negb (is_LF c)) s = true ->
  (0 <? Z.of_nat (String.length (trim s))) = true ->
  Git.filled_lines s = [s].
Proof.
  intros H1 H2. unfold Git.filled_lines. rewrite (lines_one s H1). cbn [filter].
  now rewrite H2.
Qed.

Lemma bars_no_LF : all (fun c => negb (is_LF c)) bars = true.
Proof. reflexivity. Qed.

(** One line of the list of tags gives its tag back. *)
Lemma tag_of_tag_line (t : Tag) :
  clean_tag t = true ->
  Git.filled_lines (tag_line t) = [tag_line t]
  /\ Git.tag_of_line (tag_line t) = Some t.
Proof.
  unfold clean_tag. intros H. apply andb_true_iff in H as [Hn Hs].
  apply clean_spec in Hn as (Hn1 & Hn2 & Hn3), Hs as (Hs1 & Hs2 & Hs3).
  split.
  - apply filled_line; [|apply filled_bar].
    unfold tag_line. now rewrite !all_app, Hn2, Hs2.
  - unfold Git.tag_of_line, tag_line.
    rewrite (split_bars_field _ _ Hn1), (split_bars_none _ (no_bar_no_bars _ EmptyString Hs1)).
    cbn [List.length nth Z.of_nat Z.leb Z.compare Pos.compare Pos.compare_cont Pos.of_succ_nat
         Pos.succ].
    rewrite Hn3, Hs3. now destruct t.
Qed.

Lemma tags_of_log (tags : list Tag) :
  forallb clean_tag tags = true ->
  Git.tags_of_lines (Git.filled_lines (join ConventionalCommits.LF (map tag_line tags)))
  = tags.
Proof.
  intros H. rewrite filled_lines_join.
  induction tags as [|t tags IH]; [reflexivity|].
  cbn [forallb] in H. apply andb_true_iff in H as [Ht H].
  cbn [flat_map]. rewrite tags_of_lines_app.
  destruct (tag_of_tag_line t Ht) as [E1 E2]. rewrite E1.
  cbn [Git.tags_of_lines]. rewrite E2. cbn [app]. now rewrite IH.
Qed.

(** X13: [getTags] reads back what [git for-each-ref] prints under its format:
    for tags whose names and hashes hold no bar and no line feed and have no
    white space at their ends, the lines [name|||hash] joined by line feeds
    give the very tags, in their order. *)
Theorem getTags_reads_tag_lines :
  forall (execGitCommand : list string -> Result (option string)) (tags : list Tag),
    forallb clean_tag tags = true ->
    execGitCommand ["for-each-ref"; "--sort=-version:refname";
                    "--format=%(refname:short)|||%(objectname)"; "refs/tags"]
    = Ok (Some (join ConventionalCommits.LF (map tag_line tags))) ->
    Git.getTags execGitCommand = tags.
Proof.
  intros exec tags Hclean Hexec. unfold Git.getTags. rewrite Hexec.
  cbn [truthy_opt narrowed].
  pose proof (tags_of_log tags Hclean) as E.
  destruct (truthy (join ConventionalCommits.LF (map tag_line tags))) eqn:Et; cbn [negb].
  - exact E.
  - destruct (join ConventionalCommits.LF (map tag_line tags)); [|discriminate].
    now rewrite filled_lines_empty in E.
Qed.

Lemma getTags_reads_tag_lines_witness :
  Git.getTags
    (fun _ => Ok (Some ("v1.0.0|||1f3a" ++ ConventionalCommits.LF ++ "v1.1.0-rc.0|||9bc2")))
  = [mkTag "v1.0.0" "1f3a"; mkTag "v1.1.0-rc.0" "9bc2"].
Proof.
  exact (getTags_reads_tag_lines
           (fun _ => Ok (Some (join ConventionalCommits.LF
                                 (map tag_line [mkTag "v1.0.0" "1f3a";
                                                mkTag "v1.1.0-rc.0" "9bc2"]))))
           [mkTag "v1.0.0" "1f3a"; mkTag "v1.1.0-rc.0" "9bc2"] eq_refl eq_refl).
Defined.

(** A name that [parse] reads ends with the prerelease and the buildmetadata
    of the version, as they are printed. *)
Lemma parse_suffix (name : string) (v : SemanticVersion) :
  Semver.parse name = Some v ->
  exists a, name = a ++ toString_suffix (prerelease v) (buildmetadata v).
Proof.
  unfold Semver.parse, Semver.semver_match.
  set (s := match name with EmptyString => name | String c rest => _ end).
  assert (Hs : exists h, name = h ++ s).
  { subst s. destruct name as [|c rest]; [now exists EmptyString|].
    destruct (c =? "v")%char eqn:E; [|now exists EmptyString].
    now exists (String c EmptyString). }
  destruct Hs as (h & Hs).
  destruct (Semver.numeric_field s) as [[mj s1]|] eqn:E1; [|discriminate].
  destruct (Semver.period s1) as [s2|] eqn:P1; [|discriminate].
  destruct (Semver.numeric_field s2) as [[mn s3]|] eqn:E2; [|discriminate].
  destruct (Semver.period s3) as [s4|] eqn:P2; [|discriminate].
  destruct (Semver.numeric_field s4) as [[pt s5]|] eqn:E3; [|discriminate].
  destruct (Semver.suffix s5) as [[pre build]|] eqn:E4; [|discriminate].
  cbn [Semver.g_major Semver.g_minor Semver.g_patch Semver.g_prerelease
       Semver.g_buildmetadata].
  unfold Semver.new_SemanticVersion. cbn [truthy_opt andb].
  apply numeric_field_canonical in E1 as [_ ->], E2 as [_ ->], E3 as [_ ->].
  assert (Hperiod : forall a b, Semver.period a = Some b -> a = String "." b).
  { intros [|c a] b; [discriminate|]. unfold Semver.period, Semver.is_period.
    destruct (c =? ".")%char eqn:E; [|discriminate].
    apply Ascii.eqb_eq in E. subst c. now intros [= ->]. }
  apply Hperiod in P1, P2. subst s1 s3.
  destruct (suffix_valid _ _ _ E4) as [Vpre Vbuild].
  apply suffix_printed in E4. subst s5.
  assert (Tp : truthy_opt pre = match pre with Some _ => true | None => false end).
  { destruct pre as [p|]; [|reflexivity]. cbn. exact (proj2 (prerelease_re_chars p Vpre)). }
  assert (Tb : truthy_opt build = match build with Some _ => true | None => false end).
  { destruct build as [b|]; [|reflexivity]. cbn. exact (buildmetadata_re_truthy b Vbuild). }
  rewrite Tp, Tb.
  exists (h ++ mj ++ String "." (mn ++ String "." pt)).
  destruct pre as [p|], build as [b|]; cbn [major minor patch prerelease buildmetadata] in *;
    injection H as <-; cbn [prerelease buildmetadata]; rewrite Hs;
    match goal with |- context [toString_suffix ?x ?y] => generalize (toString_suffix x y) end;
    intros t; repeat (rewrite append_assoc; cbn [append]); reflexivity.
Qed.

(** A name that passes the filter mentions [rc] itself. *)
Lemma candidate_mentions_rc (lc : string -> string -> Z) (baseline : SemanticVersion)
    (name : string) :
  rc_candidate lc baseline name = true -> includes "rc" (toLowerCase name) = true.
Proof.
  unfold rc_candidate. destruct (Semver.parse name) as [v|] eqn:E; [|discriminate].
  intros H. apply andb_true_iff in H as [H _]. apply andb_true_iff in H as [Ht Hrc].
  destruct (parse_suffix name v E) as (a & ->).
  destruct (prerelease v) as [s|]; [|discriminate]. cbn [narrowed] in Hrc.
  assert (E' : a ++ toString_suffix (Some s) (buildmetadata v)
               = (a ++ "-") ++ s
                 ++ match buildmetadata v with Some b => "+" ++ b | None => EmptyString end).
  { unfold toString_suffix. repeat (rewrite append_assoc; cbn [append]). reflexivity. }
  rewrite E', !toLowerCase_app. now apply includes_part.
Qed.

Lemma filter_map {A B : Type} (f : A -> B) (p : B -> bool) (l : list A) :
  filter p (map f l) = map f (filter (fun x => p (f x)) l).
Proof.
  induction l as [|x l IH]; cbn [map filter]; [reflexivity|].
  destruct (p (f x)); cbn [map]; now rewrite IH.
Qed.

(** The release candidates of the local repository, in the words of the
    test of the filter. *)
Lemma git_candidates_spec (execGitCommand : list string -> Result (option string))
    (lc : string -> string -> Z) (baseline : SemanticVersion) :
  Git.getReleaseCandidates execGitCommand lc baseline
  = first_occurrences
      (filter (rc_candidate lc baseline) (map tag_name (Git.getTags execGitCommand))).
Proof.
  unfold Git.getReleaseCandidates.
  set (allTags := Git.getTags execGitCommand).
  set (localRCs := filter (fun tag => includes "rc" (toLowerCase (tag_name tag))) allTags).
  assert (E : filter (rc_candidate lc baseline) (map tag_name localRCs)
              = filter (rc_candidate lc baseline) (map tag_name allTags)).
  { subst localRCs.
    rewrite <- (filter_map tag_name (fun n => includes "rc" (toLowerCase n))).
    rewrite <- filter_filter_and. apply filter_ext. intros name.
    destruct (includes "rc" (toLowerCase name)) eqn:Hrc; [apply andb_true_l|].
    cbn [andb]. destruct (rc_candidate lc baseline name) eqn:Hc; [|reflexivity].
    apply candidate_mentions_rc in Hc. congruence. }
  rewrite filterRCTagsByBaseline_spec, E.
  destruct (Z.eqb_spec (Z.of_nat (List.length localRCs)) 0) as [H0 | _]; [|reflexivity].
  destruct localRCs; [|discriminate]. cbn [map filter] in E. now rewrite <- E.
Qed.

(** X14: [getReleaseCandidates] of [src/git.ts] returns what
    [filterRCTagsByBaseline] returns on the names of all the tags of
    [getTags]: the selection it makes first, of the tags whose names mention
    [rc], drops no tag that the filter would let through.  So the next rc
    index of the baseline over its result is the one over all the tags. *)
Theorem git_getReleaseCandidates_filters_all_tags :
  forall (execGitCommand : list string -> Result (option string))
         (lc : string -> string -> Z) (baseline : SemanticVersion),
    Git.getReleaseCandidates execGitCommand lc baseline
    = Utils.filterRCTagsByBaseline lc (map tag_name (Git.getTags execGitCommand)) baseline
    /\ Semver.nextRcIndex baseline (Git.getReleaseCandidates execGitCommand lc baseline)
       = Semver.nextRcIndex baseline (map tag_name (Git.getTags execGitCommand)).
Proof.
  intros exec lc baseline. split.
  - now rewrite git_candidates_spec, filterRCTagsByBaseline_spec.
  - rewrite git_candidates_spec. apply nextRcIndex_candidates.
Qed.

(** A line without the separator gives no commit. *)
Lemma commit_of_line_none (line : string) :
  includes bars line = false -> Git.commit_of_line line = None.
Proof.
  intros H. unfold Git.commit_of_line. now rewrite (split_bars_none line H).
Qed.

Lemma includes_part_false (needle a t b : string) :
  includes needle (a ++ t ++ b) = false -> includes needle t = false.
Proof.
  intros H. destruct (includes needle t) eqn:E; [|reflexivity].
  now rewrite (includes_part needle a t b E) in H.
Qed.

(** Lines that hold no separator give no commit. *)
Lemma commits_of_more (more : string) :
  includes bars more = false ->
  Git.commits_of_lines (Git.filled_lines more) = [].
Proof.
  intros H. unfold Git.filled_lines.
  assert (Hl : forall line, In line (lines more) -> includes bars line = false).
  { intros line Hin. destruct (proj2 (split_parts is_LF more) line Hin) as (a & b & E).
    rewrite E in H. exact (includes_part_false _ _ _ _ H). }
  induction (lines more) as [|line rest IH]; [reflexivity|].
  cbn [filter].
  assert (IH' : Git.commits_of_lines
                  (filter (fun line => 0 <? Z.of_nat (String.length (trim line))) rest) = []).
  { apply IH. intros l Hl'. apply Hl. now right. }
  destruct (0 <? Z.of_nat (String.length (trim line))); [|exact IH'].
  cbn [Git.commits_of_lines]. rewrite (commit_of_line_none line); [exact IH'|].
  apply Hl. now left.
Qed.

(** The first line of an entry of the log gives its commit back. *)
Lemma commit_of_entry_line (c : Commit) :
  clean (sha c) = true -> clean (commit_title c) = true ->
  match commit_body c with Some b => clean b && truthy b | None => true end = true ->
  let line := sha c ++ bars ++ commit_title c ++ bars
              ++ match commit_body c with Some b => b | None => EmptyString end in
  Git.filled_lines line = [line] /\ Git.commit_of_line line = Some c.
Proof.
  intros Hs Ht Hb line.
  apply clean_spec in Hs as (Hs1 & Hs2 & Hs3), Ht as (Ht1 & Ht2 & Ht3).
  set (body := match commit_body c with Some b => b | None => EmptyString end) in *.
  assert (Hbody : all (fun c => negb (is_bar c)) body = true
                  /\ all (fun c => negb (is_LF c)) body = true /\ trim body = body).
  { subst body. destruct (commit_body c) as [b|]; [|repeat split].
    apply andb_true_iff in Hb as [Hb _]. now apply clean_spec. }
  destruct Hbody as (Hb1 & Hb2 & Hb3).
  split.
  - apply filled_line; [|apply filled_bar].
    subst line. now rewrite !all_app, Hs2, Ht2, Hb2.
  - unfold Git.commit_of_line. subst line.
    rewrite (split_bars_field _ _ Hs1), (split_bars_field _ _ Ht1),
      (split_bars_none _ (no_bar_no_bars _ EmptyString Hb1)).
    cbn [List.length nth Z.of_nat Z.leb Z.ltb Z.compare Pos.compare Pos.compare_cont
         Pos.of_succ_nat Pos.succ].
    rewrite Hs3, Ht3, Hb3. cbn [truthy_opt narrowed].
    destruct c as [s t [b|]]; cbn [commit_body sha commit_title] in *; subst body.
    + apply andb_true_iff in Hb as [_ Hb]. rewrite Hb. cbn [andb].
      destruct b; [discriminate | reflexivity].
    + reflexivity.
Qed.

Lemma commits_of_entry (e : Commit * option string) :
  clean_entry e = true ->
  Git.commits_of_lines (Git.filled_lines (log_entry e)) = [fst e].
Proof.
  unfold clean_entry. intros H.
  apply andb_true_iff in H as [H Hmore]. apply andb_true_iff in H as [H Hb].
  apply andb_true_iff in H as [Hs Ht].
  destruct (commit_of_entry_line (fst e) Hs Ht Hb) as [E1 E2].
  unfold log_entry. destruct (snd e) as [more|].
  - apply negb_true_iff in Hmore.
    replace (sha (fst e) ++ bars ++ commit_title (fst e) ++ bars
             ++ match commit_body (fst e) with Some b => b | None => EmptyString end
             ++ ConventionalCommits.LF ++ more)
      with ((sha (fst e) ++ bars ++ commit_title (fst e) ++ bars
             ++ match commit_body (fst e) with Some b => b | None => EmptyString end)
            ++ ConventionalCommits.LF ++ more)
      by (now rewrite !append_assoc).
    rewrite filled_lines_LF, commits_of_lines_app, E1, (commits_of_more more Hmore).
    cbn [Git.commits_of_lines]. now rewrite E2.
  - rewrite append_empty_r, E1. cbn [Git.commits_of_lines]. now rewrite E2.
Qed.

(** X15: [getCommits] reads the log of [git log --pretty=format:%H|||%s|||%b]
    entry by entry, and of a body it keeps the first line only.  For commits
    whose hash, subject and first body line hold no bar and no line feed and
    have no white space at their ends, each printed with any further body
    lines that hold no [|||], it returns these commits with their first body
    line as body ([undefined] when that line is empty): the further lines are
    dropped. *)
Theorem getCommits_keeps_first_body_line :
  forall (execGitCommand : list string -> Result (option string))
         (baseRef headRef : string) (entries : list (Commit * option string)),
    forallb clean_entry entries = true ->
    execGitCommand ["log"; "--pretty=format:%H|||%s|||%b"; "--no-merges";
                    baseRef ++ ".." ++ headRef]
    = Ok (Some (join ConventionalCommits.LF (map log_entry entries))) ->
    Git.getCommits execGitCommand baseRef headRef = map fst entries.
Proof.
  intros exec baseRef headRef entries Hclean Hexec. unfold Git.getCommits. rewrite Hexec.
  cbn [truthy_opt narrowed].
  assert (E : Git.commits_of_lines
                (Git.filled_lines (join ConventionalCommits.LF (map log_entry entries)))
              = map fst entries).
  { rewrite filled_lines_join. clear Hexec.
    induction entries as [|e entries IH]; [reflexivity|].
    cbn [forallb] in Hclean. apply andb_true_iff in Hclean as [He Hclean].
    cbn [flat_map map]. now rewrite commits_of_lines_app, (commits_of_entry e He), IH. }
  destruct (truthy (join ConventionalCommits.LF (map log_entry entries))) eqn:Et; cbn [negb].
  - exact E.
  - destruct (join ConventionalCommits.LF (map log_entry entries)); [|discriminate].
    now rewrite filled_lines_empty in E.
Qed.

Lemma getCommits_keeps_first_body_line_witness :
  Git.getCommits
    (fun _ => Ok (Some ("1f3a|||fix: a|||first line" ++ ConventionalCommits.LF
                        ++ ConventionalCommits.LF ++ "BREAKING CHANGE: b")))
    "main" "topic"
  = [mkCommit "1f3a" "fix: a" (Some "first line")]
  /\ option_map impact
       (ConventionalCommits.getConventionalImpact
          (Main.of_commit (mkCommit "1f3a" "fix: a" (Some "first line"))))
     = Some (ImpactValue PATCH).
Proof.
  split; [|reflexivity].
  exact (getCommits_keeps_first_body_line
           (fun _ => Ok (Some (join ConventionalCommits.LF
                                 (map log_entry
                                    [(mkCommit "1f3a" "fix: a" (Some "first line"),
                                      Some (ConventionalCommits.LF ++ "BREAKING CHANGE: b"))]))))
           "main" "topic"
           [(mkCommit "1f3a" "fix: a" (Some "first line"),
             Some (ConventionalCommits.LF ++ "BREAKING CHANGE: b"))]
           eq_refl eq_refl).
Defined.
(** X16: [parseCommit] cuts a commit message at its first line feed: the
    title is the text before it, and the body is all the text after it, with
    its further line feeds, trimmed.  A message of one line has the empty
    string as body, and an entry without message has an empty title and no
    body. *)
Theorem parseCommit_cuts_at_first_line_feed :
  forall (sha title rest : string),
    all (fun c => negb (is_LF c)) title = true ->
    Github.parseCommit sha (Some (title ++ ConventionalCommits.LF ++ rest))
    = mkCommit sha title (Some (trim rest))
    /\ Github.parseCommit sha (Some title)
       = mkCommit sha title (if truthy title then Some EmptyString else None)
    /\ Github.parseCommit sha None = mkCommit sha EmptyString None.
Proof.
  intros sha title rest Htitle. split; [|split; [|reflexivity]].
  - unfold Github.parseCommit.
    assert (Ht : truthy (title ++ ConventionalCommits.LF ++ rest) = true)
      by (destruct title; reflexivity).
    rewrite Ht, lines_LF, (lines_one title Htitle). cbn [app nth tl].
    now rewrite join_lines.
  - unfold Github.parseCommit. destruct (truthy title) eqn:Et.
    + now rewrite (lines_one title Htitle).
    + destruct title; [reflexivity | discriminate].
Qed.

Lemma parseCommit_cuts_at_first_line_feed_witness :
  Github.parseCommit "1f3a"
    (Some ("fix: a" ++ ConventionalCommits.LF ++ ConventionalCommits.LF
           ++ "first line" ++ ConventionalCommits.LF ++ ConventionalCommits.LF
           ++ "BREAKING CHANGE: b"))
  = mkCommit "1f3a" "fix: a"
      (Some ("first line" ++ ConventionalCommits.LF ++ ConventionalCommits.LF
             ++ "BREAKING CHANGE: b"))
  /\ option_map impact
       (ConventionalCommits.getConventionalImpact
          (Main.of_commit
             (mkCommit "1f3a" "fix: a"
                (Some ("first line" ++ ConventionalCommits.LF ++ ConventionalCommits.LF
                       ++ "BREAKING CHANGE: b")))))
     = Some (ImpactValue MAJOR).
Proof.
  split; [|reflexivity].
  exact (proj1 (parseCommit_cuts_at_first_line_feed "1f3a" "fix: a"
                  (ConventionalCommits.LF ++ "first line" ++ ConventionalCommits.LF
                   ++ ConventionalCommits.LF ++ "BREAKING CHANGE: b") eq_refl)).
Defined.

(** The first element that a filter keeps. *)
Lemma filter_first {A : Type} (f : A -> bool) (l : list A) (x : A) (rest : list A) :
  filter f l = x :: rest ->
  exists pre post,
    l = (pre ++ x :: post)%list /\ f x = true /\ forall y, In y pre -> f y = false.
Proof.
  induction l as [|a l IH]; cbn [filter]; [discriminate|].
  destruct (f a) eqn:Ea.
  - intros [= -> _]. exists [], l. repeat split; [assumption | intros y []].
  - intros H. destruct (IH H) as (pre & post & -> & Hx & Hpre).
    exists (a :: pre), post. repeat split; [assumption|].
    intros y [<- | Hy]; [assumption | now apply Hpre].
Qed.

Lemma blank_length (s : string) :
  (0 <? Z.of_nat (String.length s)) = false <-> s = EmptyString.
Proof.
  destruct s; cbn [String.length]; split; try reflexivity; try discriminate.
Qed.

(** The first filled line of a text, in the words of its lines. *)
Lemma first_filled_line (text tag : string) :
  hd_error (Git.filled_lines text) = Some tag ->
  exists pre post,
    lines text = (pre ++ tag :: post)%list
    /\ trim tag <> EmptyString
    /\ forall line, In line pre -> trim line = EmptyString.
Proof.
  destruct (Git.filled_lines text) as [|first rest] eqn:Ef; [discriminate|].
  intros [= ->]. destruct (filter_first _ _ _ _ Ef) as (pre & post & El & Hx & Hpre).
  exists pre, post. split; [exact El|]. split.
  - intros Hb. rewrite Hb in Hx. discriminate.
  - intros line Hl. now apply blank_length, Hpre.
Qed.

(** The latest local tag when [git describe] gives nothing. *)
Lemma getLatestTagLocal_fallback (execGitCommand : list string -> Result (option string)) :
  execGitCommand ["describe"; "--tags"; "--abbrev=0"] = Ok None
  \/ execGitCommand ["describe"; "--tags"; "--abbrev=0"] = Ok (Some EmptyString) ->
  Git.getLatestTagLocal execGitCommand
  = match execGitCommand ["tag"; "-l"; "--sort=-version:refname"] with
    | Ok (Some allTags) => hd_error (Git.filled_lines allTags)
    | _ => None
    end.
Proof.
  intros H. unfold Git.getLatestTagLocal.
  assert (E : match execGitCommand ["describe"; "--tags"; "--abbrev=0"] with
              | Ok result => truthy_opt result
              | Throw _ => true
              end = false) by (destruct H as [-> | ->]; reflexivity).
  destruct (execGitCommand ["describe"; "--tags"; "--abbrev=0"]) as [result|];
    [|discriminate].
  rewrite E.
  destruct (execGitCommand ["tag"; "-l"; "--sort=-version:refname"]) as [[allTags|]|];
    try reflexivity.
  cbn [truthy_opt narrowed]. destruct allTags as [|c r]; [reflexivity|].
  cbn [truthy]. now destruct (Git.filled_lines (String c r)).
Qed.

(** X26: the latest local tag is the answer of [git describe] when that is
    not empty: then it is returned as it is, and the list of tags is not
    looked at.  When [git describe] gives nothing, or the empty string, the
    latest local tag is the first line of the list of tags that holds more
    than white space, as it stands in the list, and there is none when the
    list has no such line or cannot be had.  When [git describe] is rejected
    there is none.  So the latest local tag is never the empty string, and it
    comes from the list only when [git describe] gave nothing. *)
Theorem getLatestTagLocal_first_filled_line :
  forall (execGitCommand : list string -> Result (option string)),
    (forall tag otherwise,
        tag <> EmptyString ->
        execGitCommand ["describe"; "--tags"; "--abbrev=0"] = Ok (Some tag) ->
        Git.getLatestTagLocal execGitCommand = Some tag
        /\ Git.getLatestTagLocal
             (fun args => if (nth 0 args EmptyString =? "describe")%string
                          then execGitCommand args else otherwise args)
           = Some tag)
    /\ (execGitCommand ["describe"; "--tags"; "--abbrev=0"] = Ok None
        \/ execGitCommand ["describe"; "--tags"; "--abbrev=0"] = Ok (Some EmptyString) ->
        Git.getLatestTagLocal execGitCommand
        = match execGitCommand ["tag"; "-l"; "--sort=-version:refname"] with
          | Ok (Some allTags) => hd_error (Git.filled_lines allTags)
          | _ => None
          end)
    /\ (forall message,
          execGitCommand ["describe"; "--tags"; "--abbrev=0"] = Throw message ->
          Git.getLatestTagLocal execGitCommand = None)
    /\ (forall tag,
          Git.getLatestTagLocal execGitCommand = Some tag ->
          tag <> EmptyString
          /\ (execGitCommand ["describe"; "--tags"; "--abbrev=0"] = Ok (Some tag)
              \/ (execGitCommand ["describe"; "--tags"; "--abbrev=0"] = Ok None
                  \/ execGitCommand ["describe"; "--tags"; "--abbrev=0"]
                     = Ok (Some EmptyString))
                 /\ exists allTags pre post,
                      execGitCommand ["tag"; "-l"; "--sort=-version:refname"]
                      = Ok (Some allTags)
                      /\ lines allTags = (pre ++ tag :: post)%list
                      /\ trim tag <> EmptyString
                      /\ forall line, In line pre -> trim line = EmptyString)).
Proof.
  intros exec.
  split; [|split; [exact (getLatestTagLocal_fallback exec)|split]].
  - intros tag otherwise Hne H. unfold Git.getLatestTagLocal. cbn [nth String.eqb Ascii.eqb Bool.eqb].
    rewrite H. destruct tag as [|c r]; [contradiction|]. split; reflexivity.
  - intros message H. unfold Git.getLatestTagLocal. now rewrite H.
  - intros tag H.
    destruct (exec ["describe"; "--tags"; "--abbrev=0"]) as [[[|c r]|]|] eqn:Ed.
    + rewrite (getLatestTagLocal_fallback exec (or_intror Ed)) in H.
      destruct (exec ["tag"; "-l"; "--sort=-version:refname"]) as [[allTags|]|] eqn:E;
        try discriminate.
      destruct (first_filled_line allTags tag H) as (pre & post & El & Hn & Hpre).
      split; [intros ->; now apply Hn|].
      right. split; [now right|]. exists allTags, pre, post. now repeat split.
    + unfold Git.getLatestTagLocal in H. rewrite Ed in H. cbn [truthy_opt truthy narrowed] in H.
      injection H as <-. split; [discriminate | now left].
    + rewrite (getLatestTagLocal_fallback exec (or_introl Ed)) in H.
      destruct (exec ["tag"; "-l"; "--sort=-version:refname"]) as [[allTags|]|] eqn:E;
        try discriminate.
      destruct (first_filled_line allTags tag H) as (pre & post & El & Hn & Hpre).
      split; [intros ->; now apply Hn|].
      right. split; [now left|]. exists allTags, pre, post. now repeat split.
    + unfold Git.getLatestTagLocal in H. rewrite Ed in H. discriminate.
Qed.

Lemma getLatestTagLocal_first_filled_line_witness :
  Git.getLatestTagLocal
    (described "v1.3.0" ("v1.2.0" ++ ConventionalCommits.LF ++ "v1.1.0"))
  = Some "v1.3.0"
  /\ Git.getLatestTagLocal
       (tags_only ("v1.2.0" ++ ConventionalCommits.LF ++ "  " ++ ConventionalCommits.LF
                   ++ "v1.1.0"))
     = Some "v1.2.0"
  /\ Git.getLatestTagLocal (tags_only EmptyString) = None.
Proof.
  split; [|split].
  - refine (proj1 (proj1 (getLatestTagLocal_first_filled_line
                            (described "v1.3.0"
                               ("v1.2.0" ++ ConventionalCommits.LF ++ "v1.1.0")))
                     "v1.3.0" (fun _ => Ok None) _ eq_refl)).
    discriminate.
  - exact (proj1 (proj2 (getLatestTagLocal_first_filled_line
                           (tags_only ("v1.2.0" ++ ConventionalCommits.LF ++ "  "
                                       ++ ConventionalCommits.LF ++ "v1.1.0"))))
             (or_introl eq_refl)).
  - exact (proj1 (proj2 (getLatestTagLocal_first_filled_line (tags_only EmptyString)))
             (or_introl eq_refl)).
Defined.

(** *** [src/release_notes.ts] *)

Lemma file_commit_cases (s : Sections) (commit : Commit) :
  ReleaseNotes.file_commit s commit
  = mkSections
      (breaking s ++ if classified_as MAJOR commit then [commit] else [])
      (features s ++ if classified_as MINOR commit then [commit] else [])
      (fixes s ++ if classified_as PATCH commit && is_fix commit then [commit] else [])
      (others s ++ if is_other commit then [commit] else []).
Proof.
  unfold ReleaseNotes.file_commit, is_other, classified_as, is_fix.
  destruct (ConventionalCommits.getConventionalImpact (Main.of_commit commit)) as [info|];
    [|cbn; now rewrite !app_nil_r; destruct s].
  destruct (impact info) as [[]|]; cbn [Impact_value Z.eqb orb andb negb];
    try (now rewrite !app_nil_r; destruct s).
  destruct (type info =? "fix")%string; cbn [orb andb negb].
  - now rewrite !app_nil_r; destruct s.
  - destruct (type info =? "perf")%string, (type info =? "refactor")%string;
      now rewrite !app_nil_r; destruct s.
Qed.

Lemma file_commits_from (commits : list Commit) :
  forall s,
    fold_left ReleaseNotes.file_commit commits s
    = mkSections
        (breaking s ++ filter (classified_as MAJOR) commits)
        (features s ++ filter (classified_as MINOR) commits)
        (fixes s ++ filter (fun c => classified_as PATCH c && is_fix c) commits)
        (others s ++ filter is_other commits).
Proof.
  induction commits as [|c commits IH]; intros s; cbn [fold_left filter].
  - rewrite !app_nil_r. now destruct s.
  - rewrite IH, file_commit_cases. cbn [breaking features fixes others].
    rewrite <- !app_assoc.
    destruct (classified_as MAJOR c), (classified_as MINOR c),
      (classified_as PATCH c && is_fix c), (is_other c); reflexivity.
Qed.

Lemma classified_once (c : Commit) :
  (if classified_as MAJOR c then 1 else 0) + (if classified_as MINOR c then 1 else 0)
  + (if classified_as PATCH c && is_fix c then 1 else 0) + (if is_other c then 1 else 0)
  = 1.
Proof.
  unfold is_other, classified_as, is_fix.
  destruct (ConventionalCommits.getConventionalImpact (Main.of_commit c)) as [info|];
    [|reflexivity].
  destruct (impact info) as [[]|]; cbn [Impact_value Z.eqb orb andb negb]; try reflexivity.
  now destruct (type info =? "fix")%string.
Qed.



Lemma includes_refl (x : string) : includes x x = true.
Proof.
  rewrite includes_unfold.
  now rewrite (proj2 (strip_prefix_spec x x EmptyString) (eq_sym (append_empty_r x))).
Qed.

(** A string that is joined with others is a part of the result. *)
Lemma includes_join (sep x : string) (l : list string) :
  In x l -> includes x (join sep l) = true.
Proof.
  unfold join. induction l as [|y l IH]; [intros []|].
  intros [-> | H].
  - destruct l; cbn [String.concat]; [apply includes_refl|].
    apply includes_app_l, includes_refl.
  - destruct l as [|z l]; [destruct H|].
    change (String.concat sep (y :: z :: l)) with (y ++ sep ++ String.concat sep (z :: l)).
    now apply includes_app_r, includes_app_r, IH.
Qed.

Lemma section_lists (title : string) (l : list Commit) (c : Commit) :
  In c l ->
  In (ReleaseNotes.commit_line c)
     (if 0 <? Z.of_nat (List.length l)
      then ReleaseNotes.getReleaseNoteSection title l else []).
Proof.
  intros H. destruct l as [|x l]; [destruct H|].
  replace (0 <? Z.of_nat (List.length (x :: l))) with true
    by (symmetry; apply Z.ltb_lt; cbn [List.length]; lia).
  unfold ReleaseNotes.getReleaseNoteSection. right.
  apply in_or_app. left. now apply in_map.
Qed.

(** X18: the release notes list every commit: for each of the commits, the
    line [- <title> (<first seven characters of the hash>)] is a part of the
    text that [generateReleaseNotes] returns. *)
Theorem generateReleaseNotes_lists_every_commit :
  forall (h1 h2 h3 h4 : string) (commits : list Commit) (c : Commit),
    In c commits ->
    includes ("- " ++ commit_title c ++ " (" ++ String.substring 0 7 (sha c) ++ ")")
      (ReleaseNotes.generateReleaseNotes h1 h2 h3 h4 commits) = true.
Proof.
  intros h1 h2 h3 h4 commits c Hc.
  change ("- " ++ commit_title c ++ " (" ++ String.substring 0 7 (sha c) ++ ")")
    with (ReleaseNotes.commit_line c).
  unfold ReleaseNotes.generateReleaseNotes. apply includes_join. right.
  unfold ReleaseNotes.file_commits. rewrite file_commits_from.
  cbn [breaking features fixes others app].
  pose proof (classified_once c) as Hone.
  destruct (classified_as MAJOR c) eqn:E1.
  { apply in_or_app. left. apply section_lists, filter_In. now split. }
  apply in_or_app. right.
  destruct (classified_as MINOR c) eqn:E2.
  { apply in_or_app. left. apply section_lists, filter_In. now split. }
  apply in_or_app. right.
  destruct (classified_as PATCH c && is_fix c) eqn:E3.
  { apply in_or_app. left. apply section_lists, filter_In. now split. }
  apply in_or_app. right.
  destruct (is_other c) eqn:E4; [|lia].
  apply in_or_app. left. apply section_lists, filter_In. now split.
Qed.

Lemma generateReleaseNotes_lists_every_commit_witness :
  includes "- chore: tidy (1f3a9bc)"
    (ReleaseNotes.generateReleaseNotes "Breaking" "Features" "Fixes" "Others"
       [mkCommit "9bc21f3a77" "feat: new" None; mkCommit "1f3a9bc277" "chore: tidy" None])
  = true.
Proof.
  exact (generateReleaseNotes_lists_every_commit "Breaking" "Features" "Fixes" "Others"
           [mkCommit "9bc21f3a77" "feat: new" None; mkCommit "1f3a9bc277" "chore: tidy" None]
           (mkCommit "1f3a9bc277" "chore: tidy" None) (or_intror (or_introl eq_refl))).
Defined.

(** *** [src/main.ts]: the final impact without a classified title *)







(** *** [src/main.ts]: run *)

(** What a run that sets its outputs has gone through. *)
Lemma run_done (w : World) (written : string) (o : Outputs) :
  Run.run w = Done written o ->
  exists last pr final bumped prerelease v,
    truthy (run_token w) = true
    /\ last_release w = Some last
    /\ gh_getPrFromContext w = Some pr
    /\ finalImpact (run_impacts w pr) = Some final
    /\ Semver.bump last (Run.bump_case (impact final)) None None = Ok bumped
    /\ Main.handle_release_candidates (git_getReleaseCandidates w)
         (gh_getReleaseCandidates w) (run_token w) pr (Run.bump_case (impact final)) last
       = Ok prerelease
    /\ Semver.new_SemanticVersion (major bumped) (minor bumped) (patch bumped) prerelease
         (Some (input_build_metadata w)) = Ok v
    /\ o = mkOutputs
             ((merged pr && Run.is_not_NOIMPACT (impact final))
              || match prerelease with Some _ => true | None => false end)
             (if (Z.of_nat (String.length written) <? 10000) then Some written else None)
             "./release-notes.md"
             match prerelease with Some _ => true | None => false end
             (Semver.as_tag v) (Semver.toString v)
             (Pep440.as_pep_440 (host_inherited_text w) v)
    /\ written = Run.replace (notes_format w) placeholder (generated_notes w)
    /\ fs_writeFile w "./release-notes.md" written = Ok tt.
Proof.
  unfold Run.run, last_release, run_impacts, run_token, release_version_name, notes_format,
    generated_notes, placeholder.
  set (tok := if truthy_opt (env_GITHUB_TOKEN w)
              then env_GITHUB_TOKEN w else env_INPUT_GITHUB_TOKEN w).
  destruct (truthy_opt tok) eqn:Et; cbn [negb]; [|discriminate].
  assert (Ht : truthy (narrowed tok) = true) by (destruct tok; [exact Et | discriminate]).
  destruct (gh_getLatestRelease w (narrowed tok)) as [release|].
  - destruct (Semver.parse _) as [last|] eqn:El; [|discriminate].
    destruct (gh_getPrFromContext w) as [pr|]; [|discriminate].
    destruct (finalImpact _) as [final|] eqn:Ef; [|discriminate].
    destruct (Semver.bump last _ None None) as [bumped|] eqn:Eb; [|discriminate].
    destruct (Main.handle_release_candidates _ _ _ _ _ _) as [prerelease|] eqn:Eh;
      [|discriminate].
    destruct (Semver.new_SemanticVersion _ _ _ prerelease _) as [v|] eqn:Ev; [|discriminate].
    destruct (fs_writeFile w _ _) as [[]|] eqn:Ew; [|discriminate].
    intros H. injection H as <- <-.
    exists last, pr, final, bumped, prerelease, v. repeat (split; [assumption || reflexivity|]).
    exact Ew.
  - cbn [Semver.new_SemanticVersion truthy_opt andb].
    destruct (gh_getPrFromContext w) as [pr|]; [|discriminate].
    destruct (finalImpact _) as [final|] eqn:Ef; [|discriminate].
    destruct (Semver.bump _ _ None None) as [bumped|] eqn:Eb; [|discriminate].
    destruct (Main.handle_release_candidates _ _ _ _ _ _) as [prerelease|] eqn:Eh;
      [|discriminate].
    destruct (Semver.new_SemanticVersion _ _ _ prerelease _) as [v|] eqn:Ev; [|discriminate].
    destruct (fs_writeFile w _ _) as [[]|] eqn:Ew; [|discriminate].
    intros H. injection H as <- <-.
    exists (mkSemanticVersion 0 0 0 None None), pr, final, bumped, prerelease, v.
    repeat (split; [assumption || reflexivity|]). exact Ew.
Qed.

(** [handle_release_candidates], case by case. *)
Lemma handle_release_candidates_cases
    (git : SemanticVersion -> Result (list string))
    (gh : string -> SemanticVersion -> Result (list string))
    (token : string) (pr : PullRequest) (i : Impact) (last : SemanticVersion) :
  Main.handle_release_candidates git gh token pr i last
  = if merged pr then Ok None
    else if has_rc_label pr then
      match Semver.bump last i None None with
      | Throw e => Throw e
      | Ok bumped =>
          Ok (Some ("rc" ++ number_toString
                              (Semver.nextRcIndex bumped
                                 (reprinted (release_candidate_names git gh token bumped)))))
      end
    else Ok None.
Proof.
  unfold Main.handle_release_candidates, has_rc_label, reprinted.
  destruct (merged pr); [reflexivity|].
  destruct (existsb _ (labels pr)); [|reflexivity].
  destruct (Semver.bump last i None None) as [bumped|]; [|reflexivity].
  now rewrite getReleaseCandidates_names.
Qed.

(** The latest release of a world where it is safe. *)
Lemma safe_release_last (w : World) (last : SemanticVersion) :
  safe_release w = true -> last_release w = Some last -> safe_version last = true.
Proof. unfold safe_release. intros H E. now rewrite E in H. Qed.

(** One more than a safe integer prints in plain decimal. *)
Lemma add_one_plain (x : number) : is_safe x = true -> is_plain (add x 1) = true.
Proof.
  intros H. apply is_safe_spec in H as (z & -> & Hz).
  rewrite add_one_safe by exact Hz. apply is_plain_spec. exists (z + 1).
  assert (H21 : 2 ^ 53 < 10 ^ 21) by reflexivity.
  split; [reflexivity|]. split; [lia|].
  destruct (Z.eq_dec (z + 1) (2 ^ 53)) as [-> | Hne]; [vm_compute; reflexivity|].
  apply to_double_small. lia.
Qed.

(** The bump of a version whose numbers are safe integers has numbers that
    print in plain decimal. *)
Lemma bump_plain_version (last : SemanticVersion) (i : Impact) (bumped : SemanticVersion) :
  safe_version last = true ->
  Semver.bump last i None None = Ok bumped ->
  plain_version bumped = true.
Proof.
  unfold safe_version, plain_version. intros Hs H.
  apply andb_true_iff in Hs as [Hs H3]. apply andb_true_iff in Hs as [H1 H2].
  apply bump_fields in H as (_ & _ & H).
  destruct i; destruct H as (-> & -> & ->);
    rewrite ?add_one_plain, ?safe_plain by assumption; reflexivity.
Qed.

(** The prerelease that [handle_release_candidates] returns. *)
Lemma handled_prerelease
    (git : SemanticVersion -> Result (list string))
    (gh : string -> SemanticVersion -> Result (list string))
    (token : string) (pr : PullRequest) (i : Impact) (last bumped : SemanticVersion)
    (prerelease : option string) :
  Main.handle_release_candidates git gh token pr i last = Ok prerelease ->
  Semver.bump last i None None = Ok bumped ->
  match prerelease with Some _ => true | None => false end
  = negb (merged pr) && has_rc_label pr
  /\ (prerelease = None
      \/ prerelease
         = Some ("rc" ++ number_toString
                           (Semver.nextRcIndex bumped
                              (reprinted (release_candidate_names git gh token bumped))))).
Proof.
  rewrite handle_release_candidates_cases. intros H Hb. rewrite Hb in H.
  destruct (merged pr), (has_rc_label pr); injection H as <-; cbn [negb andb];
    (split; [reflexivity|]); auto.
Qed.

(** The version of a run is printed and parsed back as it is, without an empty
    buildmetadata. *)
Lemma run_version_parsed (bumped : SemanticVersion) (prerelease : option string)
    (build : string) (names : list string) (v : SemanticVersion) :
  plain_version bumped = true ->
  prerelease = None
  \/ prerelease = Some ("rc" ++ number_toString (Semver.nextRcIndex bumped names)) ->
  Semver.new_SemanticVersion (major bumped) (minor bumped) (patch bumped) prerelease
    (Some build) = Ok v ->
  let parsed := mkSemanticVersion (major bumped) (minor bumped) (patch bumped) prerelease
                  (present (Some build)) in
  Semver.parse (Semver.as_tag v) = Some parsed
  /\ Semver.parse (Semver.toString v) = Some parsed
  /\ Semver.as_tag v = Semver.as_tag parsed
  /\ Semver.toString v = Semver.toString parsed.
Proof.
  intros Hplain Hpre Hv parsed.
  unfold plain_version in Hplain.
  apply andb_true_iff in Hplain as [Hplain Hp]. apply andb_true_iff in Hplain as [HM Hm].
  assert (Ep : present prerelease = prerelease).
  { destruct Hpre as [-> | ->]; reflexivity. }
  destruct (constructed_present _ _ _ _ _ _ Hv) as (-> & Hpre' & Hbuild').
  destruct (parse_as_tag _ _ _ _ _ HM Hm Hp Hpre' Hbuild') as [E1 E2].
  rewrite Ep in E1, E2. subst parsed.
  split; [exact E1|]. split; [exact E2|].
  assert (Es : Semver.toString (mkSemanticVersion (major bumped) (minor bumped)
                                  (patch bumped) prerelease (Some build))
               = Semver.toString (mkSemanticVersion (major bumped) (minor bumped)
                                    (patch bumped) prerelease (present (Some build)))).
  { rewrite toString_present, Ep. reflexivity. }
  split; [unfold Semver.as_tag; now rewrite Es | exact Es].
Qed.

Lemma run_sample_candidate :
  Run.run (sample_world "fix: a" ["release-candidate"] false)
  = Done "%S" (mkOutputs true (Some "%S") "./release-notes.md" true
                 "v1.2.1-rc2" "1.2.1-rc2" "1.2.1rc2").
Proof. vm_compute. reflexivity. Qed.

Lemma run_sample_merged :
  Run.run (sample_world "feat: a" [] true)
  = Done "%S" (mkOutputs true (Some "%S") "./release-notes.md" false
                 "v1.3.0" "1.3.0" "1.3.0").
Proof. vm_compute. reflexivity. Qed.

(** X20: the outputs of a run agree with each other.  When [run] sets its
    outputs, and the numbers of the latest release are safe integers, [tag]
    and [version] are the tag and the [toString] of one version, which
    [parse] reads back from either; that version has a
    prerelease exactly when the output [prerelease] is true, which is exactly
    when the pull request is not merged and carries the label
    [release-candidate]; its buildmetadata is the input [build-metadata],
    or none when that input is empty; [release-notes] is the text written to
    [./release-notes.md], or is not set when that text has 10000 characters
    or more. *)
Theorem run_outputs_agree :
  forall (w : World) (written : string) (o : Outputs),
    Run.run w = Done written o ->
    safe_release w = true ->
    exists pr v,
      gh_getPrFromContext w = Some pr
      /\ Semver.parse (out_tag o) = Some v
      /\ Semver.parse (out_version o) = Some v
      /\ out_tag o = Semver.as_tag v
      /\ out_version o = Semver.toString v
      /\ out_prerelease o = match prerelease v with Some _ => true | None => false end
      /\ out_prerelease o = negb (merged pr) && has_rc_label pr
      /\ buildmetadata v = present (Some (input_build_metadata w))
      /\ out_release_notes_file o = "./release-notes.md"
      /\ out_release_notes o
         = if (Z.of_nat (String.length written) <? 10000) then Some written else None.
Proof.
  intros w written o H Hsafe.
  destruct (run_done w written o H)
    as (last & pr & final & bumped & pre & v & Ht & El & Epr & Ef & Eb & Eh & Ev & -> & _).
  pose proof (bump_plain_version last _ bumped (safe_release_last w last Hsafe El) Eb)
    as Hplain.
  destruct (handled_prerelease _ _ _ _ _ _ _ _ Eh Eb) as [Hflag Hpre].
  destruct (run_version_parsed bumped pre (input_build_metadata w) _ v
              Hplain Hpre Ev) as (E1 & E2 & E3 & E4).
  exists pr, (mkSemanticVersion (major bumped) (minor bumped) (patch bumped) pre
                (present (Some (input_build_metadata w)))).
  cbn [out_tag out_version out_prerelease out_release_notes_file out_release_notes
       prerelease buildmetadata].
  repeat (split; [assumption || reflexivity|]). reflexivity.
Qed.

Lemma run_outputs_agree_witness :
  Run.run (sample_world "fix: a" ["release-candidate"] false)
  = Done "%S" (mkOutputs true (Some "%S") "./release-notes.md" true
                 "v1.2.1-rc2" "1.2.1-rc2" "1.2.1rc2")
  /\ exists pr v,
       gh_getPrFromContext (sample_world "fix: a" ["release-candidate"] false) = Some pr
       /\ Semver.parse "v1.2.1-rc2" = Some v
       /\ Semver.parse "1.2.1-rc2" = Some v.
Proof.
  split; [exact run_sample_candidate|].
  destruct (run_outputs_agree _ _ _ run_sample_candidate eq_refl)
    as (pr & v & H1 & H2 & H3 & _).
  exists pr, v. split; [exact H1|]. split; [exact H2 | exact H3].
Defined.

(** X21: where the version of a run stands against the latest release.  When
    [run] sets its outputs, and the numbers of the latest release (0.0.0 when
    there is none) are safe integers, the version it puts out is above the
    version of the latest release whenever the final impact is PATCH, MINOR
    or MAJOR.  For NOIMPACT, and for an impact that is no member
    of the enum, the numbers are those of the latest release: the version
    compares to it as its prerelease does when it is a release candidate, and
    else is equal to it, or above it when the latest release has a prerelease
    itself. *)
Theorem run_version_against_last :
  forall (lc : string -> string -> Z) (w : World) (written : string) (o : Outputs),
    Run.run w = Done written o ->
    safe_release w = true ->
    exists last pr final v,
      last_release w = Some last
      /\ gh_getPrFromContext w = Some pr
      /\ finalImpact (run_impacts w pr) = Some final
      /\ Semver.parse (out_version o) = Some v
      /\ Semver.compare lc v last
         = match Run.bump_case (impact final) with
           | NOIMPACT =>
               if out_prerelease o
               then Semver.comparePrerelease lc (prerelease v) (prerelease last)
               else if truthy_opt (prerelease last) then 1 else 0
           | _ => 1
           end.
Proof.
  intros lc w written o H Hsafe.
  destruct (run_done w written o H)
    as (last & pr & final & bumped & pre & v & Ht & El & Epr & Ef & Eb & Eh & Ev & -> & _).
  pose proof (safe_release_last w last Hsafe El) as Hlast.
  pose proof (bump_plain_version last _ bumped Hlast Eb) as Hplain.
  destruct (handled_prerelease _ _ _ _ _ _ _ _ Eh Eb) as [Hflag Hpre].
  destruct (run_version_parsed bumped pre (input_build_metadata w) _ v
              Hplain Hpre Ev) as (_ & E2 & _).
  exists last, pr, final,
    (mkSemanticVersion (major bumped) (minor bumped) (patch bumped) pre
       (present (Some (input_build_metadata w)))).
  cbn [out_version out_prerelease].
  do 4 (split; [assumption|]).
  apply bump_fields in Eb as (_ & _ & Eb).
  destruct (safe_version_fields last Hlast)
    as (x & y & z & EM & Em & Ep & Hx & Hy & Hz & AM & Am & Ap).
  rewrite AM, Am, Ap in Eb.
  destruct last as [l1 l2 l3 lp lb]. cbn [major minor patch prerelease] in *.
  subst l1 l2 l3.
  destruct (Run.bump_case (impact final)); destruct Eb as (-> & -> & ->);
    rewrite compare_finite; by_fields.
  destruct Hpre as [-> | ->]; [|reflexivity].
  unfold Semver.comparePrerelease. cbn [truthy_opt negb andb].
  now destruct (truthy_opt lp).
Qed.

Lemma run_version_against_last_witness :
  Run.run (sample_world "feat: a" [] true)
  = Done "%S" (mkOutputs true (Some "%S") "./release-notes.md" false "v1.3.0" "1.3.0" "1.3.0")
  /\ exists last v,
       last_release (sample_world "feat: a" [] true) = Some last
       /\ Semver.parse "1.3.0" = Some v
       /\ Semver.compare ordinalCompare v last = 1.
Proof.
  split; [exact run_sample_merged|].
  destruct (run_version_against_last ordinalCompare _ _ _ run_sample_merged eq_refl)
    as (last & pr & final & v & H1 & H2 & H3 & H4 & H5).
  exists last, v. split; [exact H1|]. split; [exact H4|].
  cbn in H2. injection H2 as <-. cbn in H3. injection H3 as <-. exact H5.
Defined.

(** The next rc index over the names that the providers give is not below the
    one over all the tags of the local repository. *)
Lemma consulted_index_covers_local
    (execGitCommand : list string -> Result (option string))
    (lc : string -> string -> Z)
    (gh : string -> SemanticVersion -> Result (list string))
    (token : string) (bumped : SemanticVersion) :
  at_most (Semver.nextRcIndex bumped (map tag_name (Git.getTags execGitCommand)))
    (Semver.nextRcIndex bumped
       (release_candidate_names
          (fun baseline => Ok (Git.getReleaseCandidates execGitCommand lc baseline))
          gh token bumped)).
Proof.
  unfold release_candidate_names.
  pose proof (nextRcIndex_candidates lc (map tag_name (Git.getTags execGitCommand)) bumped)
    as E.
  rewrite <- git_candidates_spec in E. rewrite <- E.
  destruct (Git.getReleaseCandidates execGitCommand lc bumped) as [|x l].
  - apply nextRcIndex_rc_value.
  - apply at_most_refl, nextRcIndex_rc_value.
Qed.

(** X22: the release candidate of a run is new.  With the local repository as
    the first provider of tags, as in the action, and a latest release whose
    numbers are safe integers, a run that puts out a prerelease puts out the
    tag of the bumped version, which has no prerelease and no buildmetadata
    itself, with the prerelease [rc<n>], [n] the next rc index over the
    names that the providers gave for the bumped version; and
    when [n] is a safe integer, the tag and the version that are put out are
    the names of none of the tags of the local repository, and of none of
    the release candidates that the providers gave. *)
Theorem run_release_candidate_is_new :
  forall (execGitCommand : list string -> Result (option string))
         (lc : string -> string -> Z) (w : World) (written : string) (o : Outputs),
    git_getReleaseCandidates w
    = (fun baseline => Ok (Git.getReleaseCandidates execGitCommand lc baseline)) ->
    Run.run w = Done written o ->
    out_prerelease o = true ->
    safe_release w = true ->
    exists bumped,
      let names := release_candidate_names (git_getReleaseCandidates w)
                     (gh_getReleaseCandidates w) (run_token w) bumped in
      prerelease bumped = None /\ buildmetadata bumped = None
      /\ Semver.parse (out_tag o)
      = Some (mkSemanticVersion (major bumped) (minor bumped) (patch bumped)
                (Some ("rc" ++ number_toString (Semver.nextRcIndex bumped names)))
                (present (Some (input_build_metadata w))))
      /\ (is_safe (Semver.nextRcIndex bumped names) = true ->
          ~ In (out_tag o) (map tag_name (Git.getTags execGitCommand))
          /\ ~ In (out_version o) (map tag_name (Git.getTags execGitCommand))
          /\ ~ In (out_tag o) names
          /\ ~ In (out_version o) names).
Proof.
  intros exec lc w written o Hgit H Hflag Hsafe.
  destruct (run_done w written o H)
    as (last & pr & final & bumped & pre & v & Ht & El & Epr & Ef & Eb & Eh & Ev & -> & _).
  pose proof (bump_plain_version last _ bumped (safe_release_last w last Hsafe El) Eb)
    as Hplain.
  destruct (handled_prerelease _ _ _ _ _ _ _ _ Eh Eb) as [_ Hpre].
  cbn [out_prerelease out_tag out_version] in *.
  destruct Hpre as [-> | Hpre]; [discriminate|].
  destruct (run_version_parsed bumped pre (input_build_metadata w) _ v
              Hplain (or_intror Hpre) Ev) as (E1 & _).
  unfold reprinted in Hpre. rewrite (nextRcIndex_reprinted bumped _ Hplain) in Hpre.
  subst pre.
  exists bumped.
  set (names := release_candidate_names (git_getReleaseCandidates w)
                  (gh_getReleaseCandidates w) (run_token w) bumped) in *.
  cbv zeta. destruct (bump_fields _ _ _ _ _ Eb) as (Hbp & Hbb & _).
  split; [exact Hbp|]. split; [exact Hbb|]. split; [exact E1|]. intros Hn.
  assert (Hlocal : ~ In (Semver.as_tag v) (map tag_name (Git.getTags exec))
                   /\ ~ In (Semver.toString v) (map tag_name (Git.getTags exec))).
  { apply (rc_tag_fresh bumped (map tag_name (Git.getTags exec))
             (Semver.nextRcIndex bumped names)
             (Some (input_build_metadata w)) v Hplain Hn); [|exact Ev].
    subst names. rewrite Hgit. apply consulted_index_covers_local. }
  assert (Hnames : ~ In (Semver.as_tag v) names /\ ~ In (Semver.toString v) names).
  { apply (rc_tag_fresh bumped names (Semver.nextRcIndex bumped names)
             (Some (input_build_metadata w)) v Hplain Hn); [|exact Ev].
    apply at_most_refl, nextRcIndex_rc_value. }
  tauto.
Qed.

Lemma run_release_candidate_is_new_witness :
  Git.getTags (fun _ => Ok (Some ("v1.2.1-rc.0|||1f3a" ++ ConventionalCommits.LF
                                  ++ "v1.2.1-rc.1|||9bc2")))
  = [mkTag "v1.2.1-rc.0" "1f3a"; mkTag "v1.2.1-rc.1" "9bc2"]
  /\ out_tag (mkOutputs true (Some "%S") "./release-notes.md" true
                "v1.2.1-rc2" "1.2.1-rc2" "1.2.1rc2") = "v1.2.1-rc2"
  /\ ~ In "v1.2.1-rc2" ["v1.2.1-rc.0"; "v1.2.1-rc.1"].
Proof.
  split; [reflexivity|]. split; [reflexivity|].
  destruct (run_release_candidate_is_new
       (fun _ => Ok (Some ("v1.2.1-rc.0|||1f3a" ++ ConventionalCommits.LF
                           ++ "v1.2.1-rc.1|||9bc2")))
       ordinalCompare
       (mkWorld (Some "token") None EmptyString EmptyString
          (fun _ _ => None)
          (fun _ => Some (mkRelease (Some "v1.2.0") (Some "v1.2.0")))
          (Some (mkPullRequest "fix: a" EmptyString ["release-candidate"] false))
          (fun _ => [mkCommit "1f3a9bc" "fix: a" None])
          (fun baseline =>
             Ok (Git.getReleaseCandidates
                   (fun _ => Ok (Some ("v1.2.1-rc.0|||1f3a" ++ ConventionalCommits.LF
                                       ++ "v1.2.1-rc.1|||9bc2")))
                   ordinalCompare baseline))
          (fun _ _ => Ok [])
          (fun _ _ => Ok tt)
          (fun _ => EmptyString)
          "Breaking Changes" "New Features" "Bug Fixes" "Other Changes")
       "%S"
       (mkOutputs true (Some "%S") "./release-notes.md" true
          "v1.2.1-rc2" "1.2.1-rc2" "1.2.1rc2")
       eq_refl ltac:(vm_compute; reflexivity) eq_refl eq_refl)
    as (bumped & Hp & Hb & Hparse & Hnew).
  destruct bumped as [M m p bp bb]. cbn [prerelease buildmetadata] in Hp, Hb. subst bp bb.
  cbn [out_tag out_version major minor patch] in Hparse, Hnew.
  change (Semver.parse "v1.2.1-rc2")
    with (Some (mkSemanticVersion 1 2 1 (Some "rc2") None)) in Hparse.
  injection Hparse as EM Em Ep _. subst M m p.
  exact (proj1 (Hnew ltac:(vm_compute; reflexivity))).
Defined.

Lemma search_unfold (pattern s : string) :
  Run.search pattern s
  = match strip_prefix pattern s with
    | Some after => Some (EmptyString, after)
    | None =>
        match s with
        | EmptyString => None
        | String c s' =>
            match Run.search pattern s' with
            | Some (before, after) => Some (String c before, after)
            | None => None
            end
        end
    end.
Proof. destruct s; reflexivity. Qed.

Lemma search_found (pattern before after : string) (c : ascii) (p : string) :
  pattern = String c p ->
  all (fun x => negb (x =? c)%char) before = true ->
  Run.search pattern (before ++ pattern ++ after) = Some (before, after).
Proof.
  intros -> Hb. induction before as [|x before IH].
  - change (EmptyString ++ String c p ++ after) with (String c p ++ after).
    rewrite search_unfold.
    now rewrite (proj2 (strip_prefix_spec (String c p) (String c p ++ after) after) eq_refl).
  - cbn [all] in Hb. apply andb_true_iff in Hb as [Hx Hb]. apply negb_true_iff in Hx.
    rewrite search_unfold. change (String x before ++ String c p ++ after)
      with (String x (before ++ String c p ++ after)).
    cbn [strip_prefix]. rewrite Ascii.eqb_sym, Hx. now rewrite (IH Hb).
Qed.

Lemma substitution_plain (r matched before after : string) :
  all (fun x => negb (x =? "$")%char) r = true ->
  Run.substitution r matched before after = r.
Proof.
  induction r as [|c r IH]; [reflexivity|]. cbn [all]. intros H.
  apply andb_true_iff in H as [Hc Hr]. apply negb_true_iff in Hc.
  cbn [Run.substitution]. now rewrite Hc, (IH Hr).
Qed.

Lemma search_default : Run.search placeholder "%S" = None.
Proof. reflexivity. Qed.

(** X23: without a format file the generated notes are put nowhere.  When the
    input [release-notes-format] is empty or blank, or the file it names
    cannot be read, a run that sets its outputs writes the default format
    itself, the two characters [%S], to the notes file and to the output
    [release-notes]: the default holds no placeholder for the notes. *)
Theorem run_without_format_file :
  forall (w : World) (written : string) (o : Outputs),
    trim (input_release_notes_format w) = EmptyString
    \/ gh_getFileContent w (run_token w) (input_release_notes_format w) = None ->
    Run.run w = Done written o ->
    written = "%S"
    /\ out_release_notes o = Some "%S"
    /\ fs_writeFile w "./release-notes.md" "%S" = Ok tt.
Proof.
  intros w written o Hformat H.
  destruct (run_done w written o H)
    as (last & pr & final & bumped & pre & v & _ & _ & _ & _ & _ & _ & _ & -> & Ew & Ef).
  assert (E : notes_format w = "%S").
  { unfold notes_format. destruct Hformat as [Hb | Hn].
    - rewrite Hb, String.eqb_refl. cbn [negb]. now rewrite andb_false_r.
    - rewrite Hn. destruct (truthy (input_release_notes_format w)); [|reflexivity].
      now destruct (trim (input_release_notes_format w) =? EmptyString)%string. }
  rewrite E in Ew. unfold Run.replace in Ew. rewrite search_default in Ew. subst written.
  split; [reflexivity|]. split; [reflexivity | exact Ef].
Qed.

Lemma run_without_format_file_witness :
  Run.run (sample_world "fix: a" ["release-candidate"] false)
  = Done "%S" (mkOutputs true (Some "%S") "./release-notes.md" true
                 "v1.2.1-rc2" "1.2.1-rc2" "1.2.1rc2")
  /\ generated_notes (sample_world "fix: a" ["release-candidate"] false)
     = "# Release Notes" ++ ConventionalCommits.LF ++ ConventionalCommits.LF
       ++ "## Bug Fixes " ++ ConventionalCommits.LF ++ ConventionalCommits.LF
       ++ "- fix: a (1f3a9bc)" ++ ConventionalCommits.LF ++ ConventionalCommits.LF
  /\ "%S" = "%S".
Proof.
  split; [exact run_sample_candidate|]. split; [reflexivity|].
  exact (proj1 (run_without_format_file
                  (sample_world "fix: a" ["release-candidate"] false) _ _
                  (or_introl eq_refl) run_sample_candidate)).
Defined.

(** X24: where the notes go in a format file.  When the file that the input
    [release-notes-format] names is read and holds the placeholder
    [<INSERT_RELEASE_NOTES_HERE>] after a text without the character [<], a
    run that sets its outputs writes the format with the generated notes in
    the place of that first placeholder, provided the notes hold no dollar
    sign, which [replace] would read as an instruction. *)
Theorem run_inserts_notes_at_placeholder :
  forall (w : World) (written : string) (o : Outputs) (before after : string),
    truthy (input_release_notes_format w) = true ->
    trim (input_release_notes_format w) <> EmptyString ->
    gh_getFileContent w (run_token w) (input_release_notes_format w)
    = Some (before ++ placeholder ++ after) ->
    all (fun c => negb (c =? "<")%char) before = true ->
    all (fun c => negb (c =? "$")%char) (generated_notes w) = true ->
    Run.run w = Done written o ->
    written = before ++ generated_notes w ++ after.
Proof.
  intros w written o before after Ht Hb Hfile Hbefore Hplain H.
  destruct (run_done w written o H)
    as (last & pr & final & bumped & pre & v & _ & _ & _ & _ & _ & _ & _ & _ & Ew & _).
  assert (E : notes_format w = before ++ placeholder ++ after).
  { unfold notes_format. rewrite Ht, Hfile.
    destruct (String.eqb_spec (trim (input_release_notes_format w)) EmptyString);
      [contradiction | reflexivity]. }
  rewrite E in Ew. unfold Run.replace in Ew.
  rewrite (search_found placeholder before after "<" "INSERT_RELEASE_NOTES_HERE>"
             eq_refl Hbefore) in Ew.
  now rewrite substitution_plain in Ew.
Qed.

Lemma run_format_world :
  Run.run format_world
  = Done ("Changes:" ++ ConventionalCommits.LF ++ "# Release Notes"
          ++ ConventionalCommits.LF ++ ConventionalCommits.LF ++ "Thanks.")
      (mkOutputs true
         (Some ("Changes:" ++ ConventionalCommits.LF ++ "# Release Notes"
                ++ ConventionalCommits.LF ++ ConventionalCommits.LF ++ "Thanks."))
         "./release-notes.md" false "v0.0.1" "0.0.1" "0.0.1").
Proof. vm_compute. reflexivity. Qed.

Lemma run_inserts_notes_at_placeholder_witness :
  generated_notes format_world
  = "# Release Notes" ++ ConventionalCommits.LF ++ ConventionalCommits.LF
  /\ "Changes:" ++ ConventionalCommits.LF ++ "# Release Notes"
     ++ ConventionalCommits.LF ++ ConventionalCommits.LF ++ "Thanks."
     = ("Changes:" ++ ConventionalCommits.LF) ++ generated_notes format_world ++ "Thanks.".
Proof.
  split; [reflexivity|].
  refine (run_inserts_notes_at_placeholder format_world _ _
            ("Changes:" ++ ConventionalCommits.LF) "Thanks."
            eq_refl _ eq_refl eq_refl eq_refl run_format_world).
  discriminate.
Defined.

Lemma bump_plain (last : SemanticVersion) (i : Impact) :
  exists bumped, Semver.bump last i None None = Ok bumped.
Proof. destruct i; cbn; eexists; reflexivity. Qed.

(** The next rc index is the Number value of an integer. *)
Lemma nextRcIndex_counted (base : SemanticVersion) (tagNames : list string) :
  counted (Semver.nextRcIndex base tagNames).
Proof.
  rewrite nextRcIndex_max.
  pose proof (fold_max_rc_value _ _ minus_one_rc_value
                (accepted_values_rc_values base tagNames)) as Hf.
  destruct (fold_right number_max (Finite (-1)) (accepted_values base tagNames)) as [m| | |];
    cbn [rc_value] in Hf; try contradiction.
  - exists (m + 1). split; [lia | reflexivity].
  - exists (2 ^ 1024). split; [lia|]. vm_compute. reflexivity.
Qed.

(** The constructor throws in a run for the build metadata, or for the
    prerelease of a release candidate whose index is [10^21] or more. *)
Lemma run_version_thrown (bumped : SemanticVersion) (prerelease : option string)
    (build message : string) (names : list string) :
  prerelease = None
  \/ prerelease = Some ("rc" ++ number_toString (Semver.nextRcIndex bumped names)) ->
  Semver.new_SemanticVersion (major bumped) (minor bumped) (patch bumped) prerelease
    (Some build) = Throw message ->
  (message = "Invalid build metadata format: " ++ build
   /\ truthy build = true
   /\ Semver.buildmetadata_re build = false)
  \/ exists z : Z,
       10 ^ 21 <= z
       /\ Semver.nextRcIndex bumped names = Finite z
       /\ message = "Invalid prerelease format: rc" ++ number_toString z.
Proof.
  intros Hpre. unfold Semver.new_SemanticVersion.
  destruct (truthy_opt prerelease && negb (Semver.prerelease_re (narrowed prerelease)))
    eqn:E.
  - destruct Hpre as [-> | ->]; [discriminate|].
    cbn [narrowed truthy_opt] in *. intros [= <-]. right.
    apply andb_true_iff in E as [_ E]. apply negb_true_iff in E.
    destruct (counted_cases _ (nextRcIndex_counted bumped names))
      as [Hinf | (z & Hz & H0 & Hd)].
    + rewrite Hinf in E. vm_compute in E. discriminate.
    + rewrite Hz in *. exists z. split; [|split; reflexivity].
      destruct (Z.lt_ge_cases z (10 ^ 21)) as [Hlt | Hge]; [|exact Hge].
      assert (Hplain : is_plain (Finite z) = true).
      { apply is_plain_spec. exists z. split; [reflexivity|]. split; [lia | exact Hd]. }
      rewrite (proj1 (rc_prerelease _ Hplain)) in E. discriminate.
  - cbn [truthy_opt narrowed].
    destruct (truthy build); cbn [andb]; [|discriminate].
    destruct (Semver.buildmetadata_re build); cbn [negb]; [discriminate|].
    intros [= <-]. left. now repeat split.
Qed.

(** The steps of a run after the pull request is found. *)
Ltac run_steps w Hb Hh Hv :=
  destruct (gh_getPrFromContext w) as [pr|]; [|discriminate];
  destruct (finalImpact _) as [final|]; [|discriminate];
  match goal with
  | |- context [Semver.bump ?last ?i None None] =>
      destruct (bump_plain last i) as [bumped Hb]; rewrite Hb
  end;
  destruct (Main.handle_release_candidates _ _ _ _ _ _) as [prerelease|] eqn:Hh;
  [| rewrite handle_release_candidates_cases, Hb in Hh;
     destruct (merged pr), (has_rc_label pr); discriminate ];
  destruct (Semver.new_SemanticVersion _ _ _ prerelease _) as [v|message] eqn:Hv;
  [ destruct (fs_writeFile w _ _) as [[]|thrown]; [discriminate|];
    intros [= <-]; right; left; reflexivity
  | intros [= <-];
    destruct (handled_prerelease _ _ _ _ _ _ _ _ Hh Hb) as [_ Hpre];
    destruct (run_version_thrown _ _ _ _ _ Hpre Hv) as [(-> & Ht & Hre) | (z & Hz & _ & ->)];
    [ left; now repeat split
    | right; right; exists z; split; [exact Hz | reflexivity] ] ].

(** X25: the errors that a run catches.  When [run] fails with an error that
    it caught, that error is the one the constructor throws for the input
    [build-metadata], which is then not empty and not of the form of build
    metadata, or it is the rejection of [writeFile] for the notes, or it is
    the one the constructor throws for the prerelease of a release candidate
    whose rc index is [10^21] or more: such an index prints in exponent form,
    as in [rc1e+21], which is no prerelease.  Neither the providers of tags
    nor the bump make a run fail.  A tag [v0.0.1-rc1000000000000000000000]
    of the local repository makes the run of a release candidate fail in the
    third way. *)
Theorem run_caught_errors :
  forall (w : World) (text : string),
    Run.run w = Failed (Caught text) ->
    (text = "Error: Invalid build metadata format: " ++ input_build_metadata w
     /\ truthy (input_build_metadata w) = true
     /\ Semver.buildmetadata_re (input_build_metadata w) = false)
    \/ fs_writeFile w "./release-notes.md"
         (Run.replace (notes_format w) placeholder (generated_notes w))
       = Throw text
    \/ exists z : Z,
         10 ^ 21 <= z
         /\ text = "Error: Invalid prerelease format: rc" ++ number_toString z.
Proof.
  intros w text.
  unfold Run.run, notes_format, generated_notes, placeholder, run_token, Run.String_of_Error.
  set (tok := if truthy_opt (env_GITHUB_TOKEN w)
              then env_GITHUB_TOKEN w else env_INPUT_GITHUB_TOKEN w).
  destruct (truthy_opt tok); cbn [negb]; [|discriminate].
  destruct (gh_getLatestRelease w (narrowed tok)) as [release|].
  - destruct (Semver.parse _) as [last|]; [|discriminate].
    run_steps w Hb Hh Hv.
  - cbn [Semver.new_SemanticVersion truthy_opt andb].
    run_steps w Hb Hh Hv.
Qed.

Lemma run_caught_errors_witness :
  Run.run (mkWorld (Some "token") None EmptyString "build 7"
             (fun _ _ => None) (fun _ => None)
             (Some (mkPullRequest "fix: a" EmptyString ["release-candidate"] false))
             (fun _ => [])
             (fun _ => Throw "git failed") (fun _ _ => Throw "no network")
             (fun _ _ => Ok tt) (fun _ => EmptyString)
             "Breaking Changes" "New Features" "Bug Fixes" "Other Changes")
  = Failed (Caught "Error: Invalid build metadata format: build 7")
  /\ ("Error: Invalid build metadata format: build 7"
      = "Error: Invalid build metadata format: " ++ "build 7"
      /\ truthy "build 7" = true
      /\ Semver.buildmetadata_re "build 7" = false
      \/ Ok tt = Throw "Error: Invalid build metadata format: build 7"
      \/ exists z : Z,
           10 ^ 21 <= z
           /\ "Error: Invalid build metadata format: build 7"
              = "Error: Invalid prerelease format: rc" ++ number_toString z)
  /\ Run.run large_index_world
     = Failed (Caught "Error: Invalid prerelease format: rc1e+21").
Proof.
  split; [vm_compute; reflexivity|]. split; [|vm_compute; reflexivity].
  exact (run_caught_errors
           (mkWorld (Some "token") None EmptyString "build 7"
              (fun _ _ => None) (fun _ => None)
              (Some (mkPullRequest "fix: a" EmptyString ["release-candidate"] false))
              (fun _ => [])
              (fun _ => Throw "git failed") (fun _ _ => Throw "no network")
              (fun _ _ => Ok tt) (fun _ => EmptyString)
              "Breaking Changes" "New Features" "Bug Fixes" "Other Changes")
           "Error: Invalid build metadata format: build 7" eq_refl).
Defined.
